(** * Tower-defense simulation core: enemies, status effects, projectiles, waves

    A shallow embedding of the simulation logic of
    [tower-defense-game/main.js]: the [Enemy] class, [AcidPool],
    [SpikeProjectile], [findNearestEnemy] and [startNextWave].

    JavaScript numbers are idealised as real numbers: [Math.hypot dx dy] is
    [sqrt (dx*dx + dy*dy)], [Math.floor] is [Zfloor], [Math.round] rounds a
    half towards plus infinity, and comparisons are the exact ones.  Counters
    that only ever hold integers ([money], [lives], [wave], [pierce],
    [spawned]) are integers in [Z]; array indices ([waypoint]) are natural
    numbers, the only decrement of [waypoint] being guarded by
    [waypoint > 0].  Module-level variables of the script ([money], [lives],
    [gameSpeed], the difficulty's [moneyMult], the canvas size) are threaded
    explicitly through a [Globals] record. *)

From Stdlib Require Import Reals Lra Lia ZArith List Bool.
Import ListNotations.

Open Scope R_scope.

(** ** Numbers *)

Definition Rgtb (a b : R) : bool := if Rlt_dec b a then true else false.
Definition Rleb (a b : R) : bool := if Rle_dec a b then true else false.
Definition Rltb (a b : R) : bool := if Rlt_dec a b then true else false.

(** [Math.hypot(dx, dy)] *)
Definition hypot (dx dy : R) : R := sqrt (dx * dx + dy * dy).

(** [Math.max], [Math.min] *)
Definition js_max (a b : R) : R := Rmax a b.
Definition js_min (a b : R) : R := Rmin a b.

(** [Math.floor], [Math.round] *)
Definition js_floor (a : R) : Z := Zfloor a.
Definition js_round (a : R) : Z := Zfloor (a + 1 / 2).

(** ** Points and paths *)

Record Point : Type := mkPoint { px : R; py : R }.

Definition Path : Type := list Point.

(** [normalize(dx,dy)]: [const d = Math.hypot(dx,dy) || 1] *)
Definition normalize (dx dy : R) : Point :=
  let h := hypot dx dy in
  let d := if Req_dec_T h 0 then 1 else h in
  mkPoint (dx / d) (dy / d).

(** ** Module-level state *)

Record Globals : Type := mkGlobals {
  money : Z;
  lives : Z;
  gameSpeed : R;
  moneyMult : R;   (* getDifficultyModifiers().moneyMult *)
  canvasW : R;     (* W *)
  canvasH : R      (* H *)
}.

Definition set_money (v : Z) (g : Globals) : Globals :=
  mkGlobals v (lives g) (gameSpeed g) (moneyMult g) (canvasW g) (canvasH g).
Definition set_lives (v : Z) (g : Globals) : Globals :=
  mkGlobals (money g) v (gameSpeed g) (moneyMult g) (canvasW g) (canvasH g).

(** ** Enemy *)

Record Enemy : Type := mkEnemy {
  id : nat;
  hp : R;
  maxHp : R;
  baseSpeed : R;
  radius : R;
  pathIndex : nat;
  path : Path;
  waypoint : nat;
  x : R;
  y : R;
  alive : bool;
  segmentProgress : R;
  bleedDps : R;
  bleedTimer : R;
  slowFactor : R;
  slowTimer : R;
  stunTimer : R
}.

Definition set_hp (v : R) (e : Enemy) : Enemy :=
  mkEnemy (id e) v (maxHp e) (baseSpeed e) (radius e) (pathIndex e) (path e)
    (waypoint e) (x e) (y e) (alive e) (segmentProgress e)
    (bleedDps e) (bleedTimer e) (slowFactor e) (slowTimer e) (stunTimer e).
Definition set_waypoint (v : nat) (e : Enemy) : Enemy :=
  mkEnemy (id e) (hp e) (maxHp e) (baseSpeed e) (radius e) (pathIndex e) (path e)
    v (x e) (y e) (alive e) (segmentProgress e)
    (bleedDps e) (bleedTimer e) (slowFactor e) (slowTimer e) (stunTimer e).
Definition set_pos (vx vy : R) (e : Enemy) : Enemy :=
  mkEnemy (id e) (hp e) (maxHp e) (baseSpeed e) (radius e) (pathIndex e) (path e)
    (waypoint e) vx vy (alive e) (segmentProgress e)
    (bleedDps e) (bleedTimer e) (slowFactor e) (slowTimer e) (stunTimer e).
Definition set_alive (v : bool) (e : Enemy) : Enemy :=
  mkEnemy (id e) (hp e) (maxHp e) (baseSpeed e) (radius e) (pathIndex e) (path e)
    (waypoint e) (x e) (y e) v (segmentProgress e)
    (bleedDps e) (bleedTimer e) (slowFactor e) (slowTimer e) (stunTimer e).
Definition set_bleedDps (v : R) (e : Enemy) : Enemy :=
  mkEnemy (id e) (hp e) (maxHp e) (baseSpeed e) (radius e) (pathIndex e) (path e)
    (waypoint e) (x e) (y e) (alive e) (segmentProgress e)
    v (bleedTimer e) (slowFactor e) (slowTimer e) (stunTimer e).
Definition set_bleedTimer (v : R) (e : Enemy) : Enemy :=
  mkEnemy (id e) (hp e) (maxHp e) (baseSpeed e) (radius e) (pathIndex e) (path e)
    (waypoint e) (x e) (y e) (alive e) (segmentProgress e)
    (bleedDps e) v (slowFactor e) (slowTimer e) (stunTimer e).
Definition set_slowFactor (v : R) (e : Enemy) : Enemy :=
  mkEnemy (id e) (hp e) (maxHp e) (baseSpeed e) (radius e) (pathIndex e) (path e)
    (waypoint e) (x e) (y e) (alive e) (segmentProgress e)
    (bleedDps e) (bleedTimer e) v (slowTimer e) (stunTimer e).
Definition set_slowTimer (v : R) (e : Enemy) : Enemy :=
  mkEnemy (id e) (hp e) (maxHp e) (baseSpeed e) (radius e) (pathIndex e) (path e)
    (waypoint e) (x e) (y e) (alive e) (segmentProgress e)
    (bleedDps e) (bleedTimer e) (slowFactor e) v (stunTimer e).
Definition set_stunTimer (v : R) (e : Enemy) : Enemy :=
  mkEnemy (id e) (hp e) (maxHp e) (baseSpeed e) (radius e) (pathIndex e) (path e)
    (waypoint e) (x e) (y e) (alive e) (segmentProgress e)
    (bleedDps e) (bleedTimer e) (slowFactor e) (slowTimer e) v.

(** [new Enemy(hp, speed, pathIndex)] with the path already looked up and the
    id already drawn from [ENEMY_ID_SEQ].  [this.path[0]] of an empty path is
    [undefined] and reading its [x] throws: [None]. *)
Definition new_Enemy (eid : nat) (h speed : R) (pidx : nat) (p : Path)
  : option Enemy :=
  match nth_error p 0 with
  | None => None
  | Some startPoint =>
      Some (mkEnemy eid h h speed 10 pidx p 0 (px startPoint) (py startPoint)
              true 0 0 0 1 0 0)
  end.

(** [get nextTarget() { return this.path[this.waypoint+1] || null; }] *)
Definition nextTarget (e : Enemy) : option Point :=
  nth_error (path e) (S (waypoint e)).

(** [get currentWaypoint() { return this.path[this.waypoint] || null; }] *)
Definition currentWaypoint (e : Enemy) : option Point :=
  nth_error (path e) (waypoint e).

Definition applyBleed (dps duration : R) (e : Enemy) : Enemy :=
  let e1 := set_bleedDps (js_max (bleedDps e) dps) e in
  set_bleedTimer (js_max (bleedTimer e1) duration) e1.

Definition applySlow (factor duration : R) (e : Enemy) : Enemy :=
  let e1 := set_slowFactor (js_min (slowFactor e) factor) e in
  set_slowTimer (js_max (slowTimer e1) duration) e1.

Definition applyStun (duration : R) (e : Enemy) : Enemy :=
  set_stunTimer (js_max (stunTimer e) duration) e.

(** [knockback(distance)].  [None] is the [TypeError] of reading [.x] of
    [undefined] when [this.path[this.waypoint]] does not exist; it is raised
    before any field is written.  The [else] branch of the inner
    [if (this.waypoint > 0)] is kept as in the source although the guard on
    the first line makes it unreachable. *)
Definition knockback (distance : R) (e : Enemy) : option Enemy :=
  if (waypoint e <=? 0)%nat then Some e (* Can't knockback from start *)
  else
    match nth_error (path e) (waypoint e) with
    | None => None
    | Some a =>
        let b := match nth_error (path e) (S (waypoint e)) with
                 | Some b => b
                 | None => a
                 end in
        let dir := normalize (px b - px a) (py b - py a) in
        let newX := x e - px dir * distance in
        let newY := y e - py dir * distance in
        if (0 <? waypoint e)%nat then
          match nth_error (path e) (waypoint e - 1) with
          | None => None
          | Some prev =>
              let distToPrev := hypot (newX - px prev) (newY - py prev) in
              let distCurrToPrev := hypot (px a - px prev) (py a - py prev) in
              if Rltb distToPrev distCurrToPrev then
                let e1 := set_waypoint (waypoint e - 1) e in
                let prevDir := normalize (px a - px prev) (py a - py prev) in
                let remainingDist := distance - hypot (x e - px a) (y e - py a) in
                Some (set_pos
                        (px a - px prevDir * js_min remainingDist (distCurrToPrev * (9 / 10)))
                        (py a - py prevDir * js_min remainingDist (distCurrToPrev * (9 / 10)))
                        e1)
              else Some (set_pos newX newY e)
          end
        else
          let maxBack := hypot (x e - px a) (y e - py a) * (9 / 10) in
          let actualDist := js_min distance maxBack in
          Some (set_pos (x e - px dir * actualDist) (y e - py dir * actualDist) e)
    end.

Definition die (g : Globals) (e : Enemy) : Enemy * Globals :=
  if negb (alive e) then (e, g)
  else (set_alive false e,
        set_money (money g + js_round (10 * moneyMult g))%Z g).

Definition takeDamage (g : Globals) (d : R) (e : Enemy) : Enemy * Globals :=
  let e1 := set_hp (hp e - d) e in
  if Rleb (hp e1) 0 then die g e1 else (e1, g).

Definition reachEnd (g : Globals) (e : Enemy) : Enemy * Globals :=
  if negb (alive e) then (e, g)
  else (set_alive false e, set_lives (lives g - 1)%Z g).

(** [validatePosition()]: re-project onto the current segment and snap back
    when the drift exceeds five pixels. *)
Definition validatePosition (e : Enemy) : Enemy :=
  match currentWaypoint e, nextTarget e with
  | Some curr, Some next =>
      let segX := px next - px curr in
      let segY := py next - py curr in
      let segLenSq := segX * segX + segY * segY in
      if Rgtb segLenSq 0 then
        let t := js_max 0 (js_min 1
                   (((x e - px curr) * segX + (y e - py curr) * segY) / segLenSq)) in
        let projX := px curr + t * segX in
        let projY := py curr + t * segY in
        let distFromPath := hypot (x e - projX) (y e - projY) in
        if Rgtb distFromPath 5 then set_pos projX projY e else e
      else e
  | _, _ => e
  end.

(** The body of [if (this.bleedTimer > 0) { ... }] in [update] up to, and
    not including, the death check. *)
Definition bleed_tick (dt : R) (e : Enemy) : Enemy :=
  let e1 := set_hp (hp e - bleedDps e * dt) e in
  let e2 := set_bleedTimer (bleedTimer e1 - dt) e1 in
  if Rleb (bleedTimer e2) 0 then set_bleedDps 0 e2 else e2.

(** [if (this.slowTimer > 0) { ... }] in [update]. *)
Definition slow_decay (dt : R) (e : Enemy) : Enemy :=
  if Rgtb (slowTimer e) 0 then
    let e1 := set_slowTimer (slowTimer e - dt) e in
    if Rleb (slowTimer e1) 0 then set_slowFactor 1 e1 else e1
  else e.

(** The movement part of [update], from [const target = this.nextTarget]
    to the end of the method. *)
Definition move (g : Globals) (dt : R) (e : Enemy) : Enemy * Globals :=
  match nextTarget e with
  | None =>
      if (length (path e) - 1 <=? waypoint e)%nat then reachEnd g e else (e, g)
  | Some target =>
      let dx := px target - x e in
      let dy := py target - y e in
      let distToTarget := hypot dx dy in
      let speed := baseSpeed e * slowFactor e * gameSpeed g in
      let moveDistance := speed * dt in
      if Rleb distToTarget (moveDistance + 2) then
        let e1 := set_waypoint (S (waypoint e))
                    (set_pos (px target) (py target) e) in
        if (length (path e1) - 1 <=? waypoint e1)%nat then reachEnd g e1
        else
          let remainingMove := moveDistance - distToTarget in
          let e2 :=
            if Rgtb remainingMove 0 then
              match nextTarget e1 with
              | Some newTarget =>
                  let ndx := px newTarget - x e1 in
                  let ndy := py newTarget - y e1 in
                  let ndist := hypot ndx ndy in
                  if Rgtb ndist 0 then
                    set_pos (x e1 + (ndx / ndist) * js_min remainingMove ndist)
                            (y e1 + (ndy / ndist) * js_min remainingMove ndist) e1
                  else e1
              | None => e1
              end
            else e1 in
          (validatePosition e2, g)
      else
        let moveX := (dx / distToTarget) * moveDistance in
        let moveY := (dy / distToTarget) * moveDistance in
        (validatePosition (set_pos (x e + moveX) (y e + moveY) e), g)
  end.

(** [Enemy.update(dt)] *)
Definition update (g : Globals) (dt : R) (e : Enemy) : Enemy * Globals :=
  if negb (alive e) then (e, g)
  else
    let bleeding := Rgtb (bleedTimer e) 0 in
    let e1 := if bleeding then bleed_tick dt e else e in
    if bleeding && Rleb (hp e1) 0 then die g e1
    else
      let e2 := slow_decay dt e1 in
      if Rgtb (stunTimer e2) 0 then (set_stunTimer (stunTimer e2 - dt) e2, g)
      else move g dt e2.

(** ** Area pool *)

Record AcidPool : Type := mkAcidPool {
  pool_x : R;
  pool_y : R;
  pool_radius : R;
  pool_timer : R;
  pool_dps : R;
  pool_slow : R;
  pool_alive : bool
}.

Definition new_AcidPool (x0 y0 r duration dps slowF : R) : AcidPool :=
  mkAcidPool x0 y0 r duration dps slowF true.

(** One iteration of [for (const e of enemies)] in [AcidPool.update]. *)
Definition pool_touch (p : AcidPool) (dt : R) (g : Globals) (e : Enemy)
  : Enemy * Globals :=
  if negb (alive e) then (e, g)
  else
    let d := hypot (x e - pool_x p) (y e - pool_y p) in
    if Rleb d (pool_radius p) then
      let e1 := applySlow (pool_slow p) (1 / 2) e in
      let e2 := set_hp (hp e1 - pool_dps p * dt) e1 in
      if Rleb (hp e2) 0 then die g e2 else (e2, g)
    else (e, g).

Fixpoint pool_loop (p : AcidPool) (dt : R) (g : Globals) (es : list Enemy)
  : list Enemy * Globals :=
  match es with
  | [] => ([], g)
  | e :: rest =>
      let '(e', g1) := pool_touch p dt g e in
      let '(rest', g2) := pool_loop p dt g1 rest in
      (e' :: rest', g2)
  end.

(** [AcidPool.update(dt)], with the shared [enemies] array passed in and
    returned. *)
Definition pool_update (g : Globals) (dt : R) (p : AcidPool) (es : list Enemy)
  : AcidPool * list Enemy * Globals :=
  if negb (pool_alive p) then (p, es, g)
  else
    let p1 := mkAcidPool (pool_x p) (pool_y p) (pool_radius p)
                (pool_timer p - dt) (pool_dps p) (pool_slow p) (pool_alive p) in
    if Rleb (pool_timer p1) 0 then
      (mkAcidPool (pool_x p1) (pool_y p1) (pool_radius p1) (pool_timer p1)
         (pool_dps p1) (pool_slow p1) false, es, g)
    else
      let '(es', g') := pool_loop p1 dt g es in (p1, es', g').

(** ** Aura tower *)

(** One iteration of the loop of [BrachiosaurusTower.update] for a tower at
    [(tx, ty)] with the given range, slow factor and damage per second. *)
Definition aura_touch (tx ty range slowF dotDps : R) (dt : R) (g : Globals)
  (e : Enemy) : Enemy * Globals :=
  if negb (alive e) then (e, g)
  else if Rleb (hypot (x e - tx) (y e - ty)) range then
    let e1 := applySlow slowF (3 / 10) e in
    let e2 := set_hp (hp e1 - dotDps * dt) e1 in
    if Rleb (hp e2) 0 then die g e2 else (e2, g)
  else (e, g).

(** ** Pierce bolt *)

Record SpikeProjectile : Type := mkSpike {
  spike_x : R;
  spike_y : R;
  spike_angle : R;
  spike_speed : R;
  spike_damage : R;
  spike_pierce : Z;
  spike_alive : bool
}.

Definition new_SpikeProjectile (x0 y0 angle speed damage : R) (pierce : Z)
  : SpikeProjectile :=
  mkSpike x0 y0 angle speed damage pierce true.

Definition spike_set_pierce (v : Z) (s : SpikeProjectile) : SpikeProjectile :=
  mkSpike (spike_x s) (spike_y s) (spike_angle s) (spike_speed s)
    (spike_damage s) v (spike_alive s).
Definition spike_set_alive (v : bool) (s : SpikeProjectile) : SpikeProjectile :=
  mkSpike (spike_x s) (spike_y s) (spike_angle s) (spike_speed s)
    (spike_damage s) (spike_pierce s) v.
Definition spike_set_pos (vx vy : R) (s : SpikeProjectile) : SpikeProjectile :=
  mkSpike vx vy (spike_angle s) (spike_speed s)
    (spike_damage s) (spike_pierce s) (spike_alive s).

(** [Math.hypot(e.x-this.x, e.y-this.y) < e.radius+4] *)
Definition spike_contact (s : SpikeProjectile) (e : Enemy) : bool :=
  Rltb (hypot (x e - spike_x s) (y e - spike_y s)) (radius e + 4).

(** The [for (const e of enemies)] loop of [SpikeProjectile.update]; the
    [break] leaves the rest of the array unvisited. *)
Fixpoint spike_loop (g : Globals) (s : SpikeProjectile) (es : list Enemy)
  : list Enemy * SpikeProjectile * Globals :=
  match es with
  | [] => ([], s, g)
  | e :: rest =>
      if negb (alive e) then
        let '(rest', s', g') := spike_loop g s rest in (e :: rest', s', g')
      else if spike_contact s e then
        let '(e1, g1) := takeDamage g (spike_damage s) e in
        let s1 := spike_set_pierce (spike_pierce s - 1)%Z s in
        if (spike_pierce s1 <=? 0)%Z then
          (e1 :: rest, spike_set_alive false s1, g1)
        else
          let '(rest', s', g') := spike_loop g1 s1 rest in (e1 :: rest', s', g')
      else
        let '(rest', s', g') := spike_loop g s rest in (e :: rest', s', g')
  end.

(** The first three statements of [SpikeProjectile.update]: the straight
    step along the heading. *)
Definition spike_advance (g : Globals) (dt : R) (s : SpikeProjectile)
  : SpikeProjectile :=
  let step := spike_speed s * dt * gameSpeed g in
  spike_set_pos (spike_x s + cos (spike_angle s) * step)
                (spike_y s + sin (spike_angle s) * step) s.

(** [SpikeProjectile.update(dt)] *)
Definition spike_update (g : Globals) (dt : R) (s : SpikeProjectile)
  (es : list Enemy) : SpikeProjectile * list Enemy * Globals :=
  if negb (spike_alive s) then (s, es, g)
  else
    let s1 := spike_advance g dt s in
    let '(es', s2, g') := spike_loop g s1 es in
    let s3 :=
      if Rltb (spike_x s2) (-40) || Rgtb (spike_x s2) (canvasW g' + 40)
         || Rltb (spike_y s2) (-40) || Rgtb (spike_y s2) (canvasH g' + 40)
      then spike_set_alive false s2 else s2 in
    (s3, es', g').

(** ** Nearest-enemy search *)

(** [bestD] starts at [Infinity]. *)
Inductive ExtR : Type :=
| Fin (r : R)
| PosInf.

(** [d < bestD] *)
Definition lt_ext (d : R) (b : ExtR) : bool :=
  match b with
  | Fin r => Rltb d r
  | PosInf => true
  end.

Fixpoint findNearest_loop (qx qy range : R) (es : list Enemy)
  (best : option Enemy) (bestD : ExtR) : option Enemy :=
  match es with
  | [] => best
  | e :: rest =>
      if negb (alive e) then findNearest_loop qx qy range rest best bestD
      else
        let d := hypot (x e - qx) (y e - qy) in
        if Rleb d range && lt_ext d bestD
        then findNearest_loop qx qy range rest (Some e) (Fin d)
        else findNearest_loop qx qy range rest best bestD
  end.

Definition findNearestEnemy (qx qy range : R) (enemies : list Enemy)
  : option Enemy :=
  findNearest_loop qx qy range enemies None PosInf.

(** ** Wave spawner *)

Inductive SpawnKind : Type := Regular | Elite | SteamElite | Miniboss.

(** What the interval callback of [startNextWave] hands to [new Enemy] and
    pushes onto [enemies]: the rounded hit points, the speed and the radius
    it sets. *)
Record Spawned : Type := mkSpawned {
  sp_kind : SpawnKind;
  sp_hp : Z;
  sp_speed : R;
  sp_radius : R
}.

Record WaveConfig : Type := mkWaveConfig {
  countMult : R;     (* mapModifiers.countMult *)
  hpMult : R;        (* getDifficultyModifiers().hpMult *)
  speedMult : R;     (* getDifficultyModifiers().speedMult *)
  waveReward : Z;    (* gameSettings.waveReward *)
  stonkCount : Z     (* number of StonklodonTower in towers *)
}.

Record WaveState : Type := mkWaveState {
  wave : Z;
  spawning : bool;
  timerOn : bool;    (* spawnTimerId is set *)
  spawned : Z;
  count : Z;
  baseHp : R;
  waveSpeed : R;     (* the local baseSpeed of startNextWave *)
  pushed : list Spawned;   (* enemies pushed by the callback, oldest first *)
  wmoney : Z
}.



(** [Math.max(1, Math.round(baseCount * (mapModifiers.countMult || 1)))]
    with [baseCount = 6 + Math.floor(wave * 1.2)].  The product is taken
    exactly; the script rounds it to a double first, which can move a
    product that lies next to a half-integer across it.  The properties of
    the count are therefore stated for the multipliers of [MAPS], whose
    products are at a half-integer exactly or at least a tenth away. *)
Definition wave_count (w : Z) (cm : R) : Z :=
  let baseCount := (6 + js_floor (IZR w * (12 / 10)))%Z in
  let m := if Req_dec_T cm 0 then 1 else cm in
  Z.max 1 (js_round (IZR baseCount * m)).

Definition startNextWave (cfg : WaveConfig) (st : WaveState) : WaveState :=
  if spawning st then st
  else
    let m1 := if (0 <? stonkCount cfg)%Z
              then (wmoney st + 3 * stonkCount cfg)%Z else wmoney st in
    let m2 := if (0 <? wave st)%Z then (m1 + waveReward cfg)%Z else m1 in
    let w := (wave st + 1)%Z in
    mkWaveState w true true 0 (wave_count w (countMult cfg))
      ((20 + 10 * IZR w + IZR (Z.max 0 (w - 10)) * 6) * hpMult cfg)
      ((50 + 4 * IZR w) * speedMult cfg)
      (pushed st) m2.

(** One firing of the [setInterval] callback; [r1] and [r2] are the values
    the two [Math.random()] calls return ([r2] is not drawn for an elite). *)
Definition spawn_tick (r1 r2 : R) (st : WaveState) : WaveState :=
  if negb (timerOn st) then st
  else if (count st <=? spawned st)%Z then
    let boss :=
      if (7 <=? wave st)%Z && (wave st mod 7 =? 0)%Z then
        [mkSpawned Miniboss (js_round (baseHp st * 8))
           (js_max 35 (IZR (js_round (waveSpeed st * (85 / 100))))) 14]
      else [] in
    mkWaveState (wave st) false false (spawned st) (count st) (baseHp st)
      (waveSpeed st) (pushed st ++ boss) (wmoney st)
  else
    let eliteChance := js_min (5 / 100 + IZR (wave st) * (5 / 1000)) (35 / 100) in
    let steamEliteChance := js_min (2 / 100 + IZR (wave st) * (3 / 1000)) (20 / 100) in
    let elite := Rltb r1 eliteChance in
    let steamElite := negb elite && Rltb r2 steamEliteChance in
    let h := js_round (baseHp st *
               (if steamElite then 22 / 10 else if elite then 14 / 10 else 1)) in
    let speed := waveSpeed st *
               (if steamElite then 105 / 100 else if elite then 12 / 10 else 1) in
    let e := mkSpawned (if steamElite then SteamElite
                        else if elite then Elite else Regular)
               h speed (if steamElite then 12 else 10) in
    mkWaveState (wave st) (spawning st) (timerOn st) (spawned st + 1)%Z
      (count st) (baseHp st) (waveSpeed st) (pushed st ++ [e]) (wmoney st).

(** The callback fired once per pair of random draws. *)
Fixpoint run_ticks (rolls : list (R * R)) (st : WaveState) : WaveState :=
  match rolls with
  | [] => st
  | (r1, r2) :: rest => run_ticks rest (spawn_tick r1 r2 st)
  end.

Definition is_miniboss (s : Spawned) : bool :=
  match sp_kind s with Miniboss => true | _ => false end.


(** * Predicates, operations and sample states of the properties *)

Definition sample_path : Path := [mkPoint 0 0; mkPoint 10 0; mkPoint 10 10].

Definition sample_enemy : Enemy :=
  mkEnemy 1 30 30 50 10 0 sample_path 0 0 0 true 0 0 0 1 0 0.

(** The five status fields of two enemy states agree. *)
Definition status_eq (e e' : Enemy) : Prop :=
  bleedDps e' = bleedDps e /\ bleedTimer e' = bleedTimer e /\
  slowFactor e' = slowFactor e /\ slowTimer e' = slowTimer e /\
  stunTimer e' = stunTimer e.

(** The spec's status invariant: an expired timer means a neutral effect. *)
Definition status_neutral (e : Enemy) : Prop :=
  (bleedTimer e <= 0 -> bleedDps e = 0) /\
  (slowTimer e <= 0 -> slowFactor e = 1).

(** The operations of an enemy.  A [knockback] that throws leaves the object
    as it was. *)
Inductive EnemyOp : Type :=
| OpUpdate (dt : R)
| OpApplyBleed (dps duration : R)
| OpApplySlow (factor duration : R)
| OpApplyStun (duration : R)
| OpKnockback (distance : R)
| OpTakeDamage (d : R).

Definition run_op (g : Globals) (op : EnemyOp) (e : Enemy) : Enemy * Globals :=
  match op with
  | OpUpdate dt => update g dt e
  | OpApplyBleed dps duration => (applyBleed dps duration e, g)
  | OpApplySlow factor duration => (applySlow factor duration e, g)
  | OpApplyStun duration => (applyStun duration e, g)
  | OpKnockback distance =>
      (match knockback distance e with Some e' => e' | None => e end, g)
  | OpTakeDamage d => takeDamage g d e
  end.

(** The documented argument ranges: dps >= 0, duration >= 0, factor in (0,1]. *)
Definition documented_args (op : EnemyOp) : Prop :=
  match op with
  | OpApplyBleed dps duration => 0 <= dps /\ 0 <= duration
  | OpApplySlow factor duration => (0 < factor <= 1) /\ 0 <= duration
  | OpApplyStun duration => 0 <= duration
  | _ => True
  end.

(** The same ranges with the durations of bleed and slow strictly positive. *)
Definition positive_durations (op : EnemyOp) : Prop :=
  match op with
  | OpApplyBleed dps duration => 0 <= dps /\ 0 < duration
  | OpApplySlow factor duration => (0 < factor <= 1) /\ 0 < duration
  | OpApplyStun duration => 0 <= duration
  | _ => True
  end.

Definition sample_globals : Globals := mkGlobals 100 10 1 1 800 600.

(** A living, stunned, slowed enemy whose bleed kills it on the next tick. *)
Definition dying_stunned_enemy : Enemy :=
  mkEnemy 2 1 30 50 10 0 sample_path 0 0 0 true 0 10 1 (6 / 10) 1 1.

Definition stunned_bleeding_enemy : Enemy :=
  mkEnemy 3 30 30 50 10 0 sample_path 0 0 0 true 0 4 2 (6 / 10) 1 1.

(** The enemy as [update] has it when it reaches [const target =
    this.nextTarget]: after the bleed tick and the slow decay. *)
Definition pre_move (dt : R) (e : Enemy) : Enemy :=
  slow_decay dt (if Rgtb (bleedTimer e) 0 then bleed_tick dt e else e).

Definition paused_globals : Globals := mkGlobals 100 10 0 1 800 600.

(** A living, unstunned enemy one pixel short of its next waypoint. *)
Definition near_waypoint_enemy : Enemy :=
  mkEnemy 4 30 30 50 10 0 sample_path 0 9 0 true 0 0 0 1 0 0.

(** The enemy is on the first segment of its path, strictly past the first
    point. *)
Definition on_first_segment (e : Enemy) (p0 p1 : Point) : Prop :=
  nth_error (path e) 0 = Some p0 /\ nth_error (path e) 1 = Some p1 /\
  exists t : R, 0 < t <= 1 /\
    x e = px p0 + t * (px p1 - px p0) /\ y e = py p0 + t * (py p1 - py p0).

(** [e'] is [e] pushed by [a] against the direction of the first segment. *)
Definition pushed_back (e e' : Enemy) (p0 p1 : Point) (a : R) : Prop :=
  let dir := normalize (px p1 - px p0) (py p1 - py p0) in
  x e' = x e - px dir * a /\ y e' = y e - py dir * a.

Definition halfway_enemy : Enemy :=
  mkEnemy 5 30 30 50 10 0 sample_path 0 5 0 true 0 0 0 1 0 0.

Definition short_path : Path := [mkPoint 0 0; mkPoint 10 0].

(** A living enemy one pixel short of the last point of its path. *)
Definition arriving_enemy : Enemy :=
  mkEnemy 6 30 30 50 10 0 short_path 0 9 0 true 0 0 0 1 0 0.

(** What [die] adds to [money]. *)
Definition reward (g : Globals) : Z := js_round (10 * moneyMult g).

(** The calls that can lower an enemy's hit points or kill it: towers and
    projectiles call [takeDamage], [update] applies the bleed tick, an area
    pool and the aura tower subtract their damage and call [die], and [die]
    may be called directly. *)
Inductive DamageOp : Type :=
| DmgTake (d : R)
| DmgUpdate (dt : R)
| DmgPool (p : AcidPool) (dt : R)
| DmgAura (tx ty range slowF dotDps dt : R)
| DmgDie.

Definition run_damage (g : Globals) (op : DamageOp) (e : Enemy)
  : Enemy * Globals :=
  match op with
  | DmgTake d => takeDamage g d e
  | DmgUpdate dt => update g dt e
  | DmgPool p dt => pool_touch p dt g e
  | DmgAura tx ty range slowF dotDps dt =>
      aura_touch tx ty range slowF dotDps dt g e
  | DmgDie => die g e
  end.

Fixpoint run_damages (g : Globals) (ops : list DamageOp) (e : Enemy)
  : Enemy * Globals :=
  match ops with
  | [] => (e, g)
  | op :: rest =>
      let '(e1, g1) := run_damage g op e in run_damages g1 rest e1
  end.

(** One call pays nothing, or pays the reward while taking the enemy from
    alive to dead; it never revives the enemy and never changes the
    difficulty multiplier. *)
Definition pays_at_most_once (g : Globals) (e : Enemy) (r : Enemy * Globals)
  : Prop :=
  (money (snd r) = money g \/
   (alive e = true /\ alive (fst r) = false /\
    money (snd r) = (money g + reward g)%Z)) /\
  moneyMult (snd r) = moneyMult g /\
  (alive e = false -> alive (fst r) = false /\ money (snd r) = money g).

Definition dead_enemy : Enemy :=
  mkEnemy 7 (-3) 30 50 10 0 sample_path 0 0 0 false 0 0 0 1 0 0.

(** Distance of an enemy to the query point, as the loop of
    [findNearestEnemy] computes it. *)
Definition dist_to (qx qy : R) (e : Enemy) : R := hypot (x e - qx) (y e - qy).

(** A living enemy within range. *)
Definition candidate (qx qy range : R) (e : Enemy) : Prop :=
  alive e = true /\ dist_to qx qy e <= range.

(** [best] and [bestD] are assigned together. *)
Definition coupled (qx qy : R) (best : option Enemy) (bestD : ExtR) : Prop :=
  match best, bestD with
  | None, PosInf => True
  | Some b, Fin d => d = dist_to qx qy b
  | _, _ => False
  end.

(** [r] is the first enemy of [es] at the least candidate distance. *)
Definition first_nearest (qx qy range : R) (es : list Enemy) (r : Enemy) : Prop :=
  exists l1 l2 : list Enemy,
    es = l1 ++ r :: l2 /\ candidate qx qy range r /\
    (forall e, In e l1 -> candidate qx qy range e ->
               dist_to qx qy r < dist_to qx qy e) /\
    (forall e, In e l2 -> candidate qx qy range e ->
               dist_to qx qy r <= dist_to qx qy e).

Definition sample_config : WaveConfig := mkWaveConfig 1 1 1 20 0.

Definition wave_four_done : WaveState :=
  mkWaveState 4 false false 10 10 60 66 [] 100.

(** The loop passes over [e] without hitting it. *)
Definition untouched (s : SpikeProjectile) (e : Enemy) : Prop :=
  alive e = false \/ spike_contact s e = false.

Definition lane_path : Path := [mkPoint 10 0; mkPoint 200 0].

Definition lane_enemy (eid : nat) (ex : R) : Enemy :=
  mkEnemy eid 100 100 50 10 0 lane_path 0 ex 0 true 0 0 0 1 0 0.

(** A bolt with the Stegosaurus tower's speed and damage and two pierces. *)
Definition two_pierce_bolt : SpikeProjectile :=
  new_SpikeProjectile 0 0 0 520 18 2.

Definition lane_enemies : list Enemy :=
  [lane_enemy 11 20; lane_enemy 12 30; lane_enemy 13 31].

(** * Further parts of the script *)

(** ** Angle and vector utilities *)

(** [clamp(v, a, b)]: [Math.max(a, Math.min(b, v))] *)
Definition clamp (v a b : R) : R := js_max a (js_min b v).

(** [angleBetween(ax,ay,bx,by)] is [Math.atan2(by-ay, bx-ax)]; the library
    function is a parameter of the definitions that call it. *)
Definition angleBetween (atan2 : R -> R -> R) (ax ay bx by_ : R) : R :=
  atan2 (by_ - ay) (bx - ax).

(** The first loop of [wrapAngle]: [while(a<=-Math.PI) a+=Math.PI*2].  The
    fuel bounds the number of iterations; [None] means it ran out. *)
Fixpoint wrap_up (fuel : nat) (a : R) : option R :=
  match fuel with
  | O => if Rleb a (- PI) then None else Some a
  | S n => if Rleb a (- PI) then wrap_up n (a + PI * 2) else Some a
  end.

(** The second loop of [wrapAngle]: [while(a>Math.PI) a-=Math.PI*2]. *)
Fixpoint wrap_down (fuel : nat) (a : R) : option R :=
  match fuel with
  | O => if Rgtb a PI then None else Some a
  | S n => if Rgtb a PI then wrap_down n (a - PI * 2) else Some a
  end.

(** [wrapAngle(a)].  Here every iteration moves [a] by a full turn, so the
    loops end for every argument.  In the script's double arithmetic adding
    [2*PI] to a number of magnitude [2^56] or more gives the number back and
    the loop does not end, so what is proved about returning is stated for
    arguments of bounded magnitude only. *)
Definition wrapAngle (fuel : nat) (a : R) : option R :=
  match wrap_up fuel a with
  | Some a1 => wrap_down fuel a1
  | None => None
  end.

(** [lerpAngle(a, b, maxStep)] *)
Definition lerpAngle (fuel : nat) (a b maxStep : R) : option R :=
  match wrapAngle fuel (b - a) with
  | Some da => Some (a + clamp da (- maxStep) maxStep)
  | None => None
  end.

(** ** Ranges of the enemy's fields *)

(** The status effect strengths are in their ranges: a bleed is not
    negative and the slow factor lies in (0, 1]. *)
Definition status_in_range (e : Enemy) : Prop :=
  0 <= bleedDps e /\ 0 < slowFactor e <= 1.

(** Arguments that do not heal: elapsed time, damage and bleed strength are
    not negative. *)
Definition nonneg_args (op : EnemyOp) : Prop :=
  match op with
  | OpUpdate dt => 0 <= dt
  | OpApplyBleed dps _ => 0 <= dps
  | OpTakeDamage d => 0 <= d
  | _ => True
  end.

(** The fields no enemy method assigns after construction agree. *)
Definition identity_eq (e e' : Enemy) : Prop :=
  id e' = id e /\ maxHp e' = maxHp e /\ baseSpeed e' = baseSpeed e /\
  radius e' = radius e /\ pathIndex e' = pathIndex e /\ path e' = path e /\
  segmentProgress e' = segmentProgress e.

(** An enemy on the second segment of the sample path, three pixels past
    the corner. *)
Definition cornered_enemy : Enemy :=
  mkEnemy 8 30 30 50 10 0 sample_path 1 10 3 true 0 0 0 1 0 0.

(** An enemy beside the first segment of the sample path, eight pixels off
    it. *)
Definition drifted_enemy : Enemy :=
  mkEnemy 9 30 30 50 10 0 sample_path 0 4 8 true 0 0 0 1 0 0.

(** ** Placement *)

(** The body of the inner loop of [isOnPath] for the segment from [a] to
    [b]: is the query point closer than the 24-pixel buffer to the segment?
    For a segment of length zero the script divides 0 by 0; the resulting
    [NaN] makes the final [d < buffer] false. *)
Definition near_segment (qx qy : R) (a b : Point) : bool :=
  let vx := px b - px a in
  let vy := py b - py a in
  if Req_dec_T (vx * vx + vy * vy) 0 then false
  else
    let t := ((qx - px a) * vx + (qy - py a) * vy) / (vx * vx + vy * vy) in
    let clampT := js_max 0 (js_min 1 t) in
    let projX := px a + clampT * vx in
    let projY := py a + clampT * vy in
    Rltb (hypot (projX - qx) (projY - qy)) 24.

(** [for (let i=0;i<path.length-1;i++)] over one path. *)
Fixpoint near_path (qx qy : R) (p : Path) : bool :=
  match p with
  | a :: rest =>
      match rest with
      | b :: _ => if near_segment qx qy a b then true else near_path qx qy rest
      | [] => false
      end
  | [] => false
  end.

(** [isOnPath(x, y)] over the active [paths]. *)
Fixpoint isOnPath (qx qy : R) (paths : list Path) : bool :=
  match paths with
  | p :: rest => if near_path qx qy p then true else isOnPath qx qy rest
  | [] => false
  end.

(** The point at parameter [s] of the segment from [a] to [b]. *)
Definition segment_point (a b : Point) (s : R) : Point :=
  mkPoint (px a + s * (px b - px a)) (py a + s * (py b - py a)).

(** Some point of some segment of non-zero length of some path lies closer
    than [r] to the query point. *)
Definition within_of_paths (r qx qy : R) (paths : list Path) : Prop :=
  exists (p : Path) (i : nat) (a b : Point) (s : R),
    In p paths /\ nth_error p i = Some a /\ nth_error p (S i) = Some b /\
    (px b <> px a \/ py b <> py a) /\ 0 <= s <= 1 /\
    hypot (px (segment_point a b s) - qx) (py (segment_point a b s) - qy) < r.

(** ** Totals over the enemy array *)

(** The hit points of all enemies of the array, added up. *)
Fixpoint sum_hp (es : list Enemy) : R :=
  match es with
  | [] => 0
  | e :: rest => hp e + sum_hp rest
  end.

(** The number of living enemies of the array. *)
Definition alive_count (es : list Enemy) : Z :=
  Z.of_nat (length (filter alive es)).

(** [for (const e of enemies) { ... }] with a body that may mutate [e] and
    the globals: the body is applied to each enemy in array order, the
    globals threaded through. *)
Fixpoint for_each (body : Globals -> Enemy -> Enemy * Globals) (g : Globals)
  (es : list Enemy) : list Enemy * Globals :=
  match es with
  | [] => ([], g)
  | e :: rest =>
      let '(e', g1) := body g e in
      let '(rest', g2) := for_each body g1 rest in
      (e' :: rest', g2)
  end.

(** A loop body that pays the death reward exactly when it takes its enemy
    from alive to dead, and touches neither [lives] nor the multipliers. *)
Definition pays_per_kill (body : Globals -> Enemy -> Enemy * Globals) : Prop :=
  forall (g : Globals) (e : Enemy),
    (alive e = false -> alive (fst (body g e)) = false) /\
    snd (body g e)
    = if alive e && negb (alive (fst (body g e)))
      then set_money (money g + reward g)%Z g else g.

(** ** Area strikes *)

(** The body of the damage loops of [PteranodonTower.update] and
    [QuetzalcoatlusTower.update]: a living enemy within [aoe] of the target's
    position takes [damage]. *)
Definition strike_body (tx ty aoe damage : R) (g : Globals) (e : Enemy)
  : Enemy * Globals :=
  if negb (alive e) then (e, g)
  else if Rleb (hypot (x e - tx) (y e - ty)) aoe then takeDamage g damage e
  else (e, g).

Record PteranodonTower : Type := mkPteranodon {
  pt_x : R;
  pt_y : R;
  pt_range : R;
  pt_cooldown : R;
  pt_fireRate : R;
  pt_aoe : R;
  pt_damage : R
}.

(** [new PteranodonTower(x, y)]; the range is [TOWER_TYPES.Pteranodon.range]. *)
Definition new_PteranodonTower (x0 y0 : R) : PteranodonTower :=
  mkPteranodon x0 y0 200 0 (16 / 10) 70 26.

Definition pt_set_cooldown (v : R) (t : PteranodonTower) : PteranodonTower :=
  mkPteranodon (pt_x t) (pt_y t) (pt_range t) v (pt_fireRate t) (pt_aoe t)
    (pt_damage t).

(** [PteranodonTower.update(dt, enemies)] *)
Definition pteranodon_update (g : Globals) (dt : R) (t : PteranodonTower)
  (es : list Enemy) : PteranodonTower * list Enemy * Globals :=
  let t1 := pt_set_cooldown (pt_cooldown t - dt * gameSpeed g) t in
  if Rgtb (pt_cooldown t1) 0 then (t1, es, g)
  else
    match findNearestEnemy (pt_x t1) (pt_y t1) (pt_range t1) es with
    | Some target =>
        let '(es', g') :=
          for_each (strike_body (x target) (y target) (pt_aoe t1) (pt_damage t1))
            g es in
        (pt_set_cooldown (pt_fireRate t1) t1, es', g')
    | None => (t1, es, g)
    end.

(** The target search of [QuetzalcoatlusTower.update]: the living enemy with
    the highest current hit points, [bestHp] starting at [-1]. *)
Fixpoint highestHp_loop (es : list Enemy) (target : option Enemy) (bestHp : R)
  : option Enemy :=
  match es with
  | [] => target
  | e :: rest =>
      if negb (alive e) then highestHp_loop rest target bestHp
      else if Rgtb (hp e) bestHp then highestHp_loop rest (Some e) (hp e)
      else highestHp_loop rest target bestHp
  end.

Definition findHighestHp (es : list Enemy) : option Enemy :=
  highestHp_loop es None (-1).

Record QuetzalcoatlusTower : Type := mkQuetzalcoatlus {
  qz_x : R;
  qz_y : R;
  qz_range : R;
  qz_cooldown : R;
  qz_fireRate : R;
  qz_aoe : R;
  qz_damage : R
}.

Definition new_QuetzalcoatlusTower (x0 y0 : R) : QuetzalcoatlusTower :=
  mkQuetzalcoatlus x0 y0 9999 0 2 80 30.

Definition qz_set_cooldown (v : R) (t : QuetzalcoatlusTower)
  : QuetzalcoatlusTower :=
  mkQuetzalcoatlus (qz_x t) (qz_y t) (qz_range t) v (qz_fireRate t) (qz_aoe t)
    (qz_damage t).

(** [QuetzalcoatlusTower.update(dt, enemiesList)] *)
Definition quetzalcoatlus_update (g : Globals) (dt : R)
  (t : QuetzalcoatlusTower) (es : list Enemy)
  : QuetzalcoatlusTower * list Enemy * Globals :=
  let t1 := qz_set_cooldown (qz_cooldown t - dt * gameSpeed g) t in
  if Rgtb (qz_cooldown t1) 0 then (t1, es, g)
  else
    match findHighestHp es with
    | Some target =>
        let '(es', g') :=
          for_each (strike_body (x target) (y target) (qz_aoe t1) (qz_damage t1))
            g es in
        (qz_set_cooldown (qz_fireRate t1) t1, es', g')
    | None => (t1, es, g)
    end.

(** Everything of the globals but [money] agrees. *)
Definition globals_but_money (g g' : Globals) : Prop :=
  lives g' = lives g /\ gameSpeed g' = gameSpeed g /\
  moneyMult g' = moneyMult g /\ canvasW g' = canvasW g /\
  canvasH g' = canvasH g.

(** ** Rush strike *)

Record RushStrike : Type := mkRush {
  rs_x : R;
  rs_y : R;
  rs_angle : R;
  rs_speed : R;
  rs_left : R;
  rs_stunDur : R;
  rs_knockback : R;
  rs_damage : R;
  rs_alive : bool;
  rs_hitSet : list nat   (* the ids added to the Set, latest first *)
}.

Definition new_RushStrike (x0 y0 angle speed len stunDur kb damage : R)
  : RushStrike :=
  mkRush x0 y0 angle speed len stunDur kb damage true [].

(** [this.hitSet.has(id)] *)
Definition hitSet_has (hs : list nat) (i : nat) : bool :=
  existsb (Nat.eqb i) hs.

(** The first five statements of [RushStrike.update]: the step, capped by
    the distance left. *)
Definition rush_advance (g : Globals) (dt : R) (r : RushStrike) : RushStrike :=
  let step := js_min (rs_left r) (rs_speed r * dt * gameSpeed g) in
  mkRush (rs_x r + cos (rs_angle r) * step) (rs_y r + sin (rs_angle r) * step)
    (rs_angle r) (rs_speed r) (rs_left r - step) (rs_stunDur r)
    (rs_knockback r) (rs_damage r) (rs_alive r) (rs_hitSet r).

(** The hit-detection loop of [RushStrike.update] with the set of ids hit so
    far threaded through; [None] is the exception a [knockback] throws. *)
Fixpoint rush_loop (g : Globals) (r : RushStrike) (hs : list nat)
  (es : list Enemy) : option (list Enemy * list nat * Globals) :=
  match es with
  | [] => Some ([], hs, g)
  | e :: rest =>
      if negb (alive e) then
        match rush_loop g r hs rest with
        | Some (rest', hs', g') => Some (e :: rest', hs', g')
        | None => None
        end
      else if hitSet_has hs (id e) then
        match rush_loop g r hs rest with
        | Some (rest', hs', g') => Some (e :: rest', hs', g')
        | None => None
        end
      else if Rltb (hypot (x e - rs_x r) (y e - rs_y r)) 18 then
        let '(e1, g1) := takeDamage g (rs_damage r) e in
        let e2 := applyStun (rs_stunDur r) e1 in
        match knockback (rs_knockback r) e2 with
        | None => None
        | Some e3 =>
            match rush_loop g1 r (id e3 :: hs) rest with
            | Some (rest', hs', g') => Some (e3 :: rest', hs', g')
            | None => None
            end
        end
      else
        match rush_loop g r hs rest with
        | Some (rest', hs', g') => Some (e :: rest', hs', g')
        | None => None
        end
  end.

(** [RushStrike.update(dt)] *)
Definition rush_update (g : Globals) (dt : R) (r : RushStrike)
  (es : list Enemy) : option (RushStrike * list Enemy * Globals) :=
  if negb (rs_alive r) then Some (r, es, g)
  else
    let r1 := rush_advance g dt r in
    match rush_loop g r1 (rs_hitSet r1) es with
    | None => None
    | Some (es', hs', g') =>
        let r2 := mkRush (rs_x r1) (rs_y r1) (rs_angle r1) (rs_speed r1)
                    (rs_left r1) (rs_stunDur r1) (rs_knockback r1)
                    (rs_damage r1) (rs_alive r1) hs' in
        let r3 := if Rleb (rs_left r2) 0
                  then mkRush (rs_x r2) (rs_y r2) (rs_angle r2) (rs_speed r2)
                         (rs_left r2) (rs_stunDur r2) (rs_knockback r2)
                         (rs_damage r2) false (rs_hitSet r2)
                  else r2 in
        Some (r3, es', g')
    end.

(** Successive frames: one [update] per elapsed time of the list. *)
Fixpoint rush_run (g : Globals) (dts : list R) (r : RushStrike)
  (es : list Enemy) : option (RushStrike * list Enemy * Globals) :=
  match dts with
  | [] => Some (r, es, g)
  | dt :: rest =>
      match rush_update g dt r es with
      | None => None
      | Some (r1, es1, g1) => rush_run g1 rest r1 es1
      end
  end.

(** Every enemy of the array has a waypoint index inside its path. *)
Definition on_their_paths (es : list Enemy) : Prop :=
  Forall (fun e => (waypoint e < length (path e))%nat) es.

(** What a rush strike may have done to an enemy since [e0]: nothing to its
    hit points, or exactly one application of [damage], its id then being in
    the hit set. *)
Definition hit_at_most_once (damage : R) (hs : list nat) (e0 e : Enemy) : Prop :=
  id e = id e0 /\
  (hp e = hp e0 \/ (hp e = hp e0 - damage /\ In (id e0) hs)).

(** ** Wave bookkeeping *)

(** Minibosses among the spawned enemies. *)
Definition minibosses (l : list Spawned) : nat :=
  length (filter is_miniboss l).

(** A miniboss is due on wave [w]: [wave >= 7 && wave % 7 === 0]. *)
Definition miniboss_due (w : Z) : bool := (7 <=? w)%Z && (w mod 7 =? 0)%Z.

(** ** Path selection *)

(** The loop of [selectPathByWeight]: [cumulative += normalizedWeights[i];
    if (random < cumulative) return i;]; [None] when the loop runs out. *)
Fixpoint select_loop (random : R) (nws : list R) (i : Z) (cumulative : R)
  : option Z :=
  match nws with
  | [] => None
  | w :: rest =>
      let c := cumulative + w in
      if Rltb random c then Some i else select_loop random rest (i + 1)%Z c
  end.

(** [selectPathByWeight()] for [npaths = paths.length], the active
    [pathWeights] and the value [random] that [Math.random()] returns.  The
    weights are divided by their total; a total of 0 is outside the real
    number idealisation (the script then divides by zero). *)
Definition selectPathByWeight (npaths : nat) (pathWeights : list R)
  (random : R) : Z :=
  if (npaths =? 1)%nat then 0%Z
  else
    let totalWeight := fold_left (fun sum w => sum + w) pathWeights 0 in
    let normalizedWeights := map (fun w => w / totalWeight) pathWeights in
    match select_loop random normalizedWeights 0 0 with
    | Some i => i
    | None => (Z.of_nat (length normalizedWeights) - 1)%Z
    end.

(** The sum of the first [k] weights. *)
Definition weight_before (ws : list R) (k : nat) : R :=
  fold_right Rplus 0 (firstn k ws).

(** ** Pruning and placement *)

(** [arr.splice(i, 1)] *)
Definition splice1 {A : Type} (i : nat) (arr : list A) : list A :=
  firstn i arr ++ skipn (S i) arr.

(** The loop of [pruneDead] with [n] indices still to visit, from [n - 1]
    down to 0. *)
Fixpoint prune_from {A : Type} (pred : A -> bool) (n : nat) (arr : list A)
  : list A :=
  match n with
  | O => arr
  | S i =>
      prune_from pred i
        (match nth_error arr i with
         | Some a => if pred a then splice1 i arr else arr
         | None => arr
         end)
  end.

(** [pruneDead(arr, pred)]:
    [for (let i=arr.length-1;i>=0;i--) if (pred(arr[i])) arr.splice(i,1)] *)
Definition pruneDead {A : Type} (arr : list A) (pred : A -> bool) : list A :=
  prune_from pred (length arr) arr.

Inductive TowerType : Type :=
| RaptorNest | Protoceratops | Triceratops | Brachiosaurus | Dilophosaurus
| Stegosaurus | Iguanodon | Stonklodon | TRex | Spinosaurus | Pteranodon
| Ankylosaurus | Dreadnoughtus | Quetzalcoatlus.

(** [TOWER_TYPES[type].cost] *)
Definition tower_cost (t : TowerType) : Z :=
  match t with
  | RaptorNest => 60 | Protoceratops => 55 | Triceratops => 85
  | Brachiosaurus => 95 | Dilophosaurus => 75 | Stegosaurus => 80
  | Iguanodon => 70 | Stonklodon => 90 | TRex => 150 | Spinosaurus => 170
  | Pteranodon => 130 | Ankylosaurus => 110 | Dreadnoughtus => 190
  | Quetzalcoatlus => 200
  end%Z.

(** A tower as [placeTower] pushes it: its class and where it stands. *)
Record PlacedTower : Type := mkPlaced {
  tw_type : TowerType;
  tw_x : R;
  tw_y : R
}.

(** [placeTower(type, x, y)] *)
Definition placeTower (t : TowerType) (x0 y0 : R) (towers : list PlacedTower)
  : list PlacedTower :=
  towers ++ [mkPlaced t x0 y0].

(** The canvas click handler: [previewPos], [selectedType], [money] and
    [towers] are the script's variables, [paths] the active paths. *)
Definition click (paths : list Path) (selectedType : TowerType)
  (previewPos : option Point) (money0 : Z) (towers : list PlacedTower)
  : Z * list PlacedTower :=
  match previewPos with
  | None => (money0, towers)
  | Some p =>
      if isOnPath (px p) (py p) paths then (money0, towers)
      else if (money0 <? tower_cost selectedType)%Z then (money0, towers)
      else (money0 - tower_cost selectedType,
            placeTower selectedType (px p) (py p) towers)%Z
  end.

(** ** Homing leap *)

(** A [HomingLeap] without its [target] reference; the target enemy is
    passed to, and returned by, [leap_update]. *)
Record HomingLeap : Type := mkLeap {
  hl_x : R;
  hl_y : R;
  hl_speed : R;
  hl_impact : R;
  hl_bleedDps : R;
  hl_bleedDur : R;
  hl_alive : bool;
  hl_angle : R
}.

(** [new HomingLeap(x, y, target, speed, impact, bleedDps, bleedDur)] *)
Definition new_HomingLeap (atan2 : R -> R -> R) (x0 y0 : R) (target : Enemy)
  (speed impact bleedDps0 bleedDur : R) : HomingLeap :=
  mkLeap x0 y0 speed impact bleedDps0 bleedDur true
    (angleBetween atan2 x0 y0 (x target) (y target)).

Definition hl_set_alive (v : bool) (l : HomingLeap) : HomingLeap :=
  mkLeap (hl_x l) (hl_y l) (hl_speed l) (hl_impact l) (hl_bleedDps l)
    (hl_bleedDur l) v (hl_angle l).

(** The steering and the step of [HomingLeap.update] for the new heading
    [a]. *)
Definition leap_advance (g : Globals) (dt : R) (a : R) (l : HomingLeap)
  : HomingLeap :=
  let move := hl_speed l * dt * gameSpeed g in
  mkLeap (hl_x l + cos a * move) (hl_y l + sin a * move) (hl_speed l)
    (hl_impact l) (hl_bleedDps l) (hl_bleedDur l) (hl_alive l) a.

(** [HomingLeap.update(dt)].  [fuel] bounds the iterations of each
    [wrapAngle] loop; [None] means it ran out. *)
Definition leap_update (atan2 : R -> R -> R) (fuel : nat) (g : Globals)
  (dt : R) (l : HomingLeap) (target : Enemy)
  : option (HomingLeap * Enemy * Globals) :=
  if negb (hl_alive l) then Some (l, target, g)
  else if negb (alive target) then Some (hl_set_alive false l, target, g)
  else
    let desired := angleBetween atan2 (hl_x l) (hl_y l) (x target) (y target) in
    let turn := 8 * dt * gameSpeed g in
    match lerpAngle fuel (hl_angle l) desired turn with
    | None => None
    | Some a1 =>
        match wrapAngle fuel a1 with
        | None => None
        | Some a2 =>
            let l1 := leap_advance g dt a2 l in
            let '(l2, target2, g2) :=
              if Rltb (hypot (hl_x l1 - x target) (hl_y l1 - y target))
                      (radius target + 8)
              then
                let '(t1, g1) := takeDamage g (hl_impact l1) target in
                (hl_set_alive false l1,
                 applyBleed (hl_bleedDps l1) (hl_bleedDur l1) t1, g1)
              else (l1, target, g) in
            let l3 :=
              if Rltb (hl_x l2) (-40) || Rgtb (hl_x l2) (canvasW g2 + 40)
                 || Rltb (hl_y l2) (-40) || Rgtb (hl_y l2) (canvasH g2 + 40)
              then hl_set_alive false l2 else l2 in
            Some (l3, target2, g2)
        end
    end.

(** Successive frames of one leap and its target. *)
Fixpoint leap_run (atan2 : R -> R -> R) (fuel : nat) (g : Globals)
  (dts : list R) (l : HomingLeap) (target : Enemy)
  : option (HomingLeap * Enemy * Globals) :=
  match dts with
  | [] => Some (l, target, g)
  | dt :: rest =>
      match leap_update atan2 fuel g dt l target with
      | None => None
      | Some (l1, t1, g1) => leap_run atan2 fuel g1 rest l1 t1
      end
  end.

(** A leap launched at (15,0) straight at a living enemy standing at (20,0),
    with the Velociraptor tower's speed; [atan2] of a horizontal direction
    to the right is 0. *)
Definition head_on_leap : HomingLeap :=
  new_HomingLeap (fun _ _ => 0) 15 0 (lane_enemy 11 20) 450 8 6 3.

(** ** Aura towers in the frame loop *)

Record BrachiosaurusTower : Type := mkBrachio {
  br_x : R;
  br_y : R;
  br_range : R;
  br_slowFactor : R;
  br_dotDps : R
}.

(** [new BrachiosaurusTower(x,y)]; the range is
    [TOWER_TYPES.Brachiosaurus.range]. *)
Definition new_BrachiosaurusTower (x0 y0 : R) : BrachiosaurusTower :=
  mkBrachio x0 y0 160 (6 / 10) (3 / 2).

(** The body of the loop of [BrachiosaurusTower.update] for one tower. *)
Definition brachiosaurus_touch (dt : R) (tw : BrachiosaurusTower)
  (g : Globals) (e : Enemy) : Enemy * Globals :=
  aura_touch (br_x tw) (br_y tw) (br_range tw) (br_slowFactor tw)
    (br_dotDps tw) dt g e.

(** [BrachiosaurusTower.update(dt, enemies)] *)
Definition brachiosaurus_update (g : Globals) (dt : R)
  (tw : BrachiosaurusTower) (es : list Enemy) : list Enemy * Globals :=
  for_each (brachiosaurus_touch dt tw) g es.

(** [for (const t of towers) t.update(dt, enemies);] of the frame [update]
    when the towers are Brachiosaurus towers: each tower in turn goes over
    the shared [enemies] array. *)
Definition auras_update (g : Globals) (dt : R)
  (tws : list BrachiosaurusTower) (es : list Enemy) : list Enemy * Globals :=
  fold_left (fun st tw => brachiosaurus_update (snd st) dt tw (fst st))
    tws (es, g).

(** What the auras of the towers, in turn, do to one enemy. *)
Definition under_auras (g : Globals) (dt : R) (tws : list BrachiosaurusTower)
  (e : Enemy) : Enemy :=
  fold_left (fun e0 tw => fst (brachiosaurus_touch dt tw g e0)) tws e.

(** Brachiosaurus towers built by the constructor at the given places. *)
Definition brachiosaurus_at (ps : list Point) : list BrachiosaurusTower :=
  map (fun p => new_BrachiosaurusTower (px p) (py p)) ps.

(** * Properties *)

(** ** Comparison and evaluation helpers *)

Lemma Rgtb_true (a b : R) : Rgtb a b = true <-> b < a.
Proof. unfold Rgtb; destruct (Rlt_dec b a); split; intros; try easy; lra. Qed.

Lemma Rgtb_false (a b : R) : Rgtb a b = false <-> a <= b.
Proof. unfold Rgtb; destruct (Rlt_dec b a); split; intros; try easy; lra. Qed.

Lemma Rleb_true (a b : R) : Rleb a b = true <-> a <= b.
Proof. unfold Rleb; destruct (Rle_dec a b); split; intros; try easy; lra. Qed.

Lemma Rleb_false (a b : R) : Rleb a b = false <-> b < a.
Proof. unfold Rleb; destruct (Rle_dec a b); split; intros; try easy; lra. Qed.

Lemma Rltb_true (a b : R) : Rltb a b = true <-> a < b.
Proof. unfold Rltb; destruct (Rlt_dec a b); split; intros; try easy; lra. Qed.

Lemma Rltb_false (a b : R) : Rltb a b = false <-> b <= a.
Proof. unfold Rltb; destruct (Rlt_dec a b); split; intros; try easy; lra. Qed.

(** Unfold the field setters and reduce the projections, leaving the real
    arithmetic untouched. *)
Ltac fields :=
  cbn [id hp maxHp baseSpeed radius pathIndex path waypoint x y alive
       segmentProgress bleedDps bleedTimer slowFactor slowTimer stunTimer
       set_hp set_waypoint set_pos set_alive set_bleedDps set_bleedTimer
       set_slowFactor set_slowTimer set_stunTimer
       money lives gameSpeed moneyMult canvasW canvasH set_money set_lives
       px py fst snd negb andb orb] in *.

(** Settle every comparison of the goal whose outcome linear arithmetic
    decides, innermost first. *)
Ltac no_dec t :=
  lazymatch t with
  | context [Rlt_dec _ _] => fail
  | context [Rle_dec _ _] => fail
  | _ => idtac
  end.

Ltac rdec :=
  repeat (fields;
    match goal with
    | |- context [Rlt_dec ?a ?b] =>
        no_dec a; no_dec b;
        destruct (Rlt_dec a b); [ try (exfalso; lra) | try (exfalso; lra) ]
    | |- context [Rle_dec ?a ?b] =>
        no_dec a; no_dec b;
        destruct (Rle_dec a b); [ try (exfalso; lra) | try (exfalso; lra) ]
    end);
  fields.

Ltac rcmp := unfold Rgtb, Rleb, Rltb, js_max, js_min, Rmax, Rmin in *; rdec.

Lemma hypot_nonneg (a b : R) : 0 <= hypot a b.
Proof. unfold hypot; apply sqrt_pos. Qed.

Lemma hypot_axis_x (a : R) : 0 <= a -> hypot a 0 = a.
Proof.
  intros Ha; unfold hypot.
  replace (a * a + 0 * 0) with (Rsqr a) by (unfold Rsqr; ring).
  now apply sqrt_Rsqr.
Qed.

Lemma hypot_axis_x_neg (a : R) : a <= 0 -> hypot a 0 = - a.
Proof.
  intros Ha; unfold hypot.
  replace (a * a + 0 * 0) with (Rsqr (- a)) by (unfold Rsqr; ring).
  apply sqrt_Rsqr; lra.
Qed.

Lemma js_round_int (z : Z) : js_round (IZR z) = z.
Proof. unfold js_round; apply Zfloor_eq; lra. Qed.

(** ** Status effects *)

(** C6: [applyBleed(dps, duration)] keeps the stronger dps and the longer
    timer: [bleedDps] becomes [max(bleedDps, dps)] and [bleedTimer] becomes
    [max(bleedTimer, duration)]; on a freshly created enemy,
    [applyBleed(4, 2)] followed by [applyBleed(6, 1)] leaves [bleedDps = 6]
    and [bleedTimer = 2]. *)
Theorem applyBleed_strongest_wins :
  (forall (e : Enemy) (dps duration : R),
      0 <= dps -> 0 <= duration ->
      bleedDps (applyBleed dps duration e) = Rmax (bleedDps e) dps /\
      bleedTimer (applyBleed dps duration e) = Rmax (bleedTimer e) duration) /\
  (forall (eid pidx : nat) (h speed : R) (p : Path) (e0 : Enemy),
      new_Enemy eid h speed pidx p = Some e0 ->
      bleedDps (applyBleed 6 1 (applyBleed 4 2 e0)) = 6 /\
      bleedTimer (applyBleed 6 1 (applyBleed 4 2 e0)) = 2).
Proof.
  split.
  - intros e dps duration _ _; unfold applyBleed, js_max; fields; auto.
  - intros eid pidx h speed p e0 Hnew. unfold new_Enemy in Hnew.
    destruct (nth_error p 0) as [s|]; [|discriminate].
    injection Hnew as <-. unfold applyBleed. rcmp; split; lra.
Qed.

Lemma applyBleed_strongest_wins_witness :
  (0 <= 4 /\ 0 <= 2) /\
  bleedDps (applyBleed 4 2 sample_enemy) = Rmax (bleedDps sample_enemy) 4 /\
  bleedDps (applyBleed 6 1 (applyBleed 4 2 sample_enemy)) = 6.
Proof.
  split; [lra|]. split.
  - apply (proj1 applyBleed_strongest_wins sample_enemy 4 2); lra.
  - apply (proj2 applyBleed_strongest_wins 1%nat 0%nat 30 50 sample_path
             sample_enemy); reflexivity.
Defined.

Lemma status_eq_refl (e : Enemy) : status_eq e e.
Proof. unfold status_eq; auto. Qed.

Ltac steq := unfold status_eq; fields; repeat split; reflexivity.

Lemma die_status (g : Globals) (e : Enemy) : status_eq e (fst (die g e)).
Proof. unfold die; destruct (alive e); steq. Qed.

Lemma reachEnd_status (g : Globals) (e : Enemy) :
  status_eq e (fst (reachEnd g e)).
Proof. unfold reachEnd; destruct (alive e); steq. Qed.

Lemma validatePosition_status (e : Enemy) : status_eq e (validatePosition e).
Proof.
  unfold validatePosition.
  destruct (currentWaypoint e), (nextTarget e); try steq.
  destruct (Rgtb _ 0); [|steq].
  destruct (Rgtb _ 5); steq.
Qed.

Lemma status_eq_trans (a b c : Enemy) :
  status_eq a b -> status_eq b c -> status_eq a c.
Proof. unfold status_eq; intuition congruence. Qed.

Lemma move_status (g : Globals) (dt : R) (e : Enemy) :
  status_eq e (fst (move g dt e)).
Proof.
  unfold move.
  destruct (nextTarget e) as [target|].
  - destruct (Rleb _ _).
    + destruct (_ <=? _)%nat.
      * eapply status_eq_trans; [|apply reachEnd_status]. steq.
      * cbn [fst].
        eapply status_eq_trans; [|apply validatePosition_status].
        destruct (Rgtb _ 0); [|steq].
        destruct (nextTarget _); [|steq].
        destruct (Rgtb _ 0); steq.
    + cbn [fst]. eapply status_eq_trans; [|apply validatePosition_status]. steq.
  - destruct (_ <=? _)%nat; [apply reachEnd_status | steq].
Qed.

Lemma status_neutral_eq (e e' : Enemy) :
  status_eq e e' -> status_neutral e -> status_neutral e'.
Proof.
  unfold status_eq, status_neutral.
  intros (-> & -> & -> & -> & _); auto.
Qed.

Lemma knockback_status (d : R) (e e' : Enemy) :
  knockback d e = Some e' -> status_eq e e'.
Proof.
  unfold knockback.
  destruct (_ <=? 0)%nat; [intros [= <-]; steq|].
  destruct (nth_error _ (waypoint e)); [|discriminate].
  destruct (0 <? _)%nat.
  - destruct (nth_error _ (waypoint e - 1)); [|discriminate].
    destruct (Rltb _ _); intros [= <-]; steq.
  - intros [= <-]; steq.
Qed.

Lemma bleed_tick_neutral (dt : R) (e : Enemy) :
  status_neutral e -> status_neutral (bleed_tick dt e).
Proof.
  unfold status_neutral, bleed_tick; intros [Hb Hs].
  rcmp; split; intros; auto; lra.
Qed.

Lemma slow_decay_neutral (dt : R) (e : Enemy) :
  status_neutral e -> status_neutral (slow_decay dt e).
Proof.
  unfold status_neutral, slow_decay; intros [Hb Hs].
  rcmp; split; intros; auto; lra.
Qed.

Lemma update_neutral (g : Globals) (dt : R) (e : Enemy) :
  status_neutral e -> status_neutral (fst (update g dt e)).
Proof.
  intros H. unfold update.
  destruct (alive e); cbn [negb fst]; [|assumption].
  set (e1 := if Rgtb (bleedTimer e) 0 then bleed_tick dt e else e).
  assert (H1 : status_neutral e1).
  { unfold e1; destruct (Rgtb _ 0); [apply bleed_tick_neutral|]; assumption. }
  destruct (_ && _).
  - apply (status_neutral_eq e1); [apply die_status | assumption].
  - pose proof (slow_decay_neutral dt e1 H1) as H2.
    destruct (Rgtb (stunTimer (slow_decay dt e1)) 0).
    + cbn [fst]. unfold status_neutral in *; fields; assumption.
    + apply (status_neutral_eq (slow_decay dt e1)); [apply move_status | assumption].
Qed.

(** C3 (as stated, refuted): with a duration of 0 allowed, [applyBleed(5, 0)]
    on a fresh enemy leaves [bleedTimer = 0] and [bleedDps = 5], so the
    invariant is not preserved over the whole documented range. *)
Lemma status_invariant_fails_at_zero_duration :
  ~ (forall (g : Globals) (op : EnemyOp) (e : Enemy),
        documented_args op -> status_neutral e ->
        status_neutral (fst (run_op g op e))).
Proof.
  intros H.
  specialize (H (mkGlobals 0 0 1 1 800 600) (OpApplyBleed 5 0) sample_enemy).
  destruct H as [Hb _].
  - cbn; lra.
  - unfold status_neutral, sample_enemy; fields; split; intros; reflexivity.
  - unfold run_op, applyBleed, sample_enemy in Hb; fields.
    revert Hb; rcmp; intros Hb; specialize (Hb ltac:(lra)); lra.
Qed.

(** C3 (amended): the invariant "[bleedTimer <= 0] implies [bleedDps = 0],
    and [slowTimer <= 0] implies [slowFactor = 1]" holds at creation and is
    preserved by update, applyBleed, applySlow, applyStun, knockback and
    takeDamage for dps >= 0, factor in (0,1] and durations of bleed and slow
    strictly positive. *)
Theorem status_invariant_preserved :
  (forall (eid pidx : nat) (h speed : R) (p : Path) (e0 : Enemy),
      new_Enemy eid h speed pidx p = Some e0 -> status_neutral e0) /\
  (forall (g : Globals) (op : EnemyOp) (e : Enemy),
      positive_durations op -> status_neutral e ->
      status_neutral (fst (run_op g op e))).
Proof.
  split.
  - intros eid pidx h speed p e0 Hnew. unfold new_Enemy in Hnew.
    destruct (nth_error p 0); [|discriminate]. injection Hnew as <-.
    unfold status_neutral; fields; auto.
  - intros g op e Hop Hinv. destruct op; cbn [run_op fst].
    + now apply update_neutral.
    + destruct Hop as [_ Hd]. unfold status_neutral, applyBleed in *.
      destruct Hinv as [Hb Hs]. rcmp; split; intros; auto; lra.
    + destruct Hop as [_ Hd]. unfold status_neutral, applySlow in *.
      destruct Hinv as [Hb Hs]. rcmp; split; intros; auto; lra.
    + unfold status_neutral, applyStun in *; fields; assumption.
    + destruct (knockback distance e) eqn:Hk; [|assumption].
      apply (status_neutral_eq e); [now apply (knockback_status distance)|assumption].
    + unfold takeDamage. destruct (Rleb _ 0).
      * apply (status_neutral_eq (set_hp (hp e - d) e)); [apply die_status|].
        unfold status_neutral in *; fields; assumption.
      * cbn [fst]. unfold status_neutral in *; fields; assumption.
Qed.

Lemma status_invariant_preserved_witness :
  positive_durations (OpApplySlow (6 / 10) 1) /\
  status_neutral sample_enemy /\
  status_neutral
    (fst (run_op (mkGlobals 0 0 1 1 800 600) (OpApplySlow (6 / 10) 1)
            sample_enemy)).
Proof.
  assert (Hop : positive_durations (OpApplySlow (6 / 10) 1)) by (cbn; lra).
  assert (Hinv : status_neutral sample_enemy).
  { apply (proj1 status_invariant_preserved 1%nat 0%nat 30 50 sample_path).
    reflexivity. }
  split; [exact Hop|]. split; [exact Hinv|].
  apply (proj2 status_invariant_preserved); assumption.
Defined.

(** ** Stun *)

(** C5 (as stated, refuted): when the bleed damage of the tick brings [hp]
    to 0 or below, [update] calls [die] and returns before the slow and stun
    timers are touched, so the stun timer of a living stunned enemy does not
    decrease on that tick. *)
Lemma stunned_update_fails_when_bleed_kills :
  ~ (forall (g : Globals) (dt : R) (e : Enemy),
        alive e = true -> 0 < stunTimer e -> 0 < dt ->
        let e' := fst (update g dt e) in
        x e' = x e /\ y e' = y e /\ waypoint e' = waypoint e /\
        stunTimer e' < stunTimer e /\
        (0 < bleedTimer e -> bleedTimer e' < bleedTimer e) /\
        (0 < slowTimer e -> slowTimer e' < slowTimer e) /\
        (0 < bleedTimer e -> hp e' = hp e - bleedDps e * dt)).
Proof.
  intros H.
  specialize (H sample_globals (1 / 2) dying_stunned_enemy).
  cbn zeta in H.
  destruct H as (_ & _ & _ & Hstun & _).
  - reflexivity.
  - unfold dying_stunned_enemy; fields; lra.
  - lra.
  - revert Hstun.
    unfold update, bleed_tick, slow_decay, die, dying_stunned_enemy.
    rcmp; lra.
Qed.

(** C5 (amended): for a living enemy with [stunTimer > 0], one
    [update(dt)] with [dt > 0] leaves [x], [y] and [waypoint] unchanged
    whatever the distance to the next waypoint.  The bleed runs first and
    on every such tick, the killing one included: when [bleedTimer > 0],
    [bleedDps * dt] is subtracted from [hp] and [bleedTimer] drops by [dt];
    otherwise [hp] and [bleedTimer] stay.  When the bleed damage of the tick
    does not bring [hp] to 0 or below, the enemy stays alive, [stunTimer]
    drops by [dt] and [slowTimer] drops by [dt] when it is positive.  When
    it does, the enemy dies and [stunTimer] and [slowTimer] are left as they
    were. *)
Theorem stunned_update_freezes_position :
  forall (g : Globals) (dt : R) (e : Enemy),
    alive e = true -> 0 < stunTimer e -> 0 < dt ->
    let e' := fst (update g dt e) in
    (x e' = x e /\ y e' = y e /\ waypoint e' = waypoint e) /\
    (0 < bleedTimer e ->
     hp e' = hp e - bleedDps e * dt /\
     bleedTimer e' = bleedTimer e - dt /\ bleedTimer e' < bleedTimer e) /\
    (bleedTimer e <= 0 -> hp e' = hp e /\ bleedTimer e' = bleedTimer e) /\
    (bleedTimer e <= 0 \/ 0 < hp e - bleedDps e * dt ->
     alive e' = true /\
     stunTimer e' = stunTimer e - dt /\ stunTimer e' < stunTimer e /\
     (0 < slowTimer e ->
        slowTimer e' = slowTimer e - dt /\ slowTimer e' < slowTimer e)) /\
    (0 < bleedTimer e -> hp e - bleedDps e * dt <= 0 ->
     alive e' = false /\
     stunTimer e' = stunTimer e /\ slowTimer e' = slowTimer e).
Proof.
  intros g dt e Halive Hstun Hdt e'. subst e'.
  unfold update, bleed_tick, slow_decay, die.
  rewrite Halive. cbn [negb].
  split; [|split; [|split; [|split]]].
  - rcmp; rewrite ?Halive; fields; auto.
  - intros Hbleed.
    rcmp; rewrite ?Halive; fields; repeat split; try reflexivity; lra.
  - intros Hdry.
    rcmp; rewrite ?Halive; fields; repeat split; try reflexivity; lra.
  - intros Hsurvive.
    rcmp; rewrite ?Halive; fields;
      repeat split; intros; try reflexivity; try assumption; try lra.
  - intros Hbleed Hkill.
    rcmp; rewrite ?Halive; fields; repeat split; try reflexivity; lra.
Qed.

Lemma stunned_update_freezes_position_witness :
  alive stunned_bleeding_enemy = true /\
  0 < stunTimer stunned_bleeding_enemy /\
  x (fst (update sample_globals (1 / 2) stunned_bleeding_enemy)) = 0 /\
  stunTimer (fst (update sample_globals (1 / 2) stunned_bleeding_enemy)) = 1 / 2 /\
  hp (fst (update sample_globals (1 / 2) stunned_bleeding_enemy)) = 28.
Proof.
  assert (Ha : alive stunned_bleeding_enemy = true) by reflexivity.
  assert (Hs : 0 < stunTimer stunned_bleeding_enemy)
    by (unfold stunned_bleeding_enemy; fields; lra).
  assert (Hd : 0 < 1 / 2) by lra.
  destruct (stunned_update_freezes_position sample_globals (1 / 2)
              stunned_bleeding_enemy Ha Hs Hd)
    as ((Hx & _ & _) & Hbleed & _ & Hrest & _).
  destruct Hbleed as (Hhp & _).
  { unfold stunned_bleeding_enemy; fields; lra. }
  destruct Hrest as (_ & Hst & _).
  { right; unfold stunned_bleeding_enemy; fields; lra. }
  split; [exact Ha|]. split; [exact Hs|].
  split; [rewrite Hx; reflexivity|].
  split.
  - rewrite Hst; unfold stunned_bleeding_enemy; fields; lra.
  - rewrite Hhp; unfold stunned_bleeding_enemy; fields; lra.
Defined.

(** ** Reaching the movement step *)

Lemma pre_move_frame (dt : R) (e : Enemy) :
  path (pre_move dt e) = path e /\ waypoint (pre_move dt e) = waypoint e /\
  x (pre_move dt e) = x e /\ y (pre_move dt e) = y e /\
  alive (pre_move dt e) = alive e /\ stunTimer (pre_move dt e) = stunTimer e /\
  baseSpeed (pre_move dt e) = baseSpeed e.
Proof.
  unfold pre_move, slow_decay, bleed_tick. rcmp; repeat split; reflexivity.
Qed.

(** A living enemy that the bleed of this tick does not kill and that is not
    stunned runs the movement step. *)
Lemma update_reaches_move (g : Globals) (dt : R) (e : Enemy) :
  alive e = true ->
  (bleedTimer e <= 0 \/ 0 < hp e - bleedDps e * dt) ->
  stunTimer e <= 0 ->
  update g dt e = move g dt (pre_move dt e).
Proof.
  intros Ha Hb Hs. unfold update. rewrite Ha; cbn [negb].
  assert (Hk : (Rgtb (bleedTimer e) 0 &&
                Rleb (hp (if Rgtb (bleedTimer e) 0 then bleed_tick dt e else e)) 0)%bool
               = false).
  { unfold bleed_tick. rcmp; reflexivity. }
  rewrite Hk. fold (pre_move dt e).
  destruct (pre_move_frame dt e) as (_ & _ & _ & _ & _ & Hst & _).
  rewrite Hst.
  assert (Hn : Rgtb (stunTimer e) 0 = false) by (apply Rgtb_false; lra).
  now rewrite Hn.
Qed.

Lemma pre_move_idle (dt : R) (e : Enemy) :
  bleedTimer e <= 0 -> slowTimer e <= 0 -> pre_move dt e = e.
Proof.
  intros Hb Hs. unfold pre_move, slow_decay.
  assert (H1 : Rgtb (bleedTimer e) 0 = false) by (apply Rgtb_false; lra).
  assert (H2 : Rgtb (slowTimer e) 0 = false) by (apply Rgtb_false; lra).
  now rewrite H1, H2.
Qed.

(** ** Pause *)

Lemma validatePosition_waypoint (e : Enemy) :
  waypoint (validatePosition e) = waypoint e /\
  alive (validatePosition e) = alive e.
Proof.
  unfold validatePosition.
  destruct (currentWaypoint e), (nextTarget e); auto.
  destruct (Rgtb _ 0); auto.
  destruct (Rgtb _ 5); auto.
Qed.

(** C1 (the code at a paused tick): with [gameSpeed = 0], one [update(1/2)]
    of a living enemy still lowers [bleedTimer], [slowTimer] and [stunTimer]
    by [dt] and still applies the bleed damage; an unstunned enemy within two
    pixels of its next waypoint is still snapped onto it and its waypoint
    index advanced; and an area pool's lifetime still runs down. *)
Theorem paused_update_still_decays :
  let e' := fst (update paused_globals (1 / 2) stunned_bleeding_enemy) in
  let m' := fst (update paused_globals (1 / 2) near_waypoint_enemy) in
  let p' := fst (fst (pool_update paused_globals (1 / 2)
                        (new_AcidPool 0 0 40 3 5 (6 / 10)) [])) in
  gameSpeed paused_globals = 0 /\
  bleedTimer e' = 3 / 2 /\ slowTimer e' = 1 / 2 /\ stunTimer e' = 1 / 2 /\
  hp e' = 28 /\
  waypoint near_waypoint_enemy = 0%nat /\ waypoint m' = 1%nat /\
  pool_timer p' = 5 / 2.
Proof.
  cbn zeta.
  split; [reflexivity|].
  assert (He : update paused_globals (1 / 2) stunned_bleeding_enemy =
               (set_stunTimer (1 - 1 / 2)
                  (set_slowTimer (1 - 1 / 2)
                     (set_bleedTimer (2 - 1 / 2)
                        (set_hp (30 - 4 * (1 / 2)) stunned_bleeding_enemy))),
                paused_globals)).
  { unfold update, bleed_tick, slow_decay, stunned_bleeding_enemy.
    rcmp; reflexivity. }
  rewrite He; fields.
  repeat (split; [lra|]).
  split; [reflexivity|].
  split.
  - rewrite update_reaches_move, pre_move_idle;
      try (unfold near_waypoint_enemy; fields; first [reflexivity | lra]).
    assert (Hh : hypot (10 - 9) (0 - 0) = 1).
    { replace (10 - 9) with 1 by lra. replace (0 - 0) with 0 by lra.
      apply hypot_axis_x; lra. }
    unfold move, near_waypoint_enemy, nextTarget, paused_globals.
    cbn [path waypoint nth_error sample_path]. fields. rewrite Hh.
    unfold reachEnd. rcmp.
    unfold sample_path; cbn [length Nat.sub Nat.leb fst].
    now rewrite (proj1 (validatePosition_waypoint _)).
  - unfold pool_update, new_AcidPool; cbn [pool_alive negb pool_timer].
    unfold Rleb. destruct (Rle_dec (3 - 1 / 2) 0); [exfalso; lra|].
    cbn; lra.
Qed.

(** ** Knockback at the start of the path *)

Lemma hypot_zero : hypot 0 0 = 0.
Proof. apply hypot_axis_x; lra. Qed.

(** C2 (as stated, refuted): an enemy at waypoint 0, five pixels along the
    first segment, is not pushed back by [min(1, 0.9 * 5) = 1] when
    [knockback(1)] is called; it stays where it is. *)
Lemma knockback_at_start_is_not_min_push :
  ~ (forall (e e' : Enemy) (p0 p1 : Point) (d : R),
        waypoint e = 0%nat -> on_first_segment e p0 p1 ->
        0 < hypot (x e - px p0) (y e - py p0) -> 0 < d ->
        knockback d e = Some e' ->
        pushed_back e e' p0 p1
          (Rmin d (9 / 10 * hypot (x e - px p0) (y e - py p0)))).
Proof.
  intros H.
  assert (H5 : hypot (5 - 0) (0 - 0) = 5).
  { replace (5 - 0) with 5 by lra. replace (0 - 0) with 0 by lra.
    apply hypot_axis_x; lra. }
  assert (H10 : hypot (10 - 0) (0 - 0) = 10).
  { replace (10 - 0) with 10 by lra. replace (0 - 0) with 0 by lra.
    apply hypot_axis_x; lra. }
  specialize (H halfway_enemy halfway_enemy (mkPoint 0 0) (mkPoint 10 0) 1).
  destruct H as [Hx _].
  - reflexivity.
  - split; [reflexivity|]. split; [reflexivity|].
    exists (1 / 2). unfold halfway_enemy; fields. repeat split; lra.
  - unfold halfway_enemy; fields. rewrite H5; lra.
  - lra.
  - reflexivity.
  - revert Hx. unfold normalize, halfway_enemy; fields.
    rewrite H5, H10.
    destruct (Req_dec_T 10 0) as [E|_]; [exfalso; lra|].
    fields. unfold Rmin.
    destruct (Rle_dec 1 (9 / 10 * 5)); [|exfalso; lra].
    lra.
Qed.

(** C2 (amended): for every enemy whose waypoint index is 0, [knockback(d)]
    returns at its first-line guard and leaves the enemy exactly as it was,
    whatever [d]; the push is therefore 0, which never exceeds 90% of the
    distance already travelled on the first segment. *)
Theorem knockback_at_start_is_identity :
  forall (e : Enemy) (d : R),
    waypoint e = 0%nat ->
    knockback d e = Some e /\
    forall (e' : Enemy) (p0 : Point),
      knockback d e = Some e' -> nth_error (path e) 0 = Some p0 ->
      hypot (x e - x e') (y e - y e') = 0 /\
      hypot (x e - x e') (y e - y e')
        <= 9 / 10 * hypot (x e - px p0) (y e - py p0).
Proof.
  intros e d Hw.
  assert (Hk : knockback d e = Some e) by (unfold knockback; now rewrite Hw).
  split; [exact Hk|].
  intros e' p0 He' _. rewrite Hk in He'. injection He' as <-.
  replace (x e - x e) with 0 by lra. replace (y e - y e) with 0 by lra.
  rewrite hypot_zero. split; [reflexivity|].
  pose proof (hypot_nonneg (x e - px p0) (y e - py p0)); lra.
Qed.

Lemma knockback_at_start_is_identity_witness :
  waypoint halfway_enemy = 0%nat /\
  knockback 30 halfway_enemy = Some halfway_enemy.
Proof.
  split; [reflexivity|].
  apply (knockback_at_start_is_identity halfway_enemy 30); reflexivity.
Defined.

(** ** Escaping at the end of the path *)

Lemma update_dead (g : Globals) (dt : R) (e : Enemy) :
  alive e = false -> update g dt e = (e, g).
Proof. intros H; unfold update; now rewrite H. Qed.

(** C7: when the movement step of [update] on a living enemy snaps it onto
    its next waypoint and that waypoint is the last point of the path, the
    lives counter drops by exactly 1, the enemy's [alive] flag becomes false
    (money is untouched), and every later [update] returns the enemy and the
    globals unchanged. *)
Theorem escape_costs_one_life_and_is_terminal :
  forall (g : Globals) (dt : R) (e : Enemy) (target : Point),
    alive e = true ->
    (bleedTimer e <= 0 \/ 0 < hp e - bleedDps e * dt) ->
    stunTimer e <= 0 ->
    nextTarget e = Some target ->
    hypot (px target - x e) (py target - y e)
      <= baseSpeed e * slowFactor (pre_move dt e) * gameSpeed g * dt + 2 ->
    (length (path e) - 1 <= S (waypoint e))%nat ->
    let e' := fst (update g dt e) in
    let g' := snd (update g dt e) in
    waypoint e' = S (waypoint e) /\
    lives g' = (lives g - 1)%Z /\ money g' = money g /\
    alive e' = false /\
    forall (g2 : Globals) (dt2 : R), update g2 dt2 e' = (e', g2).
Proof.
  intros g dt e target Ha Hb Hs Ht Hd Hlast e' g'. subst e' g'.
  rewrite (update_reaches_move g dt e Ha Hb Hs).
  destruct (pre_move_frame dt e) as (Hp & Hw & Hx & Hy & Hal & _ & Hsp).
  unfold move, nextTarget. rewrite Hp, Hw.
  unfold nextTarget in Ht. rewrite Ht. rewrite Hx, Hy, Hsp.
  apply Rleb_true in Hd. rewrite Hd.
  fields. rewrite Hp.
  apply Nat.leb_le in Hlast. rewrite Hlast.
  unfold reachEnd; fields. rewrite Hal, Ha; fields.
  repeat (split; [reflexivity|]).
  intros g2 dt2. now apply update_dead.
Qed.

Lemma escape_costs_one_life_and_is_terminal_witness :
  alive arriving_enemy = true /\
  nextTarget arriving_enemy = Some (mkPoint 10 0) /\
  lives (snd (update sample_globals (1 / 60) arriving_enemy)) = 9%Z /\
  alive (fst (update sample_globals (1 / 60) arriving_enemy)) = false.
Proof.
  assert (Ha : alive arriving_enemy = true) by reflexivity.
  assert (Ht : nextTarget arriving_enemy = Some (mkPoint 10 0)) by reflexivity.
  assert (Hb : bleedTimer arriving_enemy <= 0 \/
               0 < hp arriving_enemy - bleedDps arriving_enemy * (1 / 60)).
  { left; unfold arriving_enemy; fields; lra. }
  assert (Hs : stunTimer arriving_enemy <= 0)
    by (unfold arriving_enemy; fields; lra).
  assert (Hd : hypot (px (mkPoint 10 0) - x arriving_enemy)
                     (py (mkPoint 10 0) - y arriving_enemy)
               <= baseSpeed arriving_enemy
                  * slowFactor (pre_move (1 / 60) arriving_enemy)
                  * gameSpeed sample_globals * (1 / 60) + 2).
  { rewrite pre_move_idle by (unfold arriving_enemy; fields; lra).
    unfold arriving_enemy, sample_globals; fields.
    replace (10 - 9) with 1 by lra. replace (0 - 0) with 0 by lra.
    rewrite hypot_axis_x; lra. }
  assert (Hl : (length (path arriving_enemy) - 1 <= S (waypoint arriving_enemy))%nat)
    by (unfold arriving_enemy, short_path; fields; cbn; lia).
  destruct (escape_costs_one_life_and_is_terminal sample_globals (1 / 60)
              arriving_enemy (mkPoint 10 0) Ha Hb Hs Ht Hd Hl)
    as (_ & Hlives & _ & Hdead & _).
  repeat split; try assumption.
Defined.

(** ** Death and the reward *)

Lemma die_pays (g : Globals) (e : Enemy) : pays_at_most_once g e (die g e).
Proof.
  unfold pays_at_most_once, die, reward.
  destruct (alive e) eqn:Ha; fields; repeat split; auto; discriminate.
Qed.

Lemma pays_frame (g : Globals) (e e1 : Enemy) (r : Enemy * Globals) :
  alive e1 = alive e -> pays_at_most_once g e1 r -> pays_at_most_once g e r.
Proof. unfold pays_at_most_once; intros ->; auto. Qed.

Lemma pays_nothing (g : Globals) (e e' : Enemy) :
  alive e' = alive e -> pays_at_most_once g e (e', g).
Proof. unfold pays_at_most_once; fields; intros ->; auto. Qed.

Lemma reachEnd_pays (g : Globals) (e : Enemy) :
  pays_at_most_once g e (reachEnd g e).
Proof.
  unfold pays_at_most_once, reachEnd.
  destruct (alive e) eqn:Ha; fields; repeat split; auto; discriminate.
Qed.

Lemma move_pays (g : Globals) (dt : R) (e : Enemy) :
  pays_at_most_once g e (move g dt e).
Proof.
  unfold move.
  destruct (nextTarget e) as [target|].
  - destruct (Rleb _ _).
    + destruct (_ <=? _)%nat.
      * eapply pays_frame; [|apply reachEnd_pays]. reflexivity.
      * apply pays_nothing.
        rewrite (proj2 (validatePosition_waypoint _)).
        destruct (Rgtb _ 0); [|reflexivity].
        destruct (nextTarget _); [|reflexivity].
        destruct (Rgtb _ 0); reflexivity.
    + apply pays_nothing.
      now rewrite (proj2 (validatePosition_waypoint _)).
  - destruct (_ <=? _)%nat; [apply reachEnd_pays | now apply pays_nothing].
Qed.

Lemma bleed_tick_alive (dt : R) (e : Enemy) :
  alive (bleed_tick dt e) = alive e.
Proof. unfold bleed_tick; destruct (Rleb _ 0); reflexivity. Qed.

Lemma slow_decay_alive (dt : R) (e : Enemy) :
  alive (slow_decay dt e) = alive e.
Proof.
  unfold slow_decay; destruct (Rgtb _ 0); [|reflexivity].
  destruct (Rleb _ 0); reflexivity.
Qed.

Lemma update_pays (g : Globals) (dt : R) (e : Enemy) :
  pays_at_most_once g e (update g dt e).
Proof.
  unfold update.
  destruct (alive e) eqn:Ha; cbn [negb]; [|now apply pays_nothing].
  remember (if Rgtb (bleedTimer e) 0 then bleed_tick dt e else e) as e1 eqn:He1.
  assert (H1 : alive e1 = alive e).
  { subst e1. destruct (Rgtb (bleedTimer e) 0); [apply bleed_tick_alive|reflexivity]. }
  assert (H2 : alive (slow_decay dt e1) = alive e).
  { now rewrite slow_decay_alive. }
  destruct (Rgtb (bleedTimer e) 0 && Rleb (hp e1) 0).
  - eapply pays_frame; [exact H1 | apply die_pays].
  - destruct (Rgtb (stunTimer (slow_decay dt e1)) 0).
    + apply pays_nothing. fields. exact H2.
    + eapply pays_frame; [exact H2 | apply move_pays].
Qed.

Lemma run_damage_pays (g : Globals) (op : DamageOp) (e : Enemy) :
  pays_at_most_once g e (run_damage g op e).
Proof.
  destruct op; cbn [run_damage].
  - unfold takeDamage. destruct (Rleb _ 0).
    + eapply pays_frame; [|apply die_pays]. reflexivity.
    + now apply pays_nothing.
  - apply update_pays.
  - unfold pool_touch. destruct (alive e) eqn:Ha; cbn [negb];
      [|now apply pays_nothing].
    destruct (Rleb _ (pool_radius p)); [|now apply pays_nothing].
    destruct (Rleb _ 0).
    + eapply pays_frame; [|apply die_pays]. reflexivity.
    + now apply pays_nothing.
  - unfold aura_touch. destruct (alive e) eqn:Ha; cbn [negb];
      [|now apply pays_nothing].
    destruct (Rleb _ range); [|now apply pays_nothing].
    destruct (Rleb _ 0).
    + eapply pays_frame; [|apply die_pays]. reflexivity.
    + now apply pays_nothing.
  - apply die_pays.
Qed.

(** C10: [die()] on an enemy with [alive = false] changes neither the enemy
    nor the globals, and over any sequence of [takeDamage], [update] (bleed
    tick), area-pool, aura and [die] calls on one enemy the money counter ends
    either where it started or exactly one death reward higher; an enemy
    that is already dead earns nothing more. *)
Theorem death_reward_paid_at_most_once :
  (forall (g : Globals) (e : Enemy), alive e = false -> die g e = (e, g)) /\
  (forall (ops : list DamageOp) (g : Globals) (e : Enemy),
      let g' := snd (run_damages g ops e) in
      (money g' = money g \/ money g' = (money g + reward g)%Z) /\
      (alive e = false -> money g' = money g)).
Proof.
  split.
  - intros g e Ha. unfold die. now rewrite Ha.
  - intros ops. induction ops as [|op rest IH]; intros g e; cbn zeta.
    + cbn; auto.
    + cbn [run_damages].
      pose proof (run_damage_pays g op e) as Hp.
      destruct (run_damage g op e) as [e1 g1].
      destruct Hp as (Hpay & Hmult & Hdead). fields.
      specialize (IH g1 e1). cbn zeta in IH. destruct IH as [IHm IHd].
      assert (Hr : reward g1 = reward g) by (unfold reward; now rewrite Hmult).
      split.
      * destruct Hpay as [Hsame | (_ & Hd1 & Hpaid)].
        -- rewrite Hr, Hsame in IHm. exact IHm.
        -- right. rewrite (IHd Hd1). exact Hpaid.
      * intros Ha. destruct (Hdead Ha) as [Hd1 Hm1].
        rewrite (IHd Hd1). exact Hm1.
Qed.

Lemma death_reward_paid_at_most_once_witness :
  alive dead_enemy = false /\
  die sample_globals dead_enemy = (dead_enemy, sample_globals) /\
  money (snd (run_damages sample_globals [DmgTake 5; DmgDie; DmgUpdate 1]
                dead_enemy)) = money sample_globals.
Proof.
  assert (Ha : alive dead_enemy = false) by reflexivity.
  split; [exact Ha|]. split.
  - apply (proj1 death_reward_paid_at_most_once); exact Ha.
  - apply (proj2 death_reward_paid_at_most_once
             [DmgTake 5; DmgDie; DmgUpdate 1] sample_globals dead_enemy);
      exact Ha.
Defined.

(** ** Nearest-enemy search *)

Section Nearest.

Variables qx qy range : R.

Local Abbreviation dist := (dist_to qx qy).
Local Abbreviation cand := (candidate qx qy range).
Local Abbreviation coupled_acc := (coupled qx qy).
Local Abbreviation first_near := (first_nearest qx qy range).

Lemma findNearest_loop_spec (es : list Enemy) :
  forall (best : option Enemy) (bestD : ExtR),
    coupled_acc best bestD ->
    match findNearest_loop qx qy range es best bestD with
    | None => best = None /\ forall e, In e es -> ~ cand e
    | Some r =>
        (best = Some r /\
         forall e, In e es -> cand e -> dist r <= dist e) \/
        (first_near es r /\
         forall b, best = Some b -> dist r < dist b)
    end.
Proof.
  induction es as [|e rest IH]; intros best bestD Hc; cbn [findNearest_loop].
  - destruct best as [b|]; [left; split; [reflexivity|intros ? []]|].
    split; [reflexivity|intros ? []].
  - destruct (alive e) eqn:Ha; cbn [negb].
    + fold (dist e).
      destruct (Rleb (dist e) range) eqn:Hr; cbn [andb].
      * apply Rleb_true in Hr.
        destruct (lt_ext (dist e) bestD) eqn:Hlt.
        -- (* e becomes the best so far *)
           specialize (IH (Some e) (Fin (dist e)) eq_refl).
           destruct (findNearest_loop qx qy range rest (Some e) (Fin (dist e)))
             as [r|]; [|destruct IH; discriminate].
           right.
           assert (Hold : forall b, best = Some b -> dist e < dist b).
           { intros b ->. destruct bestD as [d|]; [|contradiction].
             cbn in Hc, Hlt. subst d. now apply Rltb_true in Hlt. }
           destruct IH as [[Hbest Hmin] | [(l1 & l2 & -> & Hcand & H1 & H2) Hb]].
           ++ injection Hbest as <-. split.
              ** exists [], rest. repeat split; auto. intros ? [].
              ** exact Hold.
           ++ specialize (Hb e eq_refl). split.
              ** exists (e :: l1), l2. repeat split; try apply Hcand; auto.
                 intros e0 [<- | Hin] Hce; auto.
              ** intros b Hbb. specialize (Hold b Hbb). lra.
        -- (* e is in range but not closer than the best so far *)
           destruct best as [b|]; destruct bestD as [d|]; try contradiction;
             [|discriminate].
           cbn in Hc, Hlt. subst d. apply Rltb_false in Hlt.
           specialize (IH (Some b) (Fin (dist b)) eq_refl).
           destruct (findNearest_loop qx qy range rest (Some b) (Fin (dist b)))
             as [r|]; [|destruct IH; discriminate].
           destruct IH as [[Hbest Hmin] | [(l1 & l2 & -> & Hcand & H1 & H2) Hb]].
           ++ injection Hbest as <-. left. split; [reflexivity|].
              intros e0 [<- | Hin] Hce; auto.
           ++ specialize (Hb b eq_refl). right. split.
              ** exists (e :: l1), l2. repeat split; try apply Hcand; auto.
                 intros e0 [<- | Hin] Hce; [lra | auto].
              ** intros b0 [= <-]. exact Hb.
      * (* e is out of range *)
        apply Rleb_false in Hr.
        specialize (IH best bestD Hc).
        destruct (findNearest_loop qx qy range rest best bestD) as [r|].
        -- destruct IH as [[Hbest Hmin] | [(l1 & l2 & -> & Hcand & H1 & H2) Hb]].
           ++ left. split; [exact Hbest|].
              intros e0 [<- | Hin] Hce; [destruct Hce; lra | now apply Hmin].
           ++ right. split; [|exact Hb].
              exists (e :: l1), l2. repeat split; try apply Hcand; auto.
              intros e0 [<- | Hin] Hce; [destruct Hce; lra | auto].
        -- destruct IH as [Hbest Hnone]. split; [exact Hbest|].
           intros e0 [<- | Hin]; [intros [_ Hce]; lra | now apply Hnone].
    + (* e is dead *)
      specialize (IH best bestD Hc).
      destruct (findNearest_loop qx qy range rest best bestD) as [r|].
      * destruct IH as [[Hbest Hmin] | [(l1 & l2 & -> & Hcand & H1 & H2) Hb]].
        -- left. split; [exact Hbest|].
           intros e0 [<- | Hin] Hce; [destruct Hce; congruence | now apply Hmin].
        -- right. split; [|exact Hb].
           exists (e :: l1), l2. repeat split; try apply Hcand; auto.
           intros e0 [<- | Hin] Hce; [destruct Hce; congruence | auto].
      * destruct IH as [Hbest Hnone]. split; [exact Hbest|].
        intros e0 [<- | Hin]; [intros [Hal _]; congruence | now apply Hnone].
Qed.

(** C9: [findNearestEnemy] returns a living enemy within range whose
    distance to the query point is least among all living enemies within
    range, and every living in-range enemy that comes before it in the
    array is strictly farther (ties go to the first found); it returns
    [null] exactly when no living enemy is within range. *)
Theorem findNearestEnemy_first_nearest (enemies : list Enemy) :
  (forall r : Enemy,
      findNearestEnemy qx qy range enemies = Some r ->
      In r enemies /\ alive r = true /\ dist r <= range /\
      (forall e, In e enemies -> cand e -> dist r <= dist e) /\
      exists l1 l2 : list Enemy,
        enemies = l1 ++ r :: l2 /\
        forall e, In e l1 -> cand e -> dist r < dist e) /\
  (findNearestEnemy qx qy range enemies = None <->
   forall e, In e enemies -> ~ cand e).
Proof.
  unfold findNearestEnemy.
  pose proof (findNearest_loop_spec enemies None PosInf I) as Hspec.
  destruct (findNearest_loop qx qy range enemies None PosInf) as [r0|].
  - destruct Hspec as [[Hbest _] | [(l1 & l2 & Hes & Hcand & H1 & H2) _]];
      [discriminate|].
    split.
    + intros r [= <-]. destruct Hcand as [Hal Hrange].
      split; [rewrite Hes; apply in_or_app; right; now left|].
      split; [exact Hal|]. split; [exact Hrange|]. split.
      * intros e Hin Hce. rewrite Hes in Hin.
        apply in_app_or in Hin. destruct Hin as [Hin | [<- | Hin]].
        -- specialize (H1 e Hin Hce); lra.
        -- lra.
        -- now apply H2.
      * exists l1, l2. split; [exact Hes | exact H1].
    + split; [discriminate|].
      intros Hnone. exfalso. apply (Hnone r0); [|exact Hcand].
      rewrite Hes; apply in_or_app; right; now left.
  - destruct Hspec as [_ Hnone]. split; [discriminate|].
    split; auto.
Qed.

End Nearest.

Lemma findNearestEnemy_first_nearest_witness :
  findNearestEnemy 0 0 100 [dead_enemy; lane_enemy 12 30; lane_enemy 11 20]
    = Some (lane_enemy 11 20) /\
  dist_to 0 0 (lane_enemy 11 20) <= 100 /\
  ((forall e, In e [dead_enemy] -> ~ candidate 0 0 100 e) /\
   findNearestEnemy 0 0 100 [dead_enemy] = None).
Proof.
  assert (H30 : hypot (30 - 0) (0 - 0) = 30).
  { replace (30 - 0) with 30 by lra. replace (0 - 0) with 0 by lra.
    apply hypot_axis_x; lra. }
  assert (H20 : hypot (20 - 0) (0 - 0) = 20).
  { replace (20 - 0) with 20 by lra. replace (0 - 0) with 0 by lra.
    apply hypot_axis_x; lra. }
  assert (Hfound : findNearestEnemy 0 0 100
                     [dead_enemy; lane_enemy 12 30; lane_enemy 11 20]
                   = Some (lane_enemy 11 20)).
  { unfold findNearestEnemy, dead_enemy, lane_enemy.
    cbn [findNearest_loop alive negb x y]. rewrite H30.
    unfold lt_ext at 1. unfold Rleb at 1.
    destruct (Rle_dec 30 100); [|exfalso; lra]. cbn [andb].
    rewrite H20. unfold lt_ext, Rleb, Rltb.
    destruct (Rle_dec 20 100); [|exfalso; lra].
    destruct (Rlt_dec 20 30); [|exfalso; lra]. reflexivity. }
  split; [exact Hfound|].
  split.
  - apply (proj1 (findNearestEnemy_first_nearest 0 0 100 _) _ Hfound).
  - assert (H : forall e, In e [dead_enemy] -> ~ candidate 0 0 100 e).
    { intros e [<- | []] [Ha _]. discriminate. }
    split; [exact H|].
    apply (proj2 (proj2 (findNearestEnemy_first_nearest 0 0 100 [dead_enemy]))).
    exact H.
Defined.

(** ** Wave size *)


Lemma run_ticks_off (rolls : list (R * R)) (st : WaveState) :
  timerOn st = false -> run_ticks rolls st = st.
Proof.
  induction rolls as [|[r1 r2] rest IH]; intros Hoff; [reflexivity|].
  cbn [run_ticks]. unfold spawn_tick at 1. rewrite Hoff. cbn [negb].
  now apply IH.
Qed.


Lemma wave_count_formula (w : Z) (m : R) :
  0 < m ->
  wave_count w m
  = Z.max 1 (js_round (IZR (6 + js_floor (12 / 10 * IZR w)) * m)).
Proof.
  intros Hm. unfold wave_count.
  destruct (Req_dec_T m 0) as [E|_]; [exfalso; lra|].
  now rewrite (Rmult_comm (IZR w)).
Qed.





(** ** Pierce bolt *)

Lemma takeDamage_hp (g : Globals) (d : R) (e : Enemy) :
  hp (fst (takeDamage g d e)) = hp e - d.
Proof.
  unfold takeDamage, die. destruct (Rleb _ 0); [|reflexivity].
  fields. destruct (alive e); reflexivity.
Qed.

Lemma spike_loop_skip (l : list Enemy) :
  forall (g : Globals) (s : SpikeProjectile) (rest : list Enemy),
    Forall (untouched s) l ->
    spike_loop g s (l ++ rest)
    = (l ++ fst (fst (spike_loop g s rest)),
       snd (fst (spike_loop g s rest)), snd (spike_loop g s rest)).
Proof.
  induction l as [|e l IH]; intros g s rest Hl.
  - cbn [app]. now destruct (spike_loop g s rest) as [[? ?] ?].
  - inversion Hl as [|? ? He Hl']; subst.
    cbn [app spike_loop]. rewrite (IH g s rest Hl').
    destruct He as [Hdead | Hmiss].
    + now rewrite Hdead.
    + rewrite Hmiss. now destruct (alive e).
Qed.

Lemma spike_loop_hit (g : Globals) (s : SpikeProjectile) (e : Enemy)
  (rest : list Enemy) :
  alive e = true -> spike_contact s e = true ->
  spike_loop g s (e :: rest)
  = if (spike_pierce s - 1 <=? 0)%Z then
      (fst (takeDamage g (spike_damage s) e) :: rest,
       spike_set_alive false (spike_set_pierce (spike_pierce s - 1) s),
       snd (takeDamage g (spike_damage s) e))
    else
      let r := spike_loop (snd (takeDamage g (spike_damage s) e))
                 (spike_set_pierce (spike_pierce s - 1) s) rest in
      (fst (takeDamage g (spike_damage s) e) :: fst (fst r), snd (fst r), snd r).
Proof.
  intros Ha Hc. cbn [spike_loop]. rewrite Ha, Hc. cbn [negb].
  destruct (takeDamage g (spike_damage s) e) as [e1 g1].
  cbn [spike_pierce spike_set_pierce fst snd].
  destruct (spike_pierce s - 1 <=? 0)%Z; [reflexivity|].
  now destruct (spike_loop g1 _ rest) as [[? ?] ?].
Qed.

(** Within one tick, a bolt with two pierces left that overlaps living
    enemies [e1], [e2] (and possibly more, later in the array) damages [e1]
    and [e2] once each, leaves everything after [e2] unvisited and goes
    inactive on the second hit. *)
Lemma spike_loop_two_hits (g : Globals) (s : SpikeProjectile)
  (l0 l1 l2 : list Enemy) (e1 e2 : Enemy) :
  spike_pierce s = 2%Z ->
  Forall (untouched s) l0 -> Forall (untouched s) l1 ->
  alive e1 = true -> spike_contact s e1 = true ->
  alive e2 = true -> spike_contact s e2 = true ->
  let r1 := takeDamage g (spike_damage s) e1 in
  let r2 := takeDamage (snd r1) (spike_damage s) e2 in
  spike_loop g s (l0 ++ e1 :: l1 ++ e2 :: l2)
  = (l0 ++ fst r1 :: l1 ++ fst r2 :: l2,
     spike_set_alive false (spike_set_pierce 0 s), snd r2) /\
  hp (fst r1) = hp e1 - spike_damage s /\
  hp (fst r2) = hp e2 - spike_damage s.
Proof.
  intros Hp H0 H1 Ha1 Hc1 Ha2 Hc2 r1 r2.
  split; [|split; apply takeDamage_hp].
  rewrite (spike_loop_skip l0 g s _ H0).
  rewrite (spike_loop_hit g s e1 _ Ha1 Hc1). rewrite Hp.
  cbn [Z.sub Z.add Z.opp Z.pos_sub Z.leb Z.compare Pos.pred_double].
  cbn zeta. fold r1.
  set (s1 := spike_set_pierce 1 s).
  assert (H1' : Forall (untouched s1) l1) by exact H1.
  rewrite (spike_loop_skip l1 (snd r1) s1 _ H1').
  rewrite (spike_loop_hit (snd r1) s1 e2 l2 Ha2 Hc2).
  cbn [spike_pierce s1 spike_set_pierce].
  cbn [Z.sub Z.add Z.opp Z.pos_sub Z.leb Z.compare fst snd].
  reflexivity.
Qed.

Lemma hypot_flat (a b : R) : b = 0 -> hypot a b = Rabs a.
Proof.
  intros ->. unfold hypot.
  replace (a * a + 0 * 0) with (Rsqr a) by (unfold Rsqr; ring).
  apply sqrt_Rsqr_abs.
Qed.

Lemma spike_contact_flat (s : SpikeProjectile) (e : Enemy) :
  y e - spike_y s = 0 ->
  spike_contact s e = Rltb (Rabs (x e - spike_x s)) (radius e + 4).
Proof. intros H. unfold spike_contact. now rewrite (hypot_flat _ _ H). Qed.

Ltac spike_fields :=
  unfold spike_set_pos, spike_set_pierce, spike_set_alive in *;
  cbn [spike_x spike_y spike_angle spike_speed spike_damage spike_pierce
       spike_alive] in *.

Lemma two_pierce_bolt_tick1 :
  spike_advance sample_globals (1 / 60) two_pierce_bolt
  = mkSpike (26 / 3) 0 0 520 18 2 true.
Proof.
  unfold spike_advance, two_pierce_bolt, new_SpikeProjectile, sample_globals.
  spike_fields; fields. rewrite cos_0, sin_0. f_equal; lra.
Qed.

Lemma two_pierce_bolt_tick2 :
  spike_advance sample_globals (1 / 60) (mkSpike (26 / 3) 0 0 520 18 1 true)
  = mkSpike (52 / 3) 0 0 520 18 1 true.
Proof.
  unfold spike_advance, sample_globals.
  spike_fields; fields. rewrite cos_0, sin_0. f_equal; lra.
Qed.

Ltac contact_eval :=
  rewrite spike_contact_flat by (unfold lane_enemy; spike_fields; fields; lra);
  unfold lane_enemy; spike_fields; fields;
  unfold Rltb, Rabs;
  repeat match goal with
         | |- context [Rcase_abs ?a] => destruct (Rcase_abs a)
         | |- context [Rlt_dec ?a ?b] => destruct (Rlt_dec a b)
         end;
  first [reflexivity | exfalso; lra].

(** C4 (the code on two consecutive frames): a bolt with [pierce = 2] flies
    along a lane holding three living enemies.  On the first frame it
    overlaps only the first enemy and damages it; on the second frame it
    overlaps all three, damages the first enemy a second time and goes
    inactive.  The first enemy has received two damage applications, the
    second and the third none. *)
Theorem pierce_bolt_spends_both_hits_on_one_enemy :
  let dt := 1 / 60 in
  let r1 := spike_update sample_globals dt two_pierce_bolt lane_enemies in
  let r2 := spike_update (snd r1) dt (fst (fst r1)) (snd (fst r1)) in
  (* frame 1: only the first enemy is overlapped *)
  map (spike_contact (spike_advance sample_globals dt two_pierce_bolt))
      lane_enemies = [true; false; false] /\
  map hp (snd (fst r1)) = [100 - 18; 100; 100] /\
  spike_alive (fst (fst r1)) = true /\
  (* frame 2: all three are overlapped and alive *)
  map (spike_contact (spike_advance (snd r1) dt (fst (fst r1))))
      (snd (fst r1)) = [true; true; true] /\
  map alive (snd (fst r1)) = [true; true; true] /\
  map hp (snd (fst r2)) = [100 - 18 - 18; 100; 100] /\
  spike_alive (fst (fst r2)) = false.
Proof.
  cbn zeta.
  assert (C11 : spike_contact (mkSpike (26 / 3) 0 0 520 18 2 true)
                  (lane_enemy 11 20) = true) by contact_eval.
  assert (C12 : spike_contact (mkSpike (26 / 3) 0 0 520 18 2 true)
                  (lane_enemy 12 30) = false) by contact_eval.
  assert (C13 : spike_contact (mkSpike (26 / 3) 0 0 520 18 2 true)
                  (lane_enemy 13 31) = false) by contact_eval.
  assert (C12' : spike_contact (mkSpike (26 / 3) 0 0 520 18 1 true)
                  (lane_enemy 12 30) = false) by contact_eval.
  assert (C13' : spike_contact (mkSpike (26 / 3) 0 0 520 18 1 true)
                  (lane_enemy 13 31) = false) by contact_eval.
  assert (T1 : takeDamage sample_globals 18 (lane_enemy 11 20)
               = (set_hp (100 - 18) (lane_enemy 11 20), sample_globals)).
  { unfold takeDamage, lane_enemy. rcmp. reflexivity. }
  assert (R1 : spike_update sample_globals (1 / 60) two_pierce_bolt lane_enemies
               = (mkSpike (26 / 3) 0 0 520 18 1 true,
                  [set_hp (100 - 18) (lane_enemy 11 20);
                   lane_enemy 12 30; lane_enemy 13 31],
                  sample_globals)).
  { unfold spike_update. cbn [two_pierce_bolt new_SpikeProjectile spike_alive negb].
    fold two_pierce_bolt. rewrite two_pierce_bolt_tick1.
    unfold lane_enemies.
    rewrite spike_loop_hit by (reflexivity || exact C11).
    spike_fields. cbn [Z.sub Z.add Z.opp Z.pos_sub Z.leb Z.compare Pos.pred_double].
    rewrite T1. cbn zeta. cbn [fst snd].
    cbn [spike_loop lane_enemy alive negb]. fold (lane_enemy 12 30) (lane_enemy 13 31).
    rewrite C12', C13'. cbn [fst snd]. spike_fields.
    unfold sample_globals; fields. rcmp. reflexivity. }
  rewrite R1. cbn [fst snd]. rewrite two_pierce_bolt_tick1, two_pierce_bolt_tick2.
  assert (C21 : spike_contact (mkSpike (52 / 3) 0 0 520 18 1 true)
                  (set_hp (100 - 18) (lane_enemy 11 20)) = true) by contact_eval.
  assert (C22 : spike_contact (mkSpike (52 / 3) 0 0 520 18 1 true)
                  (lane_enemy 12 30) = true) by contact_eval.
  assert (C23 : spike_contact (mkSpike (52 / 3) 0 0 520 18 1 true)
                  (lane_enemy 13 31) = true) by contact_eval.
  assert (T2 : takeDamage sample_globals 18 (set_hp (100 - 18) (lane_enemy 11 20))
               = (set_hp (100 - 18 - 18) (lane_enemy 11 20), sample_globals)).
  { unfold takeDamage, lane_enemy. rcmp. reflexivity. }
  assert (R2 : spike_update sample_globals (1 / 60)
                 (mkSpike (26 / 3) 0 0 520 18 1 true)
                 [set_hp (100 - 18) (lane_enemy 11 20);
                  lane_enemy 12 30; lane_enemy 13 31]
               = (mkSpike (52 / 3) 0 0 520 18 0 false,
                  [set_hp (100 - 18 - 18) (lane_enemy 11 20);
                   lane_enemy 12 30; lane_enemy 13 31],
                  sample_globals)).
  { unfold spike_update. cbn [spike_alive negb].
    rewrite two_pierce_bolt_tick2.
    rewrite spike_loop_hit by (reflexivity || exact C21).
    spike_fields. cbn [Z.sub Z.add Z.opp Z.pos_sub Z.leb Z.compare].
    rewrite T2. cbn [fst snd]. spike_fields.
    destruct (_ || _); reflexivity. }
  rewrite R2. unfold lane_enemies. cbn [fst snd map].
  rewrite C11, C12, C13, C21, C22, C23.
  unfold lane_enemy; spike_fields; fields.
  repeat split; reflexivity.
Qed.

(** * Further properties *)

(** ** Geometry helpers *)

Lemma hypot_sq (a b : R) : hypot a b * hypot a b = a * a + b * b.
Proof. unfold hypot. apply sqrt_sqrt. nra. Qed.

Lemma hypot_eq_0 (a b : R) : hypot a b = 0 <-> a = 0 /\ b = 0.
Proof.
  split.
  - intros H. pose proof (hypot_sq a b) as Hs. rewrite H in Hs. nra.
  - intros [-> ->]. apply hypot_zero.
Qed.

Lemma hypot_pos (a b : R) : a <> 0 \/ b <> 0 -> 0 < hypot a b.
Proof.
  intros H. pose proof (hypot_nonneg a b) as Hn.
  destruct (Req_dec (hypot a b) 0) as [E|E]; [|lra].
  apply hypot_eq_0 in E. destruct E, H; contradiction.
Qed.

Lemma hypot_le (a b c d : R) :
  a * a + b * b <= c * c + d * d -> hypot a b <= hypot c d.
Proof. intros H. unfold hypot. now apply sqrt_le_1_alt. Qed.

(** ** Utilities *)

(** X1: [normalize(dx, dy)] returns a vector of length exactly 1 that is a
    positive multiple of [(dx, dy)] whenever [(dx, dy)] is not the zero
    vector, and returns [(0, 0)] for the zero vector (the [|| 1] guard keeps
    the division defined). *)
Theorem normalize_unit_or_zero :
  forall dx dy : R,
    (dx <> 0 \/ dy <> 0 ->
     hypot (px (normalize dx dy)) (py (normalize dx dy)) = 1 /\
     px (normalize dx dy) * hypot dx dy = dx /\
     py (normalize dx dy) * hypot dx dy = dy) /\
    (dx = 0 /\ dy = 0 -> normalize dx dy = mkPoint 0 0).
Proof.
  intros dx dy. split.
  - intros Hnz. pose proof (hypot_pos dx dy Hnz) as Hp.
    pose proof (hypot_sq dx dy) as Hs.
    unfold normalize. destruct (Req_dec_T (hypot dx dy) 0) as [E|_]; [lra|].
    cbn [px py]. split; [|split; field; lra].
    unfold hypot at 1.
    replace (dx / hypot dx dy * (dx / hypot dx dy)
             + dy / hypot dx dy * (dy / hypot dx dy)) with 1.
    + apply sqrt_1.
    + transitivity ((dx * dx + dy * dy) / (hypot dx dy * hypot dx dy)).
      * rewrite Hs. field. nra.
      * field. lra.
  - intros [-> ->]. unfold normalize. rewrite hypot_zero.
    destruct (Req_dec_T 0 0) as [_|E]; [|contradiction].
    f_equal; lra.
Qed.

Lemma normalize_unit_or_zero_witness :
  (3 <> 0 \/ 4 <> 0) /\
  hypot (px (normalize 3 4)) (py (normalize 3 4)) = 1.
Proof.
  assert (H : 3 <> 0 \/ 4 <> 0) by (left; lra).
  split; [exact H|].
  apply (proj1 (normalize_unit_or_zero 3 4) H).
Defined.

(** X2: [clamp(v, a, b)] with [a <= b] lies in [[a, b]], is [v] itself when
    [v] already lies there, and is the nearer bound otherwise. *)
Theorem clamp_bounds :
  forall v a b : R,
    a <= b ->
    a <= clamp v a b <= b /\
    (a <= v <= b -> clamp v a b = v) /\
    (v < a -> clamp v a b = a) /\ (b < v -> clamp v a b = b).
Proof.
  intros v a b Hab. unfold clamp. rcmp; repeat split; intros; lra.
Qed.

Lemma clamp_bounds_witness :
  1 <= 10 /\ clamp 14 1 10 = 10.
Proof.
  assert (H : 1 <= 10) by lra.
  split; [exact H|].
  apply (proj2 (proj2 (proj2 (clamp_bounds 14 1 10 H)))); lra.
Defined.

(** ** Angle wrapping *)

(** What the first loop returns, when it returns. *)
Lemma wrap_up_some (fuel : nat) :
  forall a r : R,
    wrap_up fuel a = Some r ->
    - PI < r /\ (exists k : nat, r = a + INR k * (2 * PI)) /\
    (a <= - PI -> r <= PI) /\ (- PI < a -> r = a).
Proof.
  induction fuel as [|n IH]; intros a r; cbn [wrap_up];
    destruct (Rleb a (- PI)) eqn:Hc.
  - discriminate.
  - apply Rleb_false in Hc. intros [= <-].
    repeat split; try lra. exists 0%nat. cbn [INR]. lra.
  - apply Rleb_true in Hc. intros Hr.
    destruct (IH _ _ Hr) as (Hlo & (k & Hk) & Hhi & Hid).
    split; [exact Hlo|]. split.
    + exists (S k). rewrite S_INR. lra.
    + split; [|intros; lra]. intros _.
      destruct (Rle_dec (a + PI * 2) (- PI)) as [Hle | Hgt].
      * now apply Hhi.
      * rewrite Hid by lra. lra.
  - apply Rleb_false in Hc. intros [= <-].
    repeat split; try lra. exists 0%nat. cbn [INR]. lra.
Qed.

Lemma wrap_down_some (fuel : nat) :
  forall a r : R,
    wrap_down fuel a = Some r ->
    r <= PI /\ (exists k : nat, r = a - INR k * (2 * PI)) /\
    (PI < a -> - PI < r) /\ (a <= PI -> r = a).
Proof.
  induction fuel as [|n IH]; intros a r; cbn [wrap_down];
    destruct (Rgtb a PI) eqn:Hc.
  - discriminate.
  - apply Rgtb_false in Hc. intros [= <-].
    repeat split; try lra. exists 0%nat. cbn [INR]. lra.
  - apply Rgtb_true in Hc. intros Hr.
    destruct (IH _ _ Hr) as (Hhi & (k & Hk) & Hlo & Hid).
    split; [exact Hhi|]. split.
    + exists (S k). rewrite S_INR. lra.
    + split; [|intros; lra]. intros _.
      destruct (Rlt_dec PI (a - PI * 2)) as [Hgt | Hle].
      * now apply Hlo.
      * rewrite Hid by lra. lra.
  - apply Rgtb_false in Hc. intros [= <-].
    repeat split; try lra. exists 0%nat. cbn [INR]. lra.
Qed.

(** Enough fuel lets each loop finish. *)
Lemma wrap_up_enough (n : nat) :
  forall (a : R) (m : nat),
    (n <= m)%nat -> - PI < a + INR n * (2 * PI) ->
    exists r : R, wrap_up m a = Some r.
Proof.
  induction n as [|n IH]; intros a m Hm Hn.
  - cbn [INR] in Hn. exists a.
    assert (Hc : Rleb a (- PI) = false) by (apply Rleb_false; lra).
    destruct m; cbn [wrap_up]; now rewrite Hc.
  - destruct m as [|m]; [lia|]. cbn [wrap_up].
    destruct (Rleb a (- PI)); [|now exists a].
    apply IH; [lia|]. rewrite S_INR in Hn. lra.
Qed.

Lemma wrap_down_enough (n : nat) :
  forall (a : R) (m : nat),
    (n <= m)%nat -> a - INR n * (2 * PI) <= PI ->
    exists r : R, wrap_down m a = Some r.
Proof.
  induction n as [|n IH]; intros a m Hm Hn.
  - cbn [INR] in Hn. exists a.
    assert (Hc : Rgtb a PI = false) by (apply Rgtb_false; lra).
    destruct m; cbn [wrap_down]; now rewrite Hc.
  - destruct m as [|m]; [lia|]. cbn [wrap_down].
    destruct (Rgtb a PI); [|now exists a].
    apply IH; [lia|]. rewrite S_INR in Hn. lra.
Qed.

Lemma wrapAngle_some (fuel : nat) (a r : R) :
  wrapAngle fuel a = Some r ->
  - PI < r <= PI /\ exists k : Z, r = a + IZR k * (2 * PI).
Proof.
  unfold wrapAngle. destruct (wrap_up fuel a) as [a1|] eqn:Hup; [|discriminate].
  intros Hdown.
  destruct (wrap_up_some _ _ _ Hup) as (Hlo1 & (k1 & Hk1) & Hhi1 & Hid1).
  destruct (wrap_down_some _ _ _ Hdown) as (Hhi2 & (k2 & Hk2) & Hlo2 & Hid2).
  split.
  - split; [|exact Hhi2].
    destruct (Rlt_dec PI a1) as [Hgt | Hle]; [now apply Hlo2|].
    rewrite Hid2 by lra. exact Hlo1.
  - exists (Z.of_nat k1 - Z.of_nat k2)%Z.
    rewrite minus_IZR, <- !INR_IZR_INZ. lra.
Qed.

Lemma wrap_up_mono (n : nat) :
  forall (a r : R) (m : nat),
    wrap_up n a = Some r -> (n <= m)%nat -> wrap_up m a = Some r.
Proof.
  induction n as [|n IH]; intros a r m; cbn [wrap_up];
    destruct (Rleb a (- PI)) eqn:Hc; try discriminate.
  - intros [= <-] _. destruct m; cbn [wrap_up]; now rewrite Hc.
  - intros Hr Hm. destruct m as [|m]; [lia|]. cbn [wrap_up]. rewrite Hc.
    apply IH; [exact Hr | lia].
  - intros [= <-] _. destruct m; cbn [wrap_up]; now rewrite Hc.
Qed.

Lemma wrap_down_mono (n : nat) :
  forall (a r : R) (m : nat),
    wrap_down n a = Some r -> (n <= m)%nat -> wrap_down m a = Some r.
Proof.
  induction n as [|n IH]; intros a r m; cbn [wrap_down];
    destruct (Rgtb a PI) eqn:Hc; try discriminate.
  - intros [= <-] _. destruct m; cbn [wrap_down]; now rewrite Hc.
  - intros Hr Hm. destruct m as [|m]; [lia|]. cbn [wrap_down]. rewrite Hc.
    apply IH; [exact Hr | lia].
  - intros [= <-] _. destruct m; cbn [wrap_down]; now rewrite Hc.
Qed.

Lemma wrapAngle_mono (n m : nat) (a r : R) :
  wrapAngle n a = Some r -> (n <= m)%nat -> wrapAngle m a = Some r.
Proof.
  unfold wrapAngle. destruct (wrap_up n a) as [a1|] eqn:Hup; [|discriminate].
  intros Hdown Hm. rewrite (wrap_up_mono _ _ _ _ Hup Hm).
  now apply (wrap_down_mono n).
Qed.

(** An angle of magnitude at most [3 * PI] needs at most two iterations of
    a loop. *)
Lemma wrapAngle_near (a : R) :
  Rabs a <= 3 * PI ->
  exists r : R, forall m : nat, (2 <= m)%nat -> wrapAngle m a = Some r.
Proof.
  intros Ha. pose proof PI_RGT_0 as Hpi.
  assert (Hb : - (3 * PI) <= a <= 3 * PI).
  { revert Ha. unfold Rabs. destruct (Rcase_abs a); lra. }
  assert (Hr : exists r, wrapAngle 2 a = Some r).
  { destruct (wrap_up_enough 2 a 2 (le_n 2)) as [a1 Hup].
    { cbn [INR]. lra. }
    unfold wrapAngle. rewrite Hup.
    destruct (wrap_up_some _ _ _ Hup) as (Hlo1 & _ & Hhi1 & Hid1).
    destruct (Rle_dec a (- PI)) as [Hle | Hgt].
    - apply (wrap_down_enough 0); [lia|]. cbn [INR]. specialize (Hhi1 Hle). lra.
    - rewrite Hid1 by lra. apply (wrap_down_enough 1); [lia|]. cbn [INR]. lra. }
  destruct Hr as [r Hr]. exists r. intros m Hm.
  now apply (wrapAngle_mono 2).
Qed.

(** X3: [wrapAngle(a)] returns within two iterations of a loop for every
    angle of magnitude at most [3*pi], which covers its uses in the script
    (the difference of two headings in [[-pi, pi]], and a heading plus a
    turn of at most [pi]); the same result is returned under any larger
    bound on the iterations.  Whenever it returns, for any argument, the
    result lies in the half-open interval [(-pi, pi]] and differs from [a]
    by a whole multiple of [2*pi]. *)
Theorem wrapAngle_terminates_in_range :
  forall a : R,
    (Rabs a <= 3 * PI ->
     exists r : R, forall m : nat, (2 <= m)%nat -> wrapAngle m a = Some r) /\
    (forall (m : nat) (r : R),
        wrapAngle m a = Some r ->
        - PI < r <= PI /\ exists k : Z, r = a + IZR k * (2 * PI)).
Proof.
  intros a. split; [apply wrapAngle_near | intros m r; apply wrapAngle_some].
Qed.

Lemma wrapAngle_terminates_in_range_witness :
  Rabs 4 <= 3 * PI /\
  exists r : R, wrapAngle 2 4 = Some r /\ - PI < r <= PI.
Proof.
  pose proof PI2_3_2 as H32.
  assert (Hpi : 3 < PI) by (unfold PI2 in H32; lra).
  assert (H4 : Rabs 4 <= 3 * PI) by (rewrite Rabs_pos_eq; lra).
  split; [exact H4|].
  destruct (proj1 (wrapAngle_terminates_in_range 4) H4) as [r Hr].
  exists r. split; [exact (Hr 2%nat (le_n 2))|].
  exact (proj1 (proj2 (wrapAngle_terminates_in_range 4) 2%nat r
                  (Hr 2%nat (le_n 2)))).
Defined.

(** X4: [lerpAngle(a, b, maxStep)] with [maxStep >= 0] never turns the
    heading by more than [maxStep]; and when the wrapped difference to the
    desired heading is within [maxStep], it lands on the desired heading up
    to a whole multiple of [2*pi]. *)
Theorem lerpAngle_turn_is_bounded :
  forall (fuel : nat) (a b maxStep r : R),
    0 <= maxStep ->
    lerpAngle fuel a b maxStep = Some r ->
    Rabs (r - a) <= maxStep /\
    (forall da : R,
        wrapAngle fuel (b - a) = Some da -> Rabs da <= maxStep ->
        r = a + da /\ exists k : Z, r = b + IZR k * (2 * PI)).
Proof.
  intros fuel a b maxStep r Hm. unfold lerpAngle.
  destruct (wrapAngle fuel (b - a)) as [da|] eqn:Hw; [|discriminate].
  intros [= <-].
  assert (Hb : - maxStep <= clamp da (- maxStep) maxStep <= maxStep)
    by (unfold clamp; rcmp; lra).
  assert (Hin : - maxStep <= da <= maxStep -> clamp da (- maxStep) maxStep = da)
    by (intros Hr; unfold clamp; rcmp; lra).
  split.
  - replace (a + clamp da (- maxStep) maxStep - a)
      with (clamp da (- maxStep) maxStep) by lra.
    apply Rabs_le. lra.
  - intros da' [= <-] Hda.
    assert (Hd2 : - maxStep <= da <= maxStep)
      by (revert Hda; unfold Rabs; destruct (Rcase_abs da); lra).
    rewrite Hin by lra. split; [reflexivity|].
    destruct (wrapAngle_some _ _ _ Hw) as (_ & k & Hk).
    exists k. lra.
Qed.

Lemma lerpAngle_turn_is_bounded_witness :
  0 <= 1 / 10 /\ lerpAngle 1 0 1 (1 / 10) = Some (1 / 10) /\
  Rabs (1 / 10 - 0) <= 1 / 10.
Proof.
  pose proof PI_RGT_0 as Hpi. pose proof PI2_3_2 as H32.
  assert (Hpi1 : 1 < PI) by (unfold PI2 in H32; lra).
  assert (Hm : 0 <= 1 / 10) by lra.
  assert (H : lerpAngle 1 0 1 (1 / 10) = Some (1 / 10)).
  { unfold lerpAngle, wrapAngle. cbn [wrap_up wrap_down].
    assert (H1 : Rleb (1 - 0) (- PI) = false) by (apply Rleb_false; lra).
    assert (H2 : Rgtb (1 - 0) PI = false) by (apply Rgtb_false; lra).
    rewrite H1, H2. f_equal.
    unfold clamp. rcmp; lra. }
  split; [exact Hm|]. split; [exact H|].
  apply (proj1 (lerpAngle_turn_is_bounded 1 0 1 (1 / 10) (1 / 10) Hm H)).
Defined.

(** ** Status effects, continued *)

(** X5: [applySlow(factor, duration)] keeps the stronger slow and the longer
    timer: [slowFactor] becomes [min(slowFactor, factor)] and [slowTimer]
    becomes [max(slowTimer, duration)], no other field changes; on a fresh
    enemy [applySlow(0.6, 1)] then [applySlow(0.8, 3)] leaves
    [slowFactor = 0.6] and [slowTimer = 3]. *)
Theorem applySlow_strongest_wins :
  (forall (e : Enemy) (factor duration : R),
      applySlow factor duration e
      = set_slowTimer (Rmax (slowTimer e) duration)
          (set_slowFactor (Rmin (slowFactor e) factor) e)) /\
  (forall (eid pidx : nat) (h speed : R) (p : Path) (e0 : Enemy),
      new_Enemy eid h speed pidx p = Some e0 ->
      slowFactor (applySlow (8 / 10) 3 (applySlow (6 / 10) 1 e0)) = 6 / 10 /\
      slowTimer (applySlow (8 / 10) 3 (applySlow (6 / 10) 1 e0)) = 3).
Proof.
  split.
  - intros e factor duration. reflexivity.
  - intros eid pidx h speed p e0 Hnew. unfold new_Enemy in Hnew.
    destruct (nth_error p 0) as [s|]; [|discriminate].
    injection Hnew as <-. unfold applySlow. rcmp; split; lra.
Qed.

Lemma applySlow_strongest_wins_witness :
  new_Enemy 1 30 50 0 sample_path = Some sample_enemy /\
  slowFactor (applySlow (8 / 10) 3 (applySlow (6 / 10) 1 sample_enemy)) = 6 / 10.
Proof.
  assert (H : new_Enemy 1 30 50 0 sample_path = Some sample_enemy) by reflexivity.
  split; [exact H|].
  apply (proj2 applySlow_strongest_wins 1%nat 0%nat 30 50 sample_path _ H).
Defined.

Lemma Rmax_swap (a b c : R) : Rmax (Rmax a b) c = Rmax (Rmax a c) b.
Proof. unfold Rmax; rdec; lra. Qed.

Lemma Rmin_swap (a b c : R) : Rmin (Rmin a b) c = Rmin (Rmin a c) b.
Proof. unfold Rmin; rdec; lra. Qed.

Lemma Rmax_twice (a b : R) : Rmax (Rmax a b) b = Rmax a b.
Proof. unfold Rmax; rdec; lra. Qed.

Lemma Rmin_twice (a b : R) : Rmin (Rmin a b) b = Rmin a b.
Proof. unfold Rmin; rdec; lra. Qed.

(** X6: status applications do not depend on their order and repeating one
    changes nothing: two [applyBleed] calls commute, as do two [applySlow]
    and two [applyStun] calls, applications of different kinds commute with
    each other, and each application is idempotent. *)
Theorem status_applications_commute :
  forall (e : Enemy) (d1 t1 d2 t2 : R),
    applyBleed d1 t1 (applyBleed d2 t2 e) = applyBleed d2 t2 (applyBleed d1 t1 e) /\
    applySlow d1 t1 (applySlow d2 t2 e) = applySlow d2 t2 (applySlow d1 t1 e) /\
    applyStun t1 (applyStun t2 e) = applyStun t2 (applyStun t1 e) /\
    applyBleed d1 t1 (applySlow d2 t2 e) = applySlow d2 t2 (applyBleed d1 t1 e) /\
    applyBleed d1 t1 (applyStun t2 e) = applyStun t2 (applyBleed d1 t1 e) /\
    applySlow d1 t1 (applyStun t2 e) = applyStun t2 (applySlow d1 t1 e) /\
    applyBleed d1 t1 (applyBleed d1 t1 e) = applyBleed d1 t1 e /\
    applySlow d1 t1 (applySlow d1 t1 e) = applySlow d1 t1 e /\
    applyStun t1 (applyStun t1 e) = applyStun t1 e.
Proof.
  intros e d1 t1 d2 t2.
  unfold applyBleed, applySlow, applyStun, js_max, js_min,
    set_bleedDps, set_bleedTimer, set_slowFactor, set_slowTimer, set_stunTimer.
  fields.
  repeat split; f_equal;
    first [ reflexivity | apply Rmax_swap | apply Rmin_swap
          | apply Rmax_twice | apply Rmin_twice ].
Qed.

(** X7: the status strengths stay in range: [bleedDps >= 0] and
    [0 < slowFactor <= 1] hold at creation and are preserved by update,
    applyBleed, applySlow, applyStun, knockback and takeDamage for
    [dps >= 0], [duration >= 0] and [factor] in (0, 1]. *)
Theorem status_ranges_preserved :
  (forall (eid pidx : nat) (h speed : R) (p : Path) (e0 : Enemy),
      new_Enemy eid h speed pidx p = Some e0 -> status_in_range e0) /\
  (forall (g : Globals) (op : EnemyOp) (e : Enemy),
      documented_args op -> status_in_range e ->
      status_in_range (fst (run_op g op e))).
Proof.
  assert (Heq : forall e e', status_eq e e' -> status_in_range e ->
                             status_in_range e').
  { unfold status_eq, status_in_range. intros e e' (-> & _ & -> & _); auto. }
  split.
  - intros eid pidx h speed p e0 Hnew. unfold new_Enemy in Hnew.
    destruct (nth_error p 0); [|discriminate]. injection Hnew as <-.
    unfold status_in_range; fields; lra.
  - intros g op e Hop Hinv. destruct op; cbn [run_op fst].
    + (* update *)
      unfold update. destruct (alive e); cbn [negb fst]; [|assumption].
      remember (if Rgtb (bleedTimer e) 0 then bleed_tick dt e else e) as e1 eqn:He1.
      assert (H1 : status_in_range e1).
      { subst e1. destruct (Rgtb (bleedTimer e) 0); [|assumption].
        unfold status_in_range, bleed_tick in *. rcmp; lra. }
      assert (H2 : status_in_range (slow_decay dt e1)).
      { unfold status_in_range, slow_decay in *. rcmp; lra. }
      destruct (Rgtb (bleedTimer e) 0 && Rleb (hp e1) 0).
      * apply (Heq e1); [apply die_status | assumption].
      * destruct (Rgtb (stunTimer (slow_decay dt e1)) 0).
        -- cbn [fst]. unfold status_in_range in *; fields; assumption.
        -- apply (Heq (slow_decay dt e1)); [apply move_status | assumption].
    + destruct Hop as [Hd _]. unfold status_in_range, applyBleed in *.
      rcmp; lra.
    + destruct Hop as [Hf _]. unfold status_in_range, applySlow in *.
      rcmp; lra.
    + unfold status_in_range, applyStun in *; fields; assumption.
    + destruct (knockback distance e) eqn:Hk; [|assumption].
      apply (Heq e); [now apply (knockback_status distance)|assumption].
    + unfold takeDamage. destruct (Rleb _ 0).
      * apply (Heq (set_hp (hp e - d) e)); [apply die_status|].
        unfold status_in_range in *; fields; assumption.
      * cbn [fst]. unfold status_in_range in *; fields; assumption.
Qed.

Lemma status_ranges_preserved_witness :
  documented_args (OpApplySlow (6 / 10) 0) /\
  status_in_range sample_enemy /\
  status_in_range
    (fst (run_op sample_globals (OpApplySlow (6 / 10) 0) sample_enemy)).
Proof.
  assert (Hop : documented_args (OpApplySlow (6 / 10) 0)) by (cbn; lra).
  assert (Hinv : status_in_range sample_enemy).
  { apply (proj1 status_ranges_preserved 1%nat 0%nat 30 50 sample_path).
    reflexivity. }
  split; [exact Hop|]. split; [exact Hinv|].
  apply (proj2 status_ranges_preserved); assumption.
Defined.

(** ** What the enemy methods never do *)

(** Split on every conditional of the goal, innermost scrutinee first. *)
Ltac no_match t :=
  lazymatch t with
  | context [match _ with _ => _ end] => fail
  | _ => idtac
  end.

Ltac split_ifs :=
  repeat (fields;
    match goal with
    | |- context [match ?c with _ => _ end] =>
        no_match c; destruct c eqn:?
    end);
  fields.

Lemma validatePosition_keeps (e : Enemy) :
  identity_eq e (validatePosition e) /\ hp (validatePosition e) = hp e /\
  alive (validatePosition e) = alive e /\
  waypoint (validatePosition e) = waypoint e.
Proof.
  unfold validatePosition, identity_eq. split_ifs; repeat split; reflexivity.
Qed.

Lemma move_keeps (g : Globals) (dt : R) (e : Enemy) :
  identity_eq e (fst (move g dt e)) /\ hp (fst (move g dt e)) = hp e /\
  (alive e = false -> alive (fst (move g dt e)) = false) /\
  (waypoint (fst (move g dt e)) = waypoint e \/
   waypoint (fst (move g dt e)) = S (waypoint e)).
Proof.
  unfold move, reachEnd.
  destruct (nextTarget e) as [target|].
  - destruct (Rleb _ _).
    + destruct (_ <=? _)%nat.
      * unfold identity_eq. fields. destruct (alive e) eqn:Hal; fields;
          repeat split; auto; discriminate.
      * cbn [fst].
        match goal with |- context [validatePosition ?a] =>
          destruct (validatePosition_keeps a) as ((I1 & I2 & I3 & I4 & I5 & I6 & I7)
                                                   & Hh & Ha & Hw);
          assert (Hin : identity_eq e a /\ hp a = hp e /\ alive a = alive e /\
                        waypoint a = S (waypoint e))
        end.
        { unfold identity_eq. split_ifs; repeat split; reflexivity. }
        destruct Hin as ((J1 & J2 & J3 & J4 & J5 & J6 & J7) & Jh & Ja & Jw).
        unfold identity_eq.
        repeat split; try congruence. right. congruence.
    + cbn [fst].
      destruct (validatePosition_keeps (set_pos
                  (x e + (px target - x e) / hypot (px target - x e) (py target - y e)
                         * (baseSpeed e * slowFactor e * gameSpeed g * dt))
                  (y e + (py target - y e) / hypot (px target - x e) (py target - y e)
                         * (baseSpeed e * slowFactor e * gameSpeed g * dt)) e))
        as (Hi & Hh & Ha & Hw).
      unfold identity_eq in *. fields. intuition congruence.
  - unfold identity_eq. destruct (_ <=? _)%nat; fields;
      destruct (alive e) eqn:Hal; fields; repeat split; auto; discriminate.
Qed.

Lemma knockback_keeps (d : R) (e e' : Enemy) :
  knockback d e = Some e' ->
  identity_eq e e' /\ hp e' = hp e /\ alive e' = alive e /\
  (waypoint e' = waypoint e \/ S (waypoint e') = waypoint e).
Proof.
  unfold knockback, identity_eq.
  destruct (waypoint e <=? 0)%nat eqn:Hw0.
  - intros [= <-]. repeat split; auto.
  - apply Nat.leb_gt in Hw0.
    destruct (nth_error _ (waypoint e)); [|discriminate].
    destruct (0 <? _)%nat.
    + destruct (nth_error _ (waypoint e - 1)); [|discriminate].
      destruct (Rltb _ _); intros [= <-]; fields; repeat split; auto.
      right. lia.
    + intros [= <-]; fields; repeat split; auto.
Qed.

(** X8: no enemy method undoes damage or death.  For every operation
    (update, applyBleed, applySlow, applyStun, knockback, takeDamage) whose
    elapsed time, damage and bleed strength are not negative, on an enemy
    with [bleedDps >= 0]: [hp] does not rise, so [hp <= maxHp] is kept; a
    dead enemy stays dead; and [id], [maxHp], [baseSpeed], [radius],
    [pathIndex] and [path] are never reassigned. *)
Theorem enemy_methods_never_heal_or_revive :
  forall (g : Globals) (op : EnemyOp) (e : Enemy),
    nonneg_args op -> 0 <= bleedDps e ->
    let e' := fst (run_op g op e) in
    hp e' <= hp e /\ (hp e <= maxHp e -> hp e' <= maxHp e') /\
    (alive e = false -> alive e' = false) /\
    identity_eq e e'.
Proof.
  intros g op e Hop Hb e'.
  assert (Hgoal : hp e' <= hp e /\ (alive e = false -> alive e' = false) /\
                  identity_eq e e').
  { subst e'. destruct op; cbn [run_op fst].
    - (* update *)
      cbn [nonneg_args] in Hop. unfold update.
      destruct (alive e) eqn:Ha; cbn [negb fst];
        [|unfold identity_eq; repeat split; auto; lra].
      remember (if Rgtb (bleedTimer e) 0 then bleed_tick dt e else e) as e1 eqn:He1.
      assert (H1 : hp e1 <= hp e /\ alive e1 = alive e /\ identity_eq e e1).
      { subst e1. unfold identity_eq, bleed_tick.
        rcmp; repeat split; try reflexivity; nra. }
      assert (H2 : hp (slow_decay dt e1) = hp e1 /\
                   alive (slow_decay dt e1) = alive e1 /\
                   identity_eq e1 (slow_decay dt e1)).
      { unfold identity_eq, slow_decay. rcmp; repeat split; reflexivity. }
      destruct H1 as (Hh1 & Ha1 & I1), H2 as (Hh2 & Ha2 & I2).
      destruct (Rgtb (bleedTimer e) 0 && Rleb (hp e1) 0).
      + unfold die. unfold identity_eq in *.
        destruct (alive e1); fields; intuition congruence.
      + destruct (Rgtb (stunTimer (slow_decay dt e1)) 0).
        * cbn [fst]. unfold identity_eq in *. fields.
          intuition (try congruence; lra).
        * destruct (move_keeps g dt (slow_decay dt e1)) as (I3 & Hh3 & Ha3 & _).
          split; [lra|]. split; [intros Hd; apply Ha3; congruence|].
          unfold identity_eq in *. intuition congruence.
    - unfold applyBleed, identity_eq; fields; repeat split; auto; lra.
    - unfold applySlow, identity_eq; fields; repeat split; auto; lra.
    - unfold applyStun, identity_eq; fields; repeat split; auto; lra.
    - destruct (knockback distance e) as [e1|] eqn:Hk.
      + destruct (knockback_keeps _ _ _ Hk) as (I1 & Hh & Ha & _).
        split; [lra|]. split; [congruence | exact I1].
      + unfold identity_eq; repeat split; auto; lra.
    - cbn [nonneg_args] in Hop. unfold takeDamage, die, identity_eq.
      destruct (Rleb _ 0); fields; [destruct (alive e) eqn:Ha|];
        fields; repeat split; auto; lra. }
  destruct Hgoal as (Hh & Ha & Hi).
  split; [exact Hh|]. split; [|split; assumption].
  intros Hmax. destruct Hi as (_ & Hm & _). rewrite Hm. lra.
Qed.

Lemma enemy_methods_never_heal_or_revive_witness :
  nonneg_args (OpTakeDamage 40) /\ 0 <= bleedDps sample_enemy /\
  hp (fst (run_op sample_globals (OpTakeDamage 40) sample_enemy))
    <= hp sample_enemy.
Proof.
  assert (Hop : nonneg_args (OpTakeDamage 40)) by (cbn; lra).
  assert (Hb : 0 <= bleedDps sample_enemy) by (unfold sample_enemy; fields; lra).
  split; [exact Hop|]. split; [exact Hb|].
  apply (enemy_methods_never_heal_or_revive sample_globals _ _ Hop Hb).
Defined.

(** ** One update *)

Lemma move_globals (g : Globals) (dt : R) (e : Enemy) :
  snd (move g dt e) = g \/
  (alive e = true /\ alive (fst (move g dt e)) = false /\
   snd (move g dt e) = set_lives (lives g - 1)%Z g).
Proof.
  unfold move, reachEnd.
  destruct (nextTarget e) as [target|].
  - destruct (Rleb _ _); [|now left].
    destruct (_ <=? _)%nat; [|now left].
    fields. destruct (alive e) eqn:Ha; cbn [negb fst snd]; [right|left]; auto.
  - destruct (_ <=? _)%nat; [|now left].
    destruct (alive e) eqn:Ha; cbn [negb fst snd]; [right|left]; auto.
Qed.

(** X9: one [update(dt)] moves an enemy along at most one waypoint, however
    large [dt] is, and never back; and it changes the globals in at most one
    way: it leaves them alone, or the enemy dies of its bleed and only
    [money] rises by the reward, or the enemy escapes and only [lives] drops
    by one.  In the last two cases the enemy goes from alive to dead. *)
Theorem update_one_waypoint_one_outcome :
  forall (g : Globals) (dt : R) (e : Enemy),
    let e' := fst (update g dt e) in
    let g' := snd (update g dt e) in
    (waypoint e' = waypoint e \/ waypoint e' = S (waypoint e)) /\
    (g' = g \/
     (alive e = true /\ alive e' = false /\
      g' = set_money (money g + reward g)%Z g) \/
     (alive e = true /\ alive e' = false /\
      g' = set_lives (lives g - 1)%Z g)).
Proof.
  intros g dt e e' g'. subst e' g'. unfold update.
  destruct (alive e) eqn:Ha; cbn [negb fst snd]; [|split; now left].
  remember (if Rgtb (bleedTimer e) 0 then bleed_tick dt e else e) as e1 eqn:He1.
  assert (H1 : waypoint e1 = waypoint e /\ alive e1 = true).
  { subst e1. unfold bleed_tick. rcmp; auto. }
  assert (H2 : waypoint (slow_decay dt e1) = waypoint e1 /\
               alive (slow_decay dt e1) = alive e1).
  { unfold slow_decay. rcmp; auto. }
  destruct H1 as [Hw1 Ha1], H2 as [Hw2 Ha2].
  destruct (Rgtb (bleedTimer e) 0 && Rleb (hp e1) 0).
  - unfold die, reward. rewrite Ha1. cbn [negb fst snd]. fields.
    split; [now left|]. right; left. auto.
  - destruct (Rgtb (stunTimer (slow_decay dt e1)) 0).
    + cbn [fst snd]. fields. split; [left; congruence | now left].
    + destruct (move_keeps g dt (slow_decay dt e1)) as (_ & _ & _ & Hw).
      split; [destruct Hw as [Hw | Hw]; [left | right]; congruence|].
      destruct (move_globals g dt (slow_decay dt e1)) as [Hg | (_ & Hd & Hg)].
      * now left.
      * right; right. auto.
Qed.

(** ** Knockback past the first waypoint *)

Lemma knockback_none_iff (d : R) (e : Enemy) :
  knockback d e = None <->
  (0 < waypoint e)%nat /\ (length (path e) <= waypoint e)%nat.
Proof.
  unfold knockback.
  destruct (waypoint e <=? 0)%nat eqn:Hw0.
  - apply Nat.leb_le in Hw0. split; [discriminate | lia].
  - apply Nat.leb_gt in Hw0.
    destruct (nth_error (path e) (waypoint e)) as [a|] eqn:Ha.
    + assert (Hlt : (waypoint e < length (path e))%nat)
        by (apply nth_error_Some; congruence).
      assert (Hp : (0 <? waypoint e)%nat = true) by (apply Nat.ltb_lt; lia).
      rewrite Hp.
      destruct (nth_error (path e) (waypoint e - 1)) as [prev|] eqn:Hprev.
      * destruct (Rltb _ _); split; try discriminate; lia.
      * apply nth_error_None in Hprev. lia.
    + apply nth_error_None in Ha. split; [intros _; lia | reflexivity].
Qed.

(** X10: [knockback(d)] throws (reading [.x] of [undefined]) exactly when
    the waypoint index is positive and lies beyond the end of the path;
    otherwise it returns, and then it has changed nothing but [x], [y] and
    [waypoint], the waypoint index staying or dropping by exactly one. *)
Theorem knockback_total_on_path :
  forall (d : R) (e : Enemy),
    (knockback d e = None <->
     (0 < waypoint e)%nat /\ (length (path e) <= waypoint e)%nat) /\
    (forall e' : Enemy,
        knockback d e = Some e' ->
        identity_eq e e' /\ status_eq e e' /\ hp e' = hp e /\
        alive e' = alive e /\
        (waypoint e' = waypoint e \/ S (waypoint e') = waypoint e)).
Proof.
  intros d e. split; [apply knockback_none_iff|].
  intros e' Hk.
  destruct (knockback_keeps _ _ _ Hk) as (Hi & Hh & Ha & Hw).
  split; [exact Hi|]. split; [exact (knockback_status d e e' Hk)|]. auto.
Qed.

Lemma knockback_total_on_path_witness :
  knockback 30 (set_waypoint 5 halfway_enemy) = None /\
  (0 < waypoint (set_waypoint 5 halfway_enemy))%nat.
Proof.
  assert (H : knockback 30 (set_waypoint 5 halfway_enemy) = None) by reflexivity.
  split; [exact H|].
  apply (proj1 (proj1 (knockback_total_on_path 30 _)) H).
Defined.

(** X11: where [knockback(d)] leaves an enemy whose waypoint index is
    positive.  Either the index is unchanged and the enemy has been moved by
    exactly [d] against the unit direction of its current segment; or the
    index has dropped by one and the enemy stands on the line of the previous
    segment at [a + t * (prev - a)] with [t <= 0.9], never nearer to the
    previous waypoint than a tenth of that segment ([t >= 0] when [d] is at
    least the distance back to [a]). *)
Theorem knockback_lands_on_path :
  forall (d : R) (e e' : Enemy) (a prev : Point),
    (0 < waypoint e)%nat ->
    nth_error (path e) (waypoint e) = Some a ->
    nth_error (path e) (waypoint e - 1) = Some prev ->
    knockback d e = Some e' ->
    let b := match nth_error (path e) (S (waypoint e)) with
             | Some b => b
             | None => a
             end in
    let dir := normalize (px b - px a) (py b - py a) in
    (waypoint e' = waypoint e /\
     x e' = x e - px dir * d /\ y e' = y e - py dir * d) \/
    (S (waypoint e') = waypoint e /\
     exists t : R,
       t <= 9 / 10 /\
       (hypot (x e - px a) (y e - py a) <= d -> 0 <= t) /\
       x e' = px a + t * (px prev - px a) /\
       y e' = py a + t * (py prev - py a)).
Proof.
  intros d e e' a prev Hw Ha Hprev Hk b dir. subst b dir.
  unfold knockback in Hk.
  assert (H0 : (waypoint e <=? 0)%nat = false) by (apply Nat.leb_gt; lia).
  assert (H1 : (0 <? waypoint e)%nat = true) by (apply Nat.ltb_lt; lia).
  rewrite H0, Ha, H1, Hprev in Hk.
  destruct (Rltb _ _) eqn:Hc; injection Hk as <-; fields.
  - right. split; [lia|].
    apply Rltb_true in Hc.
    set (L := hypot (px a - px prev) (py a - py prev)) in *.
    assert (HL : 0 < L).
    { pose proof (hypot_nonneg
        (x e - px (normalize
                     (px match nth_error (path e) (S (waypoint e)) with
                         | Some b => b | None => a end - px a)
                     (py match nth_error (path e) (S (waypoint e)) with
                         | Some b => b | None => a end - py a)) * d - px prev)
        (y e - py (normalize
                     (px match nth_error (path e) (S (waypoint e)) with
                         | Some b => b | None => a end - px a)
                     (py match nth_error (path e) (S (waypoint e)) with
                         | Some b => b | None => a end - py a)) * d - py prev)).
      lra. }
    set (m := js_min (d - hypot (x e - px a) (y e - py a)) (L * (9 / 10))).
    assert (Hm : m <= L * (9 / 10) /\
                 (hypot (x e - px a) (y e - py a) <= d -> 0 <= m)).
    { unfold m, js_min, Rmin. rdec; split; intros; lra. }
    exists (m / L). destruct Hm as [Hm1 Hm2].
    split; [apply (Rmult_le_reg_r L); [exact HL|]; unfold Rdiv;
            rewrite Rmult_assoc, Rinv_l by lra; lra|].
    split.
    { intros Hd. specialize (Hm2 Hd).
      apply Rmult_le_pos; [exact Hm2 | left; now apply Rinv_0_lt_compat]. }
    unfold normalize. fold L.
    destruct (Req_dec_T L 0) as [E|_]; [lra|]. cbn [px py].
    split; field; lra.
  - left. auto.
Qed.

Lemma knockback_lands_on_path_witness :
  (0 < waypoint cornered_enemy)%nat /\
  exists e' : Enemy,
    knockback 5 cornered_enemy = Some e' /\
    (waypoint e' = 1%nat \/ S (waypoint e') = 1%nat).
Proof.
  assert (Hw : (0 < waypoint cornered_enemy)%nat) by (cbn; lia).
  split; [exact Hw|].
  destruct (knockback 5 cornered_enemy) as [e'|] eqn:Hk.
  - exists e'. split; [reflexivity|].
    destruct (knockback_lands_on_path 5 cornered_enemy e' (mkPoint 10 0)
                (mkPoint 0 0) Hw eq_refl eq_refl Hk) as [(H & _) | (H & _)].
    + left. exact H.
    + right. exact H.
  - exfalso.
    apply knockback_none_iff in Hk. cbn in Hk. lia.
Defined.

(** ** Staying on the path *)

Lemma clamp01_range (v : R) : 0 <= js_max 0 (js_min 1 v) <= 1.
Proof. unfold js_max, js_min, Rmax, Rmin. rdec; lra. Qed.

Lemma clamp01_fixed (v : R) : 0 <= v <= 1 -> js_max 0 (js_min 1 v) = v.
Proof. intros H. unfold js_max, js_min, Rmax, Rmin. rdec; lra. Qed.

(** X12: after [validatePosition()] an enemy that has a current and a next
    waypoint, not at the same place, is within 5 pixels of a point of the
    segment between them, and validating a second time changes nothing.
    Without a next waypoint the method changes nothing at all. *)
Theorem validatePosition_within_tolerance :
  forall (e : Enemy) (curr next : Point),
    currentWaypoint e = Some curr -> nextTarget e = Some next ->
    px next <> px curr \/ py next <> py curr ->
    let e' := validatePosition e in
    (exists t : R,
        0 <= t <= 1 /\
        hypot (x e' - (px curr + t * (px next - px curr)))
              (y e' - (py curr + t * (py next - py curr))) <= 5) /\
    validatePosition e' = e' /\
    (forall e0 : Enemy, nextTarget e0 = None -> validatePosition e0 = e0).
Proof.
  intros e curr next Hc Hn Hne e'.
  set (sx := px next - px curr). set (sy := py next - py curr).
  assert (HL : 0 < sx * sx + sy * sy).
  { destruct Hne as [H | H].
    - assert (H' : sx <> 0) by (unfold sx; lra).
      pose proof (Rsqr_pos_lt sx H') as Hs. unfold Rsqr in Hs. nra.
    - assert (H' : sy <> 0) by (unfold sy; lra).
      pose proof (Rsqr_pos_lt sy H') as Hs. unfold Rsqr in Hs. nra. }
  set (t := js_max 0 (js_min 1
              (((x e - px curr) * sx + (y e - py curr) * sy)
               / (sx * sx + sy * sy)))).
  assert (Ht : 0 <= t <= 1) by apply clamp01_range.
  assert (Hbig : Rgtb (sx * sx + sy * sy) 0 = true) by now apply Rgtb_true.
  assert (He' : e' = if Rgtb (hypot (x e - (px curr + t * sx))
                                     (y e - (py curr + t * sy))) 5
                     then set_pos (px curr + t * sx) (py curr + t * sy) e
                     else e).
  { unfold e', validatePosition. rewrite Hc, Hn. fold sx sy. rewrite Hbig.
    reflexivity. }
  split; [|split].
  - exists t. split; [exact Ht|]. rewrite He'.
    destruct (Rgtb _ 5) eqn:Hfar.
    + fields.
      rewrite (proj2 (hypot_eq_0 _ _)) by (split; unfold sx, sy; ring). lra.
    + now apply Rgtb_false in Hfar.
  - rewrite He'. destruct (Rgtb _ 5) eqn:Hfar.
    + unfold validatePosition, currentWaypoint, nextTarget in *. fields.
      rewrite Hc, Hn. fold sx sy. rewrite Hbig.
      assert (Hraw : ((px curr + t * sx - px curr) * sx
                      + (py curr + t * sy - py curr) * sy)
                     / (sx * sx + sy * sy) = t) by (field; lra).
      rewrite Hraw, (clamp01_fixed t Ht).
      rewrite (proj2 (hypot_eq_0 _ _)) by (split; ring).
      assert (H05 : Rgtb 0 5 = false) by (apply Rgtb_false; lra).
      now rewrite H05.
    + unfold validatePosition. rewrite Hc, Hn. fold sx sy. rewrite Hbig.
      fold t. now rewrite Hfar.
  - intros e0 H0. unfold validatePosition. rewrite H0.
    now destruct (currentWaypoint e0).
Qed.

Lemma validatePosition_within_tolerance_witness :
  currentWaypoint drifted_enemy = Some (mkPoint 0 0) /\
  nextTarget drifted_enemy = Some (mkPoint 10 0) /\
  validatePosition (validatePosition drifted_enemy)
    = validatePosition drifted_enemy.
Proof.
  split; [reflexivity|]. split; [reflexivity|].
  assert (Hne : px (mkPoint 10 0) <> px (mkPoint 0 0)
                \/ py (mkPoint 10 0) <> py (mkPoint 0 0))
    by (left; cbn [px]; lra).
  exact (proj1 (proj2 (validatePosition_within_tolerance drifted_enemy
                         (mkPoint 0 0) (mkPoint 10 0) eq_refl eq_refl Hne))).
Defined.

(** ** Placement buffer *)

Lemma sq_sum_pos (u v : R) : u <> 0 \/ v <> 0 -> 0 < u * u + v * v.
Proof.
  intros [H | H]; pose proof (Rsqr_pos_lt _ H) as Hs; unfold Rsqr in Hs; nra.
Qed.

(** The clamped projection is the point of the segment nearest to the query
    point. *)
Lemma clamped_projection_nearest (qx qy : R) (a b : Point) (s : R) :
  px b <> px a \/ py b <> py a -> 0 <= s <= 1 ->
  let vx := px b - px a in
  let vy := py b - py a in
  let t := ((qx - px a) * vx + (qy - py a) * vy) / (vx * vx + vy * vy) in
  let c := js_max 0 (js_min 1 t) in
  hypot (px a + c * vx - qx) (py a + c * vy - qy)
  <= hypot (px a + s * vx - qx) (py a + s * vy - qy).
Proof.
  intros Hne Hs vx vy t c.
  assert (Hden : 0 < vx * vx + vy * vy).
  { apply sq_sum_pos. unfold vx, vy. destruct Hne; [left | right]; lra. }
  apply hypot_le.
  assert (Hdiff : (px a + s * vx - qx) * (px a + s * vx - qx)
                  + (py a + s * vy - qy) * (py a + s * vy - qy)
                  - ((px a + c * vx - qx) * (px a + c * vx - qx)
                     + (py a + c * vy - qy) * (py a + c * vy - qy))
                  = (vx * vx + vy * vy) * ((s - c) * (s + c - 2 * t))).
  { unfold t. field. lra. }
  assert (Hprod : 0 <= (s - c) * (s + c - 2 * t)).
  { clear Hdiff. unfold c. generalize t. intros u.
    unfold js_max, js_min, Rmax, Rmin.
    rdec; pose proof (Rle_0_sqr (s - u)) as Hq; unfold Rsqr in Hq; nra. }
  pose proof (Rmult_le_pos _ _ (Rlt_le _ _ Hden) Hprod). lra.
Qed.

Lemma near_segment_iff (qx qy : R) (a b : Point) :
  near_segment qx qy a b = true <->
  (px b <> px a \/ py b <> py a) /\
  exists s : R, 0 <= s <= 1 /\
    hypot (px (segment_point a b s) - qx) (py (segment_point a b s) - qy) < 24.
Proof.
  unfold near_segment, segment_point. cbn [px py].
  destruct (Req_dec_T _ 0) as [Hz | Hnz].
  - split; [discriminate|]. intros [Hne _]. exfalso.
    assert (Hpos : 0 < (px b - px a) * (px b - px a)
                       + (py b - py a) * (py b - py a)).
    { apply sq_sum_pos. destruct Hne; [left | right]; lra. }
    lra.
  - assert (Hne : px b <> px a \/ py b <> py a).
    { destruct (Req_dec (px b) (px a)) as [Ex|]; [|now left].
      destruct (Req_dec (py b) (py a)) as [Ey|]; [|now right].
      exfalso. apply Hnz. rewrite Ex, Ey. ring. }
    split.
    + intros Hlt. apply Rltb_true in Hlt. split; [exact Hne|].
      eexists. split; [apply clamp01_range | exact Hlt].
    + intros [_ (s & Hs & Hd)]. apply Rltb_true.
      pose proof (clamped_projection_nearest qx qy a b s Hne Hs) as Hn.
      cbn zeta in Hn. lra.
Qed.

Lemma near_path_iff (qx qy : R) (p : Path) :
  near_path qx qy p = true <->
  exists (i : nat) (a b : Point),
    nth_error p i = Some a /\ nth_error p (S i) = Some b /\
    near_segment qx qy a b = true.
Proof.
  induction p as [|a rest IH].
  - split; [discriminate|]. intros (i & a & b & Ha & _). now destruct i.
  - cbn [near_path]. destruct rest as [|b rest'].
    + split; [discriminate|].
      intros (i & a' & b' & _ & Hb & _). destruct i as [|[|i]]; discriminate.
    + destruct (near_segment qx qy a b) eqn:Hab.
      * split; [|reflexivity]. intros _. now exists 0%nat, a, b.
      * rewrite IH. split.
        -- intros (i & a' & b' & Ha & Hb & Hn). now exists (S i), a', b'.
        -- intros (i & a' & b' & Ha & Hb & Hn). destruct i as [|i].
           ++ cbn in Ha, Hb. injection Ha as <-. injection Hb as <-. congruence.
           ++ now exists i, a', b'.
Qed.

Lemma isOnPath_true_iff (qx qy : R) (paths : list Path) :
  isOnPath qx qy paths = true <-> within_of_paths 24 qx qy paths.
Proof.
  unfold within_of_paths. induction paths as [|p rest IH].
  - split; [discriminate|]. intros (p & i & a & b & s & [] & _).
  - cbn [isOnPath]. destruct (near_path qx qy p) eqn:Hp.
    + split; [|reflexivity]. intros _.
      apply near_path_iff in Hp. destruct Hp as (i & a & b & Ha & Hb & Hn).
      apply near_segment_iff in Hn. destruct Hn as (Hne & s & Hs & Hd).
      exists p, i, a, b, s. repeat split; auto; try apply Hs. now left.
    + rewrite IH. split.
      * intros (p' & i & a & b & s & Hin & Hrest).
        exists p', i, a, b, s. split; [now right | exact Hrest].
      * intros (p' & i & a & b & s & [<- | Hin] & Ha & Hb & Hne & Hs & Hd).
        -- exfalso.
           assert (Hn : near_path qx qy p = true).
           { apply near_path_iff. exists i, a, b.
             repeat split; auto. apply near_segment_iff. split; [exact Hne|].
             now exists s. }
           congruence.
        -- exists p', i, a, b, s. repeat split; auto; apply Hs.
Qed.

(** X13: [isOnPath(x, y)] is true exactly when some point of some segment
    (of non-zero length) of some active path lies closer than 24 pixels to
    [(x, y)]: the clamped projection it tests is the nearest point of the
    segment.  With no paths, or only paths of fewer than two points, it is
    false. *)
Theorem isOnPath_iff_within_buffer :
  forall (qx qy : R) (paths : list Path),
    (isOnPath qx qy paths = true <-> within_of_paths 24 qx qy paths) /\
    (Forall (fun p => (length p < 2)%nat) paths -> isOnPath qx qy paths = false).
Proof.
  intros qx qy paths. split; [apply isOnPath_true_iff|].
  intros Hshort.
  apply Bool.not_true_is_false. intros Hon. apply isOnPath_true_iff in Hon.
  destruct Hon as (p & i & a & b & s & Hin & Ha & Hb & _).
  rewrite Forall_forall in Hshort. specialize (Hshort p Hin).
  assert (S i < length p)%nat by (apply nth_error_Some; congruence). lia.
Qed.

Lemma isOnPath_iff_within_buffer_witness :
  Forall (fun p : Path => (length p < 2)%nat) [[mkPoint 0 0]] /\
  isOnPath 3 4 [[mkPoint 0 0]] = false.
Proof.
  assert (H : Forall (fun p : Path => (length p < 2)%nat) [[mkPoint 0 0]]).
  { constructor; [cbn; lia | constructor]. }
  split; [exact H|].
  apply (proj2 (isOnPath_iff_within_buffer 3 4 [[mkPoint 0 0]]) H).
Defined.

(** ** Pierce accounting *)

Lemma spike_loop_accounting (es : list Enemy) :
  forall (g : Globals) (s : SpikeProjectile),
    let es' := fst (fst (spike_loop g s es)) in
    let s' := snd (fst (spike_loop g s es)) in
    length es' = length es /\
    sum_hp es - sum_hp es'
      = spike_damage s * IZR (spike_pierce s - spike_pierce s') /\
    (spike_pierce s' <= spike_pierce s)%Z /\
    (1 <= spike_pierce s -> 0 <= spike_pierce s')%Z /\
    (spike_alive s = true -> (1 <= spike_pierce s)%Z ->
     (spike_alive s' = false <-> spike_pierce s' = 0%Z)) /\
    spike_x s' = spike_x s /\ spike_y s' = spike_y s /\
    spike_damage s' = spike_damage s.
Proof.
  induction es as [|e rest IH]; intros g s; cbn zeta.
  - cbn [spike_loop fst snd length sum_hp]. rewrite Z.sub_diag.
    repeat split; try lra; try lia. congruence.
  - cbn [spike_loop].
    assert (Hskip : forall g0,
      let r := spike_loop g0 s rest in
      length (e :: fst (fst r)) = length (e :: rest) /\
      sum_hp (e :: rest) - sum_hp (e :: fst (fst r))
        = spike_damage s * IZR (spike_pierce s - spike_pierce (snd (fst r))) /\
      (spike_pierce (snd (fst r)) <= spike_pierce s)%Z /\
      (1 <= spike_pierce s -> 0 <= spike_pierce (snd (fst r)))%Z /\
      (spike_alive s = true -> (1 <= spike_pierce s)%Z ->
       (spike_alive (snd (fst r)) = false <-> spike_pierce (snd (fst r)) = 0%Z)) /\
      spike_x (snd (fst r)) = spike_x s /\ spike_y (snd (fst r)) = spike_y s /\
      spike_damage (snd (fst r)) = spike_damage s).
    { intros g0. cbn zeta. specialize (IH g0 s). cbn zeta in IH.
      destruct IH as (Hl & Hs & Hrest). cbn [length sum_hp].
      split; [now rewrite Hl|]. split; [lra | exact Hrest]. }
    destruct (alive e) eqn:Ha; cbn [negb].
    + destruct (spike_contact s e) eqn:Hc.
      * pose proof (takeDamage_hp g (spike_damage s) e) as Hhp.
        destruct (takeDamage g (spike_damage s) e) as [e1 g1]. cbn [fst] in Hhp.
        cbn [spike_pierce spike_set_pierce].
        destruct (spike_pierce s - 1 <=? 0)%Z eqn:Hp.
        -- apply Z.leb_le in Hp. cbn [fst snd length sum_hp].
           unfold spike_set_alive, spike_set_pierce.
           cbn [spike_pierce spike_alive spike_x spike_y spike_damage].
           replace (spike_pierce s - (spike_pierce s - 1))%Z with 1%Z by lia.
           repeat split; try lra; try lia; auto.
        -- apply Z.leb_gt in Hp.
           specialize (IH g1 (spike_set_pierce (spike_pierce s - 1) s)).
           cbn zeta in IH.
           destruct (spike_loop g1 (spike_set_pierce (spike_pierce s - 1) s) rest)
             as [[rest' s'] g'].
           cbn [fst snd] in *. unfold spike_set_pierce in IH.
           cbn [spike_pierce spike_alive spike_x spike_y spike_damage] in IH.
           destruct IH as (Hl & Hs & Hle & Hnn & Hal & Hx & Hy & Hd).
           cbn [length sum_hp]. split; [now rewrite Hl|].
           split.
           { replace (spike_pierce s - spike_pierce s')%Z
               with (1 + (spike_pierce s - 1 - spike_pierce s'))%Z by lia.
             rewrite plus_IZR. lra. }
           split; [lia|]. split; [intros; apply Hnn; lia|].
           split; [intros H1 H2; apply Hal; [exact H1 | lia]|]. auto.
      * specialize (Hskip g). cbn zeta in Hskip.
        destruct (spike_loop g s rest) as [[rest' s'] g']. exact Hskip.
    + specialize (Hskip g). cbn zeta in Hskip.
      destruct (spike_loop g s rest) as [[rest' s'] g']. exact Hskip.
Qed.

(** X14: one [SpikeProjectile.update] of an active bolt with at least one
    pierce left spends one pierce per damage application: the hit points
    removed from the array add up to [damage] times the pierces spent, the
    array keeps its length, the pierce counter never drops below 0, and a
    bolt whose counter has reached 0 is inactive.  An inactive bolt changes
    nothing. *)
Theorem spike_update_spends_one_pierce_per_hit :
  forall (g : Globals) (dt : R) (s : SpikeProjectile) (es : list Enemy),
    let es' := snd (fst (spike_update g dt s es)) in
    let s' := fst (fst (spike_update g dt s es)) in
    (spike_alive s = false -> spike_update g dt s es = (s, es, g)) /\
    (spike_alive s = true -> (1 <= spike_pierce s)%Z ->
     length es' = length es /\
     sum_hp es - sum_hp es'
       = spike_damage s * IZR (spike_pierce s - spike_pierce s') /\
     (0 <= spike_pierce s' <= spike_pierce s)%Z /\
     (spike_pierce s' = 0%Z -> spike_alive s' = false)).
Proof.
  intros g dt s es. cbn zeta. unfold spike_update. split.
  - intros ->. reflexivity.
  - intros Ha Hp. rewrite Ha. cbn [negb].
    pose proof (spike_loop_accounting es g (spike_advance g dt s)) as Hacc.
    cbn zeta in Hacc.
    destruct (spike_loop g (spike_advance g dt s) es) as [[es1 s1] g1].
    cbn [fst snd] in *.
    unfold spike_advance, spike_set_pos in Hacc.
    cbn [spike_pierce spike_alive spike_damage spike_x spike_y] in Hacc.
    destruct Hacc as (Hl & Hs & Hle & Hnn & Hal & _).
    split; [exact Hl|].
    assert (Hpierce : forall b : bool,
              spike_pierce (if b then spike_set_alive false s1 else s1)
              = spike_pierce s1) by (intros []; reflexivity).
    rewrite Hpierce. split; [exact Hs|]. split; [lia|].
    intros Hz. destruct (_ || _); [reflexivity|].
    now apply (Hal Ha Hp).
Qed.

Lemma spike_update_spends_one_pierce_per_hit_witness :
  spike_alive two_pierce_bolt = true /\ (1 <= spike_pierce two_pierce_bolt)%Z /\
  length (snd (fst (spike_update sample_globals (1 / 60) two_pierce_bolt
                      lane_enemies))) = 3%nat.
Proof.
  assert (Ha : spike_alive two_pierce_bolt = true) by reflexivity.
  assert (Hp : (1 <= spike_pierce two_pierce_bolt)%Z) by (cbn; lia).
  split; [exact Ha|]. split; [exact Hp|].
  apply (proj2 (spike_update_spends_one_pierce_per_hit sample_globals (1 / 60)
                  two_pierce_bolt lane_enemies) Ha Hp).
Defined.

(** ** Damage loops and the reward *)

Lemma alive_count_cons (e : Enemy) (es : list Enemy) :
  alive_count (e :: es)
  = ((if alive e then 1 else 0) + alive_count es)%Z.
Proof.
  unfold alive_count. cbn [filter]. destruct (alive e); cbn [length]; lia.
Qed.

(** A loop whose body pays per kill pays the reward once for every enemy it
    takes from alive to dead. *)
Lemma for_each_pays (body : Globals -> Enemy -> Enemy * Globals) :
  pays_per_kill body ->
  forall (es : list Enemy) (g : Globals),
    let es' := fst (for_each body g es) in
    let g' := snd (for_each body g es) in
    length es' = length es /\
    (alive_count es' <= alive_count es)%Z /\
    money g' = (money g + reward g * (alive_count es - alive_count es'))%Z /\
    globals_but_money g g'.
Proof.
  intros Hbody es. induction es as [|e rest IH]; intros g; cbn zeta.
  - cbn [for_each fst snd]. unfold globals_but_money.
    repeat split; try reflexivity; lia.
  - cbn [for_each]. destruct (Hbody g e) as [Hdead Hg].
    destruct (body g e) as [e1 g1]. cbn [fst snd] in Hdead, Hg.
    specialize (IH g1). cbn zeta in IH.
    destruct (for_each body g1 rest) as [rest' g2]. cbn [fst snd] in *.
    destruct IH as (Hl & Hle & Hm & Hb).
    rewrite !alive_count_cons. cbn [length].
    assert (Hr : reward g1 = reward g /\ globals_but_money g g1 /\
                 money g1 = (money g + reward g *
                   ((if alive e then 1 else 0) - (if alive e1 then 1 else 0)))%Z).
    { subst g1. unfold reward, globals_but_money.
      destruct (alive e) eqn:Ha.
      - destruct (alive e1); cbn [andb negb]; fields;
          repeat split; try reflexivity; lia.
      - rewrite (Hdead eq_refl). cbn [andb]. repeat split; try reflexivity; lia. }
    destruct Hr as (Hr & Hb1 & Hm1).
    split; [now rewrite Hl|]. split.
    + destruct (alive e) eqn:Ha.
      * destruct (alive e1); lia.
      * rewrite (Hdead eq_refl). lia.
    + split.
      * rewrite Hm, Hr, Hm1. ring.
      * unfold globals_but_money in *. intuition congruence.
Qed.

(** When the body's effect on the enemy does not depend on the globals, the
    loop is a map over the array. *)
Lemma for_each_map (body : Globals -> Enemy -> Enemy * Globals) (g0 : Globals) :
  (forall g e, fst (body g e) = fst (body g0 e)) ->
  forall (es : list Enemy) (g : Globals),
    fst (for_each body g es) = map (fun e => fst (body g0 e)) es.
Proof.
  intros Hind es. induction es as [|e rest IH]; intros g; [reflexivity|].
  cbn [for_each map]. specialize (Hind g e).
  destruct (body g e) as [e1 g1]. specialize (IH g1).
  destruct (for_each body g1 rest) as [rest' g2]. cbn [fst] in *.
  now rewrite Hind, IH.
Qed.

Lemma die_pays_per_kill (g : Globals) (e : Enemy) :
  (alive e = false -> alive (fst (die g e)) = false) /\
  snd (die g e)
  = if alive e && negb (alive (fst (die g e)))
    then set_money (money g + reward g)%Z g else g.
Proof.
  unfold die, reward. destruct (alive e) eqn:Ha; cbn [negb fst snd andb]; fields;
    auto.
Qed.

Lemma takeDamage_pays_per_kill (d : R) :
  pays_per_kill (fun g e => takeDamage g d e).
Proof.
  intros g e. unfold takeDamage.
  destruct (Rleb (hp (set_hp (hp e - d) e)) 0).
  - apply (die_pays_per_kill g (set_hp (hp e - d) e)).
  - cbn [fst snd]. fields. rewrite andb_negb_r. auto.
Qed.

Lemma strike_body_pays_per_kill (tx ty aoe damage : R) :
  pays_per_kill (strike_body tx ty aoe damage).
Proof.
  intros g e. unfold strike_body.
  destruct (alive e) eqn:Ha; cbn [negb].
  - destruct (Rleb _ aoe).
    + pose proof (takeDamage_pays_per_kill damage g e) as H.
      cbn beta in H. now rewrite Ha in H.
    + cbn [fst snd]. rewrite Ha. cbn [andb negb]. auto.
  - cbn [fst snd]. rewrite Ha. auto.
Qed.

Lemma pool_touch_pays_per_kill (p : AcidPool) (dt : R) :
  pays_per_kill (pool_touch p dt).
Proof.
  intros g e. unfold pool_touch, die, applySlow, reward. fields.
  destruct (alive e) eqn:Ha; cbn [negb fst snd]; rewrite ?Ha;
    cbn [andb negb]; [|auto].
  destruct (Rleb _ (pool_radius p));
    [|cbn [fst snd]; rewrite Ha; cbn [andb negb]; split; [discriminate | reflexivity]].
  destruct (Rleb _ 0); fields; rewrite ?Ha; cbn [negb andb fst snd]; fields;
    rewrite ?Ha; cbn [negb andb]; split; try discriminate; reflexivity.
Qed.

Lemma pool_loop_for_each (p : AcidPool) (dt : R) (es : list Enemy) :
  forall g : Globals, pool_loop p dt g es = for_each (pool_touch p dt) g es.
Proof.
  induction es as [|e rest IH]; intros g; [reflexivity|].
  cbn [pool_loop for_each]. destruct (pool_touch p dt g e) as [e1 g1].
  now rewrite IH.
Qed.

(** ** Area pool *)

Lemma pool_touch_enemy (p : AcidPool) (dt : R) (g : Globals) (e : Enemy) :
  (alive e = false \/ pool_radius p < hypot (x e - pool_x p) (y e - pool_y p) ->
   fst (pool_touch p dt g e) = e) /\
  (alive e = true -> hypot (x e - pool_x p) (y e - pool_y p) <= pool_radius p ->
   hp (fst (pool_touch p dt g e)) = hp e - pool_dps p * dt /\
   slowFactor (fst (pool_touch p dt g e)) = Rmin (slowFactor e) (pool_slow p) /\
   slowTimer (fst (pool_touch p dt g e)) = Rmax (slowTimer e) (1 / 2)).
Proof.
  unfold pool_touch. split.
  - intros [Hd | Hfar].
    + now rewrite Hd.
    + destruct (alive e); [|reflexivity]. cbn [negb].
      assert (H : Rleb (hypot (x e - pool_x p) (y e - pool_y p)) (pool_radius p)
                  = false) by now apply Rleb_false.
      now rewrite H.
  - intros Ha Hin. rewrite Ha. cbn [negb].
    apply Rleb_true in Hin. rewrite Hin.
    unfold die, applySlow, js_min, js_max.
    destruct (Rleb _ 0); fields; [destruct (alive e)|]; fields; auto.
Qed.

(** X15: an [AcidPool] counts its lifetime down by [dt] per update.  An
    inactive pool changes nothing; on the update that brings the timer to 0
    or below the pool goes inactive without touching any enemy; otherwise it
    stays active, leaves dead enemies and enemies outside its radius exactly
    as they were, takes [dps * dt] hit points from every living enemy inside
    and refreshes its slow (the stronger factor, a timer of at least half a
    second), and [money] rises by the death reward once for every enemy the
    pool kills, nothing else of the globals changing. *)
Theorem pool_update_lifetime_and_payout :
  forall (g : Globals) (dt : R) (p : AcidPool) (es : list Enemy),
    let p' := fst (fst (pool_update g dt p es)) in
    let es' := snd (fst (pool_update g dt p es)) in
    let g' := snd (pool_update g dt p es) in
    (pool_alive p = false -> pool_update g dt p es = (p, es, g)) /\
    (pool_alive p = true -> pool_timer p - dt <= 0 ->
     pool_alive p' = false /\ pool_timer p' = pool_timer p - dt /\
     es' = es /\ g' = g) /\
    (pool_alive p = true -> 0 < pool_timer p - dt ->
     pool_alive p' = true /\ pool_timer p' = pool_timer p - dt /\
     es' = map (fun e => fst (pool_touch p dt g e)) es /\
     money g' = (money g + reward g * (alive_count es - alive_count es'))%Z /\
     globals_but_money g g' /\
     forall e : Enemy,
       (alive e = false \/
        pool_radius p < hypot (x e - pool_x p) (y e - pool_y p) ->
        fst (pool_touch p dt g e) = e) /\
       (alive e = true ->
        hypot (x e - pool_x p) (y e - pool_y p) <= pool_radius p ->
        hp (fst (pool_touch p dt g e)) = hp e - pool_dps p * dt /\
        slowFactor (fst (pool_touch p dt g e)) = Rmin (slowFactor e) (pool_slow p) /\
        slowTimer (fst (pool_touch p dt g e)) = Rmax (slowTimer e) (1 / 2))).
Proof.
  intros g dt p es. cbn zeta. unfold pool_update.
  split; [intros ->; reflexivity|]. split.
  - intros Ha Hexp. rewrite Ha. cbn [negb pool_timer].
    apply Rleb_true in Hexp. rewrite Hexp. cbn [fst snd pool_alive pool_timer].
    auto.
  - intros Ha Hlive. rewrite Ha. cbn [negb pool_timer].
    apply Rleb_false in Hlive. rewrite Hlive.
    set (p1 := mkAcidPool (pool_x p) (pool_y p) (pool_radius p)
                 (pool_timer p - dt) (pool_dps p) (pool_slow p) true).
    rewrite pool_loop_for_each.
    pose proof (for_each_pays _ (pool_touch_pays_per_kill p1 dt) es g) as Hpay.
    pose proof (for_each_map (pool_touch p1 dt) g
                  ltac:(intros g0 e0; unfold pool_touch, die;
                        repeat match goal with
                               | |- context [if ?c then _ else _] => destruct c
                               end; reflexivity) es g) as Hmap.
    cbn zeta in Hpay.
    destruct (for_each (pool_touch p1 dt) g es) as [es1 g1].
    cbn [fst snd] in *.
    destruct Hpay as (_ & _ & Hm & Hb).
    split; [reflexivity|]. split; [reflexivity|]. split; [exact Hmap|].
    split; [exact Hm|]. split; [exact Hb|].
    intros e. apply pool_touch_enemy.
Qed.

Lemma pool_update_lifetime_and_payout_witness :
  pool_alive (new_AcidPool 0 0 40 3 5 (6 / 10)) = true /\
  pool_timer (new_AcidPool 0 0 40 3 5 (6 / 10)) - 4 <= 0 /\
  snd (fst (pool_update sample_globals 4 (new_AcidPool 0 0 40 3 5 (6 / 10))
              [sample_enemy])) = [sample_enemy].
Proof.
  assert (Ha : pool_alive (new_AcidPool 0 0 40 3 5 (6 / 10)) = true) by reflexivity.
  assert (Ht : pool_timer (new_AcidPool 0 0 40 3 5 (6 / 10)) - 4 <= 0)
    by (cbn [new_AcidPool pool_timer]; lra).
  split; [exact Ha|]. split; [exact Ht|].
  apply (proj1 (proj2 (pool_update_lifetime_and_payout sample_globals 4
                         (new_AcidPool 0 0 40 3 5 (6 / 10)) [sample_enemy]))
           Ha Ht).
Defined.

(** ** Area strikes *)

Lemma strike_body_enemy (tx ty aoe damage : R) (g : Globals) (e : Enemy) :
  (alive e = false \/ aoe < hypot (x e - tx) (y e - ty) ->
   fst (strike_body tx ty aoe damage g e) = e) /\
  (alive e = true -> hypot (x e - tx) (y e - ty) <= aoe ->
   hp (fst (strike_body tx ty aoe damage g e)) = hp e - damage).
Proof.
  unfold strike_body. split.
  - intros [Hd | Hfar].
    + now rewrite Hd.
    + destruct (alive e); [|reflexivity]. cbn [negb].
      assert (H : Rleb (hypot (x e - tx) (y e - ty)) aoe = false)
        by now apply Rleb_false.
      now rewrite H.
  - intros Ha Hin. rewrite Ha. cbn [negb].
    apply Rleb_true in Hin. rewrite Hin. apply takeDamage_hp.
Qed.

Lemma strike_body_indep (tx ty aoe damage : R) (g0 g : Globals) (e : Enemy) :
  fst (strike_body tx ty aoe damage g e) = fst (strike_body tx ty aoe damage g0 e).
Proof.
  unfold strike_body, takeDamage, die.
  repeat match goal with
         | |- context [if ?c then _ else _] => destruct c
         end; reflexivity.
Qed.

Lemma findNearestEnemy_some_alive (qx qy range : R) (es : list Enemy)
  (r : Enemy) :
  findNearestEnemy qx qy range es = Some r -> In r es /\ alive r = true.
Proof.
  unfold findNearestEnemy. intros Hf.
  pose proof (findNearest_loop_spec qx qy range es None PosInf I) as Hspec.
  rewrite Hf in Hspec.
  destruct Hspec as [[Hbest _] | [(l1 & l2 & -> & [Hal _] & _) _]];
    [discriminate|].
  split; [apply in_or_app; right; now left | exact Hal].
Qed.

(** X16: [PteranodonTower.update].  While its cooldown, lowered by
    [dt * gameSpeed], is still positive the tower touches neither enemies nor
    globals (so a paused tower on cooldown stays frozen); when ready with no
    living enemy in range it does nothing either and does not reset its
    cooldown.  When ready with a nearest enemy, the cooldown is reset to the
    fire rate, that enemy loses [damage] hit points, as does every living
    enemy within [aoe] of it, dead enemies and enemies farther away are left
    exactly as they were, and [money] rises by the death reward once per
    enemy killed. *)
Theorem pteranodon_update_strike :
  forall (g : Globals) (dt : R) (t : PteranodonTower) (es : list Enemy),
    let cd := pt_cooldown t - dt * gameSpeed g in
    let t' := fst (fst (pteranodon_update g dt t es)) in
    let es' := snd (fst (pteranodon_update g dt t es)) in
    let g' := snd (pteranodon_update g dt t es) in
    (0 < cd -> pteranodon_update g dt t es = (pt_set_cooldown cd t, es, g)) /\
    (gameSpeed g = 0 -> 0 < pt_cooldown t ->
     es' = es /\ g' = g /\ pt_cooldown t' = pt_cooldown t) /\
    (cd <= 0 ->
     findNearestEnemy (pt_x t) (pt_y t) (pt_range t) es = None ->
     pteranodon_update g dt t es = (pt_set_cooldown cd t, es, g)) /\
    (cd <= 0 -> 0 <= pt_aoe t ->
     forall target : Enemy,
       findNearestEnemy (pt_x t) (pt_y t) (pt_range t) es = Some target ->
       let hit := fun e =>
         fst (strike_body (x target) (y target) (pt_aoe t) (pt_damage t) g e) in
       pt_cooldown t' = pt_fireRate t /\
       es' = map hit es /\
       In target es /\ hp (hit target) = hp target - pt_damage t /\
       (forall e : Enemy,
          alive e = true ->
          hypot (x e - x target) (y e - y target) <= pt_aoe t ->
          hp (hit e) = hp e - pt_damage t) /\
       (forall e : Enemy,
          alive e = false \/
          pt_aoe t < hypot (x e - x target) (y e - y target) ->
          hit e = e) /\
       money g' = (money g + reward g * (alive_count es - alive_count es'))%Z /\
       globals_but_money g g').
Proof.
  intros g dt t es. cbn zeta. unfold pteranodon_update.
  cbn [pt_cooldown pt_set_cooldown pt_x pt_y pt_range pt_aoe pt_damage pt_fireRate].
  split; [|split; [|split]].
  - intros Hcd. apply Rgtb_true in Hcd. now rewrite Hcd.
  - intros Hp Hcd. rewrite Hp.
    assert (H : Rgtb (pt_cooldown t - dt * 0) 0 = true) by (apply Rgtb_true; lra).
    rewrite H. cbn [fst snd pt_cooldown pt_set_cooldown].
    repeat split; try reflexivity. lra.
  - intros Hcd Hnone. apply Rgtb_false in Hcd. now rewrite Hcd, Hnone.
  - intros Hcd Haoe target Hsome. apply Rgtb_false in Hcd. rewrite Hcd, Hsome.
    pose proof (for_each_pays _
      (strike_body_pays_per_kill (x target) (y target) (pt_aoe t) (pt_damage t))
      es g) as Hpay.
    pose proof (for_each_map
      (strike_body (x target) (y target) (pt_aoe t) (pt_damage t)) g
      (fun g0 e0 => strike_body_indep _ _ _ _ g g0 e0) es g) as Hmap.
    cbn zeta in Hpay.
    destruct (for_each _ g es) as [es1 g1]. cbn [fst snd pt_cooldown] in *.
    destruct Hpay as (_ & _ & Hm & Hb).
    destruct (findNearestEnemy_some_alive _ _ _ _ _ Hsome) as (Hin & Hal).
    split; [reflexivity|]. split; [exact Hmap|]. split; [exact Hin|].
    assert (Hall : forall e : Enemy, alive e = true ->
              hypot (x e - x target) (y e - y target) <= pt_aoe t ->
              hp (fst (strike_body (x target) (y target) (pt_aoe t)
                         (pt_damage t) g e)) = hp e - pt_damage t).
    { intros e. apply strike_body_enemy. }
    split.
    { apply Hall; [exact Hal|].
      rewrite (proj2 (hypot_eq_0 _ _)) by (split; ring). exact Haoe. }
    split; [exact Hall|].
    split; [intros e; apply strike_body_enemy|].
    split; [exact Hm | exact Hb].
Qed.

Lemma pteranodon_update_strike_witness :
  0 < pt_cooldown (pt_set_cooldown 1 (new_PteranodonTower 50 50))
      - 1 / 60 * gameSpeed sample_globals /\
  snd (fst (pteranodon_update sample_globals (1 / 60)
              (pt_set_cooldown 1 (new_PteranodonTower 50 50)) lane_enemies))
  = lane_enemies.
Proof.
  assert (Hcd : 0 < pt_cooldown (pt_set_cooldown 1 (new_PteranodonTower 50 50))
                    - 1 / 60 * gameSpeed sample_globals).
  { cbn [pt_cooldown pt_set_cooldown sample_globals gameSpeed]. lra. }
  split; [exact Hcd|].
  rewrite (proj1 (pteranodon_update_strike sample_globals (1 / 60)
                    (pt_set_cooldown 1 (new_PteranodonTower 50 50)) lane_enemies)
             Hcd).
  reflexivity.
Defined.

(** ** Highest-hit-points target *)

Lemma highestHp_loop_spec (es : list Enemy) :
  forall (target : option Enemy) (bestHp : R),
    match target with Some b => bestHp = hp b | None => True end ->
    match highestHp_loop es target bestHp with
    | None => target = None /\
              forall e, In e es -> alive e = true -> hp e <= bestHp
    | Some r =>
        (target = Some r /\
         forall e, In e es -> alive e = true -> hp e <= hp r) \/
        (bestHp < hp r /\
         exists l1 l2 : list Enemy,
           es = l1 ++ r :: l2 /\ alive r = true /\
           (forall e, In e l1 -> alive e = true -> hp e < hp r) /\
           (forall e, In e l2 -> alive e = true -> hp e <= hp r))
    end.
Proof.
  induction es as [|e rest IH]; intros target bestHp Hc; cbn [highestHp_loop].
  - destruct target as [b|]; [left; split; [reflexivity | intros ? []]|].
    split; [reflexivity | intros ? []].
  - destruct (alive e) eqn:Ha; cbn [negb].
    + destruct (Rgtb (hp e) bestHp) eqn:Hgt.
      * apply Rgtb_true in Hgt.
        specialize (IH (Some e) (hp e) eq_refl).
        destruct (highestHp_loop rest (Some e) (hp e)) as [r|];
          [|destruct IH; discriminate].
        right.
        destruct IH as [[Hbest Hmax] | (Hlt & l1 & l2 & -> & Hal & H1 & H2)].
        -- injection Hbest as <-. split; [exact Hgt|].
           exists [], rest. repeat split; auto. intros ? [].
        -- split; [lra|]. exists (e :: l1), l2. repeat split; auto.
           intros e0 [<- | Hin] He0; auto.
      * apply Rgtb_false in Hgt.
        specialize (IH target bestHp Hc).
        destruct (highestHp_loop rest target bestHp) as [r|].
        -- destruct IH as [[Hbest Hmax] | (Hlt & l1 & l2 & -> & Hal & H1 & H2)].
           ++ left. split; [exact Hbest|]. subst target. cbn in Hc.
              intros e0 [<- | Hin] He0; [lra | auto].
           ++ right. split; [exact Hlt|]. exists (e :: l1), l2.
              repeat split; auto. intros e0 [<- | Hin] He0; [lra | auto].
        -- destruct IH as [Hbest Hall]. split; [exact Hbest|].
           intros e0 [<- | Hin] He0; [lra | auto].
    + specialize (IH target bestHp Hc).
      destruct (highestHp_loop rest target bestHp) as [r|].
      * destruct IH as [[Hbest Hmax] | (Hlt & l1 & l2 & -> & Hal & H1 & H2)].
        -- left. split; [exact Hbest|].
           intros e0 [<- | Hin] He0; [congruence | auto].
        -- right. split; [exact Hlt|]. exists (e :: l1), l2.
           repeat split; auto. intros e0 [<- | Hin] He0; [congruence | auto].
      * destruct IH as [Hbest Hall]. split; [exact Hbest|].
        intros e0 [<- | Hin] He0; [congruence | auto].
Qed.

(** X17: the target search of [QuetzalcoatlusTower.update] returns a living
    enemy whose hit points are above [-1] and are the highest of all living
    enemies, every living enemy before it in the array having strictly less
    (ties go to the first); it finds no target exactly when no living enemy
    has more than [-1] hit points.  Range plays no part. *)
Theorem findHighestHp_first_highest :
  forall es : list Enemy,
    (forall r : Enemy,
        findHighestHp es = Some r ->
        In r es /\ alive r = true /\ -1 < hp r /\
        (forall e, In e es -> alive e = true -> hp e <= hp r) /\
        exists l1 l2 : list Enemy,
          es = l1 ++ r :: l2 /\
          forall e, In e l1 -> alive e = true -> hp e < hp r) /\
    (findHighestHp es = None <->
     forall e, In e es -> alive e = true -> hp e <= -1).
Proof.
  intros es. unfold findHighestHp.
  pose proof (highestHp_loop_spec es None (-1) I) as Hspec.
  destruct (highestHp_loop es None (-1)) as [r0|].
  - destruct Hspec as [[Hbest _] | (Hlt & l1 & l2 & Hes & Hal & H1 & H2)];
      [discriminate|].
    split.
    + intros r [= <-].
      split; [rewrite Hes; apply in_or_app; right; now left|].
      split; [exact Hal|]. split; [exact Hlt|]. split.
      * intros e Hin He. rewrite Hes in Hin.
        apply in_app_or in Hin. destruct Hin as [Hin | [<- | Hin]].
        -- specialize (H1 e Hin He); lra.
        -- lra.
        -- now apply H2.
      * exists l1, l2. split; [exact Hes | exact H1].
    + split; [discriminate|].
      intros Hnone. exfalso.
      assert (Hin : In r0 es) by (rewrite Hes; apply in_or_app; right; now left).
      specialize (Hnone r0 Hin Hal). lra.
  - destruct Hspec as [_ Hnone]. split; [discriminate|].
    split; auto.
Qed.

Lemma findHighestHp_first_highest_witness :
  (forall e, In e [dead_enemy] -> alive e = true -> hp e <= -1) /\
  findHighestHp [dead_enemy] = None.
Proof.
  assert (H : forall e, In e [dead_enemy] -> alive e = true -> hp e <= -1).
  { intros e [<- | []] Ha. discriminate. }
  split; [exact H|].
  apply (proj2 (proj2 (findHighestHp_first_highest [dead_enemy]))). exact H.
Defined.

Lemma findHighestHp_some_alive (es : list Enemy) (r : Enemy) :
  findHighestHp es = Some r -> In r es /\ alive r = true.
Proof.
  unfold findHighestHp. intros Hf.
  pose proof (highestHp_loop_spec es None (-1) I) as Hspec.
  rewrite Hf in Hspec.
  destruct Hspec as [[Hbest _] | (_ & l1 & l2 & -> & Hal & _)];
    [discriminate|].
  split; [apply in_or_app; right; now left | exact Hal].
Qed.

(** X18: [QuetzalcoatlusTower.update] strikes wherever the strongest enemy
    is.  While the lowered cooldown is positive nothing but the cooldown
    changes; when ready and a living enemy with more than [-1] hit points
    exists, the one [findHighestHp] picks loses [damage] hit points however
    far from the tower it is, every living enemy within [aoe] of it loses
    [damage] too, the rest are untouched, the cooldown is reset to the fire
    rate and [money] rises by the reward once per enemy killed. *)
Theorem quetzalcoatlus_update_strike :
  forall (g : Globals) (dt : R) (t : QuetzalcoatlusTower) (es : list Enemy),
    let cd := qz_cooldown t - dt * gameSpeed g in
    let t' := fst (fst (quetzalcoatlus_update g dt t es)) in
    let es' := snd (fst (quetzalcoatlus_update g dt t es)) in
    let g' := snd (quetzalcoatlus_update g dt t es) in
    (0 < cd ->
     quetzalcoatlus_update g dt t es = (qz_set_cooldown cd t, es, g)) /\
    (cd <= 0 -> findHighestHp es = None ->
     quetzalcoatlus_update g dt t es = (qz_set_cooldown cd t, es, g)) /\
    (cd <= 0 -> 0 <= qz_aoe t ->
     forall target : Enemy,
       findHighestHp es = Some target ->
       let hit := fun e =>
         fst (strike_body (x target) (y target) (qz_aoe t) (qz_damage t) g e) in
       qz_cooldown t' = qz_fireRate t /\
       es' = map hit es /\
       In target es /\ hp (hit target) = hp target - qz_damage t /\
       (forall e : Enemy,
          alive e = true ->
          hypot (x e - x target) (y e - y target) <= qz_aoe t ->
          hp (hit e) = hp e - qz_damage t) /\
       (forall e : Enemy,
          alive e = false \/
          qz_aoe t < hypot (x e - x target) (y e - y target) ->
          hit e = e) /\
       money g' = (money g + reward g * (alive_count es - alive_count es'))%Z /\
       globals_but_money g g').
Proof.
  intros g dt t es. cbn zeta. unfold quetzalcoatlus_update.
  cbn [qz_cooldown qz_set_cooldown qz_x qz_y qz_range qz_aoe qz_damage qz_fireRate].
  split; [|split].
  - intros Hcd. apply Rgtb_true in Hcd. now rewrite Hcd.
  - intros Hcd Hnone. apply Rgtb_false in Hcd. now rewrite Hcd, Hnone.
  - intros Hcd Haoe target Hsome. apply Rgtb_false in Hcd. rewrite Hcd, Hsome.
    pose proof (for_each_pays _
      (strike_body_pays_per_kill (x target) (y target) (qz_aoe t) (qz_damage t))
      es g) as Hpay.
    pose proof (for_each_map
      (strike_body (x target) (y target) (qz_aoe t) (qz_damage t)) g
      (fun g0 e0 => strike_body_indep _ _ _ _ g g0 e0) es g) as Hmap.
    cbn zeta in Hpay.
    destruct (for_each _ g es) as [es1 g1].
    cbn [fst snd qz_cooldown qz_set_cooldown] in *.
    destruct Hpay as (_ & _ & Hm & Hb).
    destruct (findHighestHp_some_alive _ _ Hsome) as (Hin & Hal).
    split; [reflexivity|]. split; [exact Hmap|]. split; [exact Hin|].
    assert (Hall : forall e : Enemy, alive e = true ->
              hypot (x e - x target) (y e - y target) <= qz_aoe t ->
              hp (fst (strike_body (x target) (y target) (qz_aoe t)
                         (qz_damage t) g e)) = hp e - qz_damage t).
    { intros e. apply strike_body_enemy. }
    split.
    { apply Hall; [exact Hal|].
      rewrite (proj2 (hypot_eq_0 _ _)) by (split; ring). exact Haoe. }
    split; [exact Hall|].
    split; [intros e; apply strike_body_enemy|].
    split; [exact Hm | exact Hb].
Qed.

Lemma quetzalcoatlus_update_strike_witness :
  0 < qz_cooldown (qz_set_cooldown 1 (new_QuetzalcoatlusTower 50 50))
      - 1 / 60 * gameSpeed sample_globals /\
  snd (fst (quetzalcoatlus_update sample_globals (1 / 60)
              (qz_set_cooldown 1 (new_QuetzalcoatlusTower 50 50)) lane_enemies))
  = lane_enemies.
Proof.
  assert (Hcd : 0 < qz_cooldown (qz_set_cooldown 1 (new_QuetzalcoatlusTower 50 50))
                    - 1 / 60 * gameSpeed sample_globals).
  { cbn [qz_cooldown qz_set_cooldown sample_globals gameSpeed]. lra. }
  split; [exact Hcd|].
  rewrite (proj1 (quetzalcoatlus_update_strike sample_globals (1 / 60)
                    (qz_set_cooldown 1 (new_QuetzalcoatlusTower 50 50))
                    lane_enemies) Hcd).
  reflexivity.
Defined.

(** ** Rush strike: every enemy is hit at most once *)

Lemma hitSet_has_In (hs : list nat) (i : nat) :
  hitSet_has hs i = true <-> In i hs.
Proof.
  unfold hitSet_has. rewrite existsb_exists. split.
  - intros (j & Hin & Heq). apply Nat.eqb_eq in Heq. now subst.
  - intros Hin. exists i. split; [exact Hin | apply Nat.eqb_refl].
Qed.

Lemma hit_at_most_once_mono (d : R) (hs hs' : list nat) (e0 e : Enemy) :
  incl hs hs' -> hit_at_most_once d hs e0 e -> hit_at_most_once d hs' e0 e.
Proof.
  unfold hit_at_most_once. intros Hi [Hid [Hh | [Hh Hin]]]; auto.
Qed.

Lemma takeDamage_keeps (g : Globals) (d : R) (e : Enemy) :
  id (fst (takeDamage g d e)) = id e /\
  path (fst (takeDamage g d e)) = path e /\
  waypoint (fst (takeDamage g d e)) = waypoint e.
Proof.
  unfold takeDamage, die. destruct (Rleb _ 0); fields; [destruct (alive e)|];
    fields; auto.
Qed.

(** The enemy a hit leaves behind: damaged once, same id, still on its
    path. *)
Lemma rush_hit_enemy (g : Globals) (r : RushStrike) (e e3 : Enemy) :
  knockback (rs_knockback r)
    (applyStun (rs_stunDur r) (fst (takeDamage g (rs_damage r) e))) = Some e3 ->
  id e3 = id e /\ hp e3 = hp e - rs_damage r /\ path e3 = path e /\
  (waypoint e3 <= waypoint e)%nat.
Proof.
  intros Hk. destruct (knockback_keeps _ _ _ Hk) as (Hi & Hh & _ & Hw).
  destruct Hi as (Hid & _ & _ & _ & _ & Hp & _).
  destruct (takeDamage_keeps g (rs_damage r) e) as (Tid & Tp & Tw).
  pose proof (takeDamage_hp g (rs_damage r) e) as Th.
  unfold applyStun in *. fields.
  repeat split; try congruence. destruct Hw as [Hw | Hw]; lia.
Qed.

Lemma rush_loop_hits_once (es : list Enemy) :
  forall (g : Globals) (r : RushStrike) (hs : list nat) (es0 : list Enemy)
         (es' : list Enemy) (hs' : list nat) (g' : Globals),
    Forall2 (hit_at_most_once (rs_damage r) hs) es0 es ->
    rush_loop g r hs es = Some (es', hs', g') ->
    Forall2 (hit_at_most_once (rs_damage r) hs') es0 es' /\ incl hs hs'.
Proof.
  induction es as [|e rest IH]; intros g r hs es0 es' hs' g' Hinv Hloop.
  - cbn [rush_loop] in Hloop. injection Hloop as <- <- <-.
    split; [exact Hinv | apply incl_refl].
  - inversion Hinv as [|e0 ? rest0 ? He Hrest]; subst.
    cbn [rush_loop] in Hloop.
    assert (Hskip : forall g0,
      match rush_loop g0 r hs rest with
      | Some (rest', hs'0, g'0) => Some (e :: rest', hs'0, g'0)
      | None => None
      end = Some (es', hs', g') ->
      Forall2 (hit_at_most_once (rs_damage r) hs') (e0 :: rest0) es' /\
      incl hs hs').
    { intros g0 H.
      destruct (rush_loop g0 r hs rest) as [[[rest' hs1] g1]|] eqn:Hl;
        [|discriminate].
      injection H as <- <- <-.
      destruct (IH _ _ _ _ _ _ _ Hrest Hl) as [Hf Hi].
      split; [|exact Hi]. constructor; [|exact Hf].
      now apply (hit_at_most_once_mono _ hs). }
    destruct (alive e); cbn [negb] in Hloop; [|now apply (Hskip g)].
    destruct (hitSet_has hs (id e)) eqn:Hhas; [now apply (Hskip g)|].
    destruct (Rltb _ 18); [|now apply (Hskip g)].
    destruct (takeDamage g (rs_damage r) e) as [e1 g1] eqn:Htd.
    destruct (knockback _ _) as [e3|] eqn:Hk; [|discriminate].
    destruct (rush_loop g1 r (id e3 :: hs) rest) as [[[rest' hs1] g2]|] eqn:Hl;
      [|discriminate].
    injection Hloop as <- <- <-.
    assert (Hk' : knockback (rs_knockback r)
              (applyStun (rs_stunDur r) (fst (takeDamage g (rs_damage r) e)))
              = Some e3) by now rewrite Htd.
    destruct (rush_hit_enemy _ _ _ _ Hk') as (Hid & Hhp & _).
    assert (Hrest' : Forall2 (hit_at_most_once (rs_damage r) (id e3 :: hs))
                       rest0 rest).
    { eapply Forall2_impl; [|exact Hrest].
      intros a b. apply hit_at_most_once_mono. now apply incl_tl. }
    destruct (IH _ _ _ _ _ _ _ Hrest' Hl) as [Hf Hi].
    split; [|intros i Hin; apply Hi; now right].
    constructor; [|exact Hf].
    destruct He as [He_id [He_hp | [_ Hin]]].
    + split; [congruence|]. right. split; [lra|].
      apply Hi. left. congruence.
    + exfalso. rewrite <- He_id in Hin. apply hitSet_has_In in Hin. congruence.
Qed.

Lemma rush_loop_total (es : list Enemy) :
  forall (g : Globals) (r : RushStrike) (hs : list nat),
    on_their_paths es ->
    exists (es' : list Enemy) (hs' : list nat) (g' : Globals),
      rush_loop g r hs es = Some (es', hs', g') /\ on_their_paths es'.
Proof.
  unfold on_their_paths.
  induction es as [|e rest IH]; intros g r hs Hwf.
  - exists [], hs, g. split; [reflexivity | constructor].
  - inversion Hwf as [|? ? He Hrest]; subst. cbn [rush_loop].
    assert (Hskip : forall g0 hs0,
      exists es' hs' g',
        match rush_loop g0 r hs0 rest with
        | Some (rest', hs'0, g'0) => Some (e :: rest', hs'0, g'0)
        | None => None
        end = Some (es', hs', g') /\
        Forall (fun e => (waypoint e < length (path e))%nat) es').
    { intros g0 hs0. destruct (IH g0 r hs0 Hrest) as (rest' & hs1 & g1 & Hl & Hw).
      rewrite Hl. exists (e :: rest'), hs1, g1. split; [reflexivity|].
      now constructor. }
    destruct (alive e); cbn [negb]; [|apply Hskip].
    destruct (hitSet_has hs (id e)); [apply Hskip|].
    destruct (Rltb _ 18); [|apply Hskip].
    destruct (takeDamage g (rs_damage r) e) as [e1 g1] eqn:Htd.
    destruct (knockback (rs_knockback r) (applyStun (rs_stunDur r) e1))
      as [e3|] eqn:Hk.
    + assert (Hk' : knockback (rs_knockback r)
                (applyStun (rs_stunDur r) (fst (takeDamage g (rs_damage r) e)))
                = Some e3) by now rewrite Htd.
      destruct (rush_hit_enemy _ _ _ _ Hk') as (_ & _ & Hp & Hw).
      destruct (IH g1 r (id e3 :: hs) Hrest) as (rest' & hs1 & g2 & Hl & Hwf').
      rewrite Hl. exists (e3 :: rest'), hs1, g2. split; [reflexivity|].
      constructor; [rewrite Hp; lia | exact Hwf'].
    + exfalso.
      apply knockback_none_iff in Hk.
      destruct (takeDamage_keeps g (rs_damage r) e) as (_ & Tp & Tw).
      rewrite Htd in Tp, Tw. cbn [fst] in Tp, Tw.
      unfold applyStun in Hk. fields. rewrite Tp, Tw in Hk. lia.
Qed.

Lemma rush_update_damage (g : Globals) (dt : R) (r r' : RushStrike)
  (es es' : list Enemy) (g' : Globals) :
  rush_update g dt r es = Some (r', es', g') -> rs_damage r' = rs_damage r.
Proof.
  unfold rush_update. destruct (rs_alive r); cbn [negb].
  - destruct (rush_loop _ _ _ _) as [[[es1 hs1] g1]|]; [|discriminate].
    intros [= <- _ _]. destruct (Rleb _ 0); reflexivity.
  - now intros [= <- _ _].
Qed.

Lemma rush_update_hits_once (g : Globals) (dt : R) (r r' : RushStrike)
  (d : R) (es0 es es' : list Enemy) (g' : Globals) :
  d = rs_damage r ->
  Forall2 (hit_at_most_once d (rs_hitSet r)) es0 es ->
  rush_update g dt r es = Some (r', es', g') ->
  Forall2 (hit_at_most_once d (rs_hitSet r')) es0 es'.
Proof.
  intros -> Hinv. unfold rush_update. destruct (rs_alive r); cbn [negb].
  - destruct (rush_loop _ _ _ _) as [[[es1 hs1] g1]|] eqn:Hl; [|discriminate].
    intros [= <- <- <-].
    destruct (rush_loop_hits_once es g (rush_advance g dt r) _ es0 _ _ _ Hinv Hl)
      as [Hf _].
    destruct (Rleb _ 0); exact Hf.
  - now intros [= <- <- <-].
Qed.

(** X19: over any number of frames a [RushStrike] damages each enemy at
    most once: after any run of [update] calls that starts with an empty hit
    set, every enemy of the array still has its id and has lost either
    nothing or exactly one [damage].  The run does not throw when every
    enemy's waypoint index lies inside its path. *)
Theorem rush_strike_hits_each_enemy_once :
  forall (dts : list R) (g : Globals) (r : RushStrike) (es : list Enemy),
    rs_hitSet r = [] ->
    (on_their_paths es -> exists res, rush_run g dts r es = Some res) /\
    (forall (r' : RushStrike) (es' : list Enemy) (g' : Globals),
        rush_run g dts r es = Some (r', es', g') ->
        Forall2 (fun e0 e =>
                   id e = id e0 /\
                   (hp e = hp e0 \/ hp e = hp e0 - rs_damage r)) es es').
Proof.
  intros dts g r es Hfresh. split.
  - clear Hfresh. revert g r es.
    induction dts as [|dt rest IH]; intros g r es Hwf; cbn [rush_run].
    + now eexists.
    + unfold rush_update. destruct (rs_alive r); cbn [negb].
      * destruct (rush_loop_total es g (rush_advance g dt r)
                    (rs_hitSet (rush_advance g dt r)) Hwf)
          as (es1 & hs1 & g1 & Hl & Hwf1).
        rewrite Hl. now apply IH.
      * now apply IH.
  - assert (Hgen : forall dts g r es0 es r' es' g',
              Forall2 (hit_at_most_once (rs_damage r) (rs_hitSet r)) es0 es ->
              rush_run g dts r es = Some (r', es', g') ->
              Forall2 (hit_at_most_once (rs_damage r) (rs_hitSet r')) es0 es').
    { clear. induction dts as [|dt rest IH];
        intros g r es0 es r' es' g' Hinv Hrun; cbn [rush_run] in Hrun.
      - now injection Hrun as <- <- <-.
      - destruct (rush_update g dt r es) as [[[r1 es1] g1]|] eqn:Hu;
          [|discriminate].
        pose proof (rush_update_damage _ _ _ _ _ _ _ Hu) as Hd.
        pose proof (rush_update_hits_once _ _ _ _ _ _ _ _ _ eq_refl Hinv Hu) as H1.
        rewrite <- Hd in H1. rewrite <- Hd. eapply IH; eassumption. }
    intros r' es' g' Hrun.
    assert (Hinit : Forall2 (hit_at_most_once (rs_damage r) (rs_hitSet r)) es es).
    { clear. induction es; constructor; auto.
      unfold hit_at_most_once. auto. }
    pose proof (Hgen _ _ _ _ _ _ _ _ Hinit Hrun) as Hfin.
    eapply Forall2_impl; [|exact Hfin].
    intros a b [Hid [Hh | [Hh _]]]; auto.
Qed.

Lemma rush_strike_hits_each_enemy_once_witness :
  rs_hitSet (new_RushStrike 0 0 0 600 160 (8 / 10) 60 12) = [] /\
  on_their_paths lane_enemies /\
  exists res,
    rush_run sample_globals [1 / 60; 1 / 60]
      (new_RushStrike 0 0 0 600 160 (8 / 10) 60 12) lane_enemies = Some res.
Proof.
  assert (Hf : rs_hitSet (new_RushStrike 0 0 0 600 160 (8 / 10) 60 12) = [])
    by reflexivity.
  assert (Hw : on_their_paths lane_enemies).
  { unfold on_their_paths, lane_enemies, lane_enemy, lane_path.
    repeat constructor; cbn; lia. }
  split; [exact Hf|]. split; [exact Hw|].
  apply (proj1 (rush_strike_hits_each_enemy_once [1 / 60; 1 / 60] sample_globals
                  _ lane_enemies Hf) Hw).
Defined.

(** X20: a [RushStrike] never travels farther than the distance it has
    left.  One [update] of an active strike with [left >= 0] at a speed that
    is not negative moves it by exactly [min(left, speed * dt * gameSpeed)]
    along its heading, lowers [left] by the same amount (never below 0), and
    deactivates the strike exactly when [left] has reached 0; an inactive
    strike changes nothing. *)
Theorem rush_update_travel :
  forall (g : Globals) (dt : R) (r r' : RushStrike) (es es' : list Enemy)
         (g' : Globals),
    rush_update g dt r es = Some (r', es', g') ->
    (rs_alive r = false -> r' = r /\ es' = es /\ g' = g) /\
    (rs_alive r = true -> 0 <= rs_left r ->
     0 <= rs_speed r * dt * gameSpeed g ->
     let step := Rmin (rs_left r) (rs_speed r * dt * gameSpeed g) in
     rs_left r' = rs_left r - step /\ 0 <= rs_left r' <= rs_left r /\
     rs_x r' = rs_x r + cos (rs_angle r) * step /\
     rs_y r' = rs_y r + sin (rs_angle r) * step /\
     hypot (rs_x r' - rs_x r) (rs_y r' - rs_y r) = step /\
     (rs_alive r' = false <-> rs_left r <= rs_speed r * dt * gameSpeed g)).
Proof.
  intros g dt r r' es es' g'. unfold rush_update.
  destruct (rs_alive r) eqn:Ha; cbn [negb].
  - destruct (rush_loop _ _ _ _) as [[[es1 hs1] g1]|]; [|discriminate].
    intros [= <- <- <-]. split; [discriminate|].
    intros _ Hleft Hspeed. cbn zeta.
    set (step := Rmin (rs_left r) (rs_speed r * dt * gameSpeed g)).
    assert (Hstep : 0 <= step <= rs_left r /\
                    (rs_left r - step <= 0 <->
                     rs_left r <= rs_speed r * dt * gameSpeed g)).
    { unfold step, Rmin. destruct (Rle_dec _ _); split; try split; lra. }
    destruct Hstep as [Hs Hiff].
    unfold rush_advance, js_min. fold step. rewrite Ha.
    assert (Hhyp : hypot (rs_x r + cos (rs_angle r) * step - rs_x r)
                         (rs_y r + sin (rs_angle r) * step - rs_y r) = step).
    { replace (rs_x r + cos (rs_angle r) * step - rs_x r)
        with (cos (rs_angle r) * step) by ring.
      replace (rs_y r + sin (rs_angle r) * step - rs_y r)
        with (sin (rs_angle r) * step) by ring.
      unfold hypot.
      replace (cos (rs_angle r) * step * (cos (rs_angle r) * step)
               + sin (rs_angle r) * step * (sin (rs_angle r) * step))
        with (Rsqr step).
      - apply sqrt_Rsqr. lra.
      - pose proof (sin2_cos2 (rs_angle r)) as Hsc. unfold Rsqr in *.
        transitivity (step * step * (sin (rs_angle r) * sin (rs_angle r)
                                     + cos (rs_angle r) * cos (rs_angle r))).
        + rewrite Hsc. ring.
        + ring. }
    cbn [rs_left rs_x rs_y rs_alive rs_angle rs_speed rs_stunDur rs_knockback
         rs_damage rs_hitSet].
    destruct (Rleb (rs_left r - step) 0) eqn:Hz;
      cbn [rs_left rs_x rs_y rs_alive rs_angle rs_speed rs_stunDur rs_knockback
           rs_damage rs_hitSet].
    + apply Rleb_true in Hz.
      repeat split; try reflexivity; try lra; try exact Hhyp;
        try (intros _; now apply Hiff).
    + apply Rleb_false in Hz.
      repeat split; try reflexivity; try lra; try exact Hhyp; try discriminate;
        try (intros Hle; apply Hiff in Hle; lra).
  - intros [= <- <- <-]. split; [auto | discriminate].
Qed.

Lemma rush_update_travel_witness :
  rush_update sample_globals (1 / 60)
    (mkRush 0 0 0 600 160 (8 / 10) 60 12 false []) lane_enemies
  = Some (mkRush 0 0 0 600 160 (8 / 10) 60 12 false [], lane_enemies,
          sample_globals) /\
  snd (fst (mkRush 0 0 0 600 160 (8 / 10) 60 12 false [], lane_enemies,
            sample_globals)) = lane_enemies.
Proof.
  assert (H : rush_update sample_globals (1 / 60)
                (mkRush 0 0 0 600 160 (8 / 10) 60 12 false []) lane_enemies
              = Some (mkRush 0 0 0 600 160 (8 / 10) 60 12 false [], lane_enemies,
                      sample_globals)) by reflexivity.
  split; [exact H|].
  apply (proj1 (rush_update_travel _ _ _ _ _ _ _ H) eq_refl).
Defined.

(** ** Waves *)

Lemma minibosses_app (l l' : list Spawned) :
  minibosses (l ++ l') = (minibosses l + minibosses l')%nat.
Proof. unfold minibosses; now rewrite filter_app, length_app. Qed.

Lemma run_ticks_boss (rolls : list (R * R)) :
  forall st : WaveState,
    timerOn st = true ->
    (spawned st <= count st)%Z ->
    (count st - spawned st < Z.of_nat (length rolls))%Z ->
    let st' := run_ticks rolls st in
    minibosses (pushed st')
      = (minibosses (pushed st) + if miniboss_due (wave st) then 1 else 0)%nat /\
    length (pushed st')
      = (length (pushed st) + Z.to_nat (count st - spawned st)
         + if miniboss_due (wave st) then 1 else 0)%nat /\
    timerOn st' = false /\ wave st' = wave st /\ wmoney st' = wmoney st.
Proof.
  induction rolls as [|[r1 r2] rest IH]; intros st Hon Hle Hlen; cbn zeta.
  - cbn [length] in Hlen. lia.
  - cbn [run_ticks]. unfold spawn_tick. rewrite Hon. cbn [negb].
    destruct (count st <=? spawned st)%Z eqn:Hdone.
    + apply Z.leb_le in Hdone.
      rewrite run_ticks_off by reflexivity.
      cbn [pushed timerOn wave wmoney].
      rewrite minibosses_app, length_app.
      replace (count st - spawned st)%Z with 0%Z by lia.
      unfold miniboss_due.
      destruct (_ && _); cbn; repeat split; lia.
    + apply Z.leb_gt in Hdone.
      match goal with |- context [run_ticks rest ?s] => set (st1 := s) end.
      assert (Hlen' : (count st1 - spawned st1 < Z.of_nat (length rest))%Z).
      { unfold st1; cbn [count spawned]. cbn [length] in Hlen. lia. }
      destruct (IH st1 eq_refl ltac:(unfold st1; cbn [count spawned]; lia) Hlen')
        as (Hb & Hl & Hoff & Hw & Hm).
      rewrite Hb, Hl, Hoff, Hw, Hm.
      unfold st1; cbn [pushed count spawned wave wmoney].
      rewrite minibosses_app, length_app.
      assert (Hone : forall k h s r, is_miniboss (mkSpawned
                 (if k : bool then SteamElite else if h : bool then Elite else Regular)
                 s r (if k then 12 else 10)) = false).
      { intros [] [] ? ?; reflexivity. }
      unfold minibosses at 2. cbn [filter]. rewrite Hone. cbn [length].
      replace (count st - spawned st)%Z with (Z.succ (count st - (spawned st + 1)))%Z
        by lia.
      rewrite Z2Nat.inj_succ by lia. repeat split; lia.
Qed.

(** The order in which the callback pushes: the enemies still owed, none
    of them a miniboss, and then the miniboss when one is due. *)
Lemma run_ticks_order (rolls : list (R * R)) :
  forall st : WaveState,
    timerOn st = true ->
    (spawned st <= count st)%Z ->
    (count st - spawned st < Z.of_nat (length rolls))%Z ->
    exists regs tail : list Spawned,
      pushed (run_ticks rolls st) = pushed st ++ regs ++ tail /\
      length regs = Z.to_nat (count st - spawned st) /\
      Forall (fun s => is_miniboss s = false) regs /\
      tail = (if miniboss_due (wave st)
              then [mkSpawned Miniboss (js_round (baseHp st * 8))
                      (js_max 35 (IZR (js_round (waveSpeed st * (85 / 100)))))
                      14]
              else []).
Proof.
  induction rolls as [|[r1 r2] rest IH]; intros st Hon Hle Hlen.
  - cbn [length] in Hlen. lia.
  - cbn [run_ticks]. unfold spawn_tick. rewrite Hon. cbn [negb].
    destruct (count st <=? spawned st)%Z eqn:Hdone.
    + apply Z.leb_le in Hdone.
      rewrite run_ticks_off by reflexivity. cbn [pushed].
      exists [].
      eexists. split; [reflexivity|].
      replace (count st - spawned st)%Z with 0%Z by lia.
      split; [reflexivity|]. split; [constructor|]. reflexivity.
    + apply Z.leb_gt in Hdone.
      match goal with |- context [run_ticks rest ?s] => set (st1 := s) end.
      assert (Hlen' : (count st1 - spawned st1 < Z.of_nat (length rest))%Z).
      { unfold st1; cbn [count spawned]. cbn [length] in Hlen. lia. }
      destruct (IH st1 eq_refl ltac:(unfold st1; cbn [count spawned]; lia) Hlen')
        as (regs & tail & Hp & Hl & Hall & Htail).
      rewrite Hp. unfold st1 in Hl, Htail |- *.
      cbn [pushed count spawned wave baseHp waveSpeed] in Hl, Htail |- *.
      match goal with
      | |- exists _ _, (_ ++ [?e0]) ++ _ = _ /\ _ => exists (e0 :: regs), tail
      end.
      split; [rewrite <- app_assoc; reflexivity|].
      split.
      { cbn [length]. rewrite Hl.
        replace (count st - spawned st)%Z
          with (Z.succ (count st - (spawned st + 1)))%Z by lia.
        rewrite Z2Nat.inj_succ by lia. reflexivity. }
      split; [|exact Htail].
      constructor; [|exact Hall].
      destruct (negb _ && _); [reflexivity|]. destruct (Rltb r1 _); reflexivity.
Qed.

(** X21: [startNextWave()] is guarded and pays before it spawns.  While a
    wave is still spawning the call changes nothing.  Otherwise the wave
    number goes up by exactly one, spawning starts with nothing spawned yet,
    and [money] rises by 3 for every Stonklodon tower placed plus, except
    before the very first wave, the wave reward. *)
Theorem startNextWave_guard_and_payout :
  forall (cfg : WaveConfig) (st : WaveState),
    (spawning st = true -> startNextWave cfg st = st) /\
    (spawning st = false -> (0 <= stonkCount cfg)%Z ->
     let st1 := startNextWave cfg st in
     wave st1 = (wave st + 1)%Z /\ spawning st1 = true /\ spawned st1 = 0%Z /\
     pushed st1 = pushed st /\
     wmoney st1 = (wmoney st + 3 * stonkCount cfg
                   + if (0 <? wave st)%Z then waveReward cfg else 0)%Z /\
     startNextWave cfg st1 = st1).
Proof.
  intros cfg st. unfold startNextWave. split.
  - intros ->. reflexivity.
  - intros Hs Hstonk. rewrite Hs. cbn [wave spawning spawned pushed wmoney].
    repeat split.
    destruct (0 <? stonkCount cfg)%Z eqn:Hc; destruct (0 <? wave st)%Z;
      try (apply Z.ltb_ge in Hc); lia.
Qed.

Lemma startNextWave_guard_and_payout_witness :
  spawning wave_four_done = false /\ (0 <= stonkCount sample_config)%Z /\
  wmoney (startNextWave sample_config wave_four_done) = 120%Z.
Proof.
  assert (Hs : spawning wave_four_done = false) by reflexivity.
  assert (Hc : (0 <= stonkCount sample_config)%Z) by (cbn; lia).
  split; [exact Hs|]. split; [exact Hc|].
  destruct (proj2 (startNextWave_guard_and_payout sample_config wave_four_done)
              Hs Hc) as (_ & _ & _ & _ & Hm & _).
  rewrite Hm. reflexivity.
Defined.

(** X22: a wave ends with exactly one miniboss when its number is a
    positive multiple of 7 and with none otherwise.  Once the spawn timer
    has fired more often than the wave's count, the callback has pushed
    [count] enemies, none of them a miniboss, followed by the miniboss if
    one is due (radius 14, hit points [round(baseHp * 8)]) and by nothing
    else, has stopped its timer, and further firings push nothing. *)
Theorem wave_ends_with_miniboss_every_seventh :
  forall (cfg : WaveConfig) (st : WaveState) (w : Z) (rolls : list (R * R)),
    (1 <= w)%Z -> wave st = (w - 1)%Z -> spawning st = false ->
    let st1 := startNextWave cfg st in
    (count st1 < Z.of_nat (length rolls))%Z ->
    let st2 := run_ticks rolls st1 in
    minibosses (pushed st2)
      = (minibosses (pushed st) + if miniboss_due w then 1 else 0)%nat /\
    length (pushed st2)
      = (length (pushed st) + Z.to_nat (count st1)
         + if miniboss_due w then 1 else 0)%nat /\
    (miniboss_due w = true <-> exists k : Z, (1 <= k)%Z /\ w = (7 * k)%Z) /\
    (forall more : list (R * R), run_ticks more st2 = st2) /\
    (exists regs tail : list Spawned,
        pushed st2 = pushed st ++ regs ++ tail /\
        length regs = Z.to_nat (count st1) /\
        Forall (fun s => is_miniboss s = false) regs /\
        (miniboss_due w = true ->
         exists boss : Spawned,
           tail = [boss] /\ is_miniboss boss = true /\
           sp_radius boss = 14 /\ sp_hp boss = js_round (baseHp st1 * 8)) /\
        (miniboss_due w = false -> tail = [])).
Proof.
  intros cfg st w rolls Hw Hwave Hsp st1 Hlen st2.
  assert (Hst1 : wave st1 = w /\ timerOn st1 = true /\ spawned st1 = 0%Z /\
                 pushed st1 = pushed st /\ (1 <= count st1)%Z).
  { unfold st1, startNextWave. rewrite Hsp, Hwave.
    cbn [wave count timerOn spawned pushed].
    replace (w - 1 + 1)%Z with w by lia.
    repeat split; try reflexivity. unfold wave_count. lia. }
  destruct Hst1 as (H1 & H2 & H3 & H4 & H5).
  destruct (run_ticks_boss rolls st1 H2 ltac:(lia) ltac:(lia))
    as (Hb & Hl & Hoff & _).
  destruct (run_ticks_order rolls st1 H2 ltac:(lia) ltac:(lia))
    as (regs & tail & Hp & Hlr & Hall & Htail).
  fold st2 in Hb, Hl, Hoff, Hp. rewrite H1, H3, H4, Z.sub_0_r in *.
  split; [exact Hb|]. split; [exact Hl|]. split; [|split].
  - unfold miniboss_due. rewrite andb_true_iff, Z.leb_le, Z.eqb_eq. split.
    + intros [H7 Hmod]. exists (w / 7)%Z.
      pose proof (Z.div_mod w 7 ltac:(lia)) as Hdm. rewrite Hmod in Hdm.
      split; [|lia].
      assert (0 < w / 7)%Z by (apply Z.div_str_pos; lia). lia.
    + intros (k & Hk & ->). split; [lia|].
      rewrite Z.mul_comm. apply Z.mod_mul. lia.
  - intros more. now apply run_ticks_off.
  - exists regs, tail. split; [exact Hp|]. split; [exact Hlr|].
    split; [exact Hall|]. split.
    + intros Hdue. rewrite Hdue in Htail. eexists. split; [exact Htail|].
      repeat split.
    + intros Hdue. now rewrite Hdue in Htail.
Qed.

Lemma wave_ends_with_miniboss_every_seventh_witness :
  (1 <= 5)%Z /\ wave wave_four_done = (5 - 1)%Z /\
  (exists k : Z, (1 <= k)%Z /\ 14%Z = (7 * k)%Z) /\ miniboss_due 14 = true.
Proof.
  assert (Hw : (1 <= 5)%Z) by lia.
  split; [exact Hw|]. split; [reflexivity|].
  assert (Hk : exists k : Z, (1 <= k)%Z /\ 14%Z = (7 * k)%Z)
    by (exists 2%Z; lia).
  split; [exact Hk|].
  assert (Hlen : (count (startNextWave sample_config
                           (mkWaveState 13 false false 0 0 0 0 [] 0))
                  < Z.of_nat (length (repeat (0, 0) 100)))%Z).
  { rewrite repeat_length.
    unfold startNextWave. cbn [spawning wave count countMult sample_config].
    change (13 + 1)%Z with 14%Z.
    rewrite wave_count_formula by lra.
    assert (Hf : js_floor (12 / 10 * 14) = 16%Z)
      by (unfold js_floor; apply Zfloor_eq; lra).
    rewrite Hf. change (6 + 16)%Z with 22%Z.
    replace (22 * 1) with (IZR 22) by lra. rewrite js_round_int. lia. }
  apply (proj1 (proj2 (proj2 (wave_ends_with_miniboss_every_seventh
           sample_config (mkWaveState 13 false false 0 0 0 0 [] 0) 14
           (repeat (0, 0) 100) ltac:(lia) eq_refl eq_refl Hlen)))).
  exact Hk.
Defined.

(** ** Weighted path selection *)

Lemma fold_left_sum (ws : list R) :
  forall acc : R,
    fold_left (fun sum w => sum + w) ws acc = acc + fold_right Rplus 0 ws.
Proof.
  induction ws as [|w rest IH]; intros acc; cbn [fold_left fold_right].
  - lra.
  - rewrite IH. lra.
Qed.

Lemma select_loop_spec (random total : R) (ws : list R) :
  0 < total ->
  Forall (fun w => 0 <= w) ws ->
  forall (i : Z) (c : R),
    c <= random ->
    random < c + fold_right Rplus 0 ws / total ->
    exists k : nat,
      (k < length ws)%nat /\
      select_loop random (map (fun w => w / total) ws) i c
        = Some (i + Z.of_nat k)%Z /\
      c + weight_before ws k / total <= random
        < c + weight_before ws (S k) / total /\
      0 < nth k ws 0.
Proof.
  intros Htot Hpos. induction Hpos as [|w rest Hw Hrest IH]; intros i c Hlo Hhi.
  - cbn [fold_right] in Hhi. unfold Rdiv in Hhi. rewrite Rmult_0_l in Hhi. lra.
  - cbn [map select_loop].
    destruct (Rltb random (c + w / total)) eqn:Hlt.
    + apply Rltb_true in Hlt. exists 0%nat.
      unfold weight_before. cbn [length firstn fold_right nth].
      split; [lia|]. split; [f_equal; lia|].
      assert (Hw0 : 0 / total = 0) by (unfold Rdiv; ring).
      replace ((w + 0) / total) with (w / total) by (f_equal; ring).
      rewrite Hw0. split; [lra|].
      destruct (Rle_lt_or_eq_dec _ _ Hw) as [Hp | Hz]; [exact Hp|].
      subst w. rewrite Hw0 in Hlt. lra.
    + apply Rltb_false in Hlt.
      destruct (IH (i + 1)%Z (c + w / total) Hlt) as (k & Hk & Hsel & Hbnd & Hnz).
      { cbn [fold_right] in Hhi.
        replace ((w + fold_right Rplus 0 rest) / total)
          with (w / total + fold_right Rplus 0 rest / total) in Hhi
          by (field; lra).
        lra. }
      exists (S k). cbn [length nth]. split; [lia|].
      split; [rewrite Hsel; f_equal; lia|].
      split; [|exact Hnz].
      unfold weight_before in *. cbn [firstn fold_right] in *.
      replace ((w + fold_right Rplus 0 (firstn k rest)) / total)
        with (w / total + fold_right Rplus 0 (firstn k rest) / total)
        by (field; lra).
      replace ((w + fold_right Rplus 0
                      match rest with
                      | [] => []
                      | a :: l => a :: firstn k l
                      end) / total)
        with (w / total + fold_right Rplus 0
                            match rest with
                            | [] => []
                            | a :: l => a :: firstn k l
                            end / total)
        by (field; lra).
      lra.
Qed.

(** X23: [selectPathByWeight()] inverts the cumulative distribution of the
    weights.  With a single path it returns 0 without drawing from the
    weights.  Otherwise, for weights that are not negative with a positive
    total and a random value in [[0, 1)], it returns an index [i] inside the
    weight array such that the weights before [i], divided by the total, are
    at most the random value, which is less than the same sum including
    weight [i]; in particular a path of weight 0 is never selected. *)
Theorem selectPathByWeight_inverts_cdf :
  (forall (ws : list R) (random : R), selectPathByWeight 1 ws random = 0%Z) /\
  (forall (npaths : nat) (ws : list R) (random : R),
      npaths <> 1%nat ->
      Forall (fun w => 0 <= w) ws ->
      0 < fold_right Rplus 0 ws ->
      0 <= random < 1 ->
      exists k : nat,
        selectPathByWeight npaths ws random = Z.of_nat k /\
        (k < length ws)%nat /\
        weight_before ws k / fold_right Rplus 0 ws <= random
          < weight_before ws (S k) / fold_right Rplus 0 ws /\
        0 < nth k ws 0).
Proof.
  split; [reflexivity|].
  intros npaths ws random Hn Hpos Htot Hr.
  unfold selectPathByWeight.
  apply Nat.eqb_neq in Hn. rewrite Hn.
  rewrite fold_left_sum, Rplus_0_l.
  destruct (select_loop_spec random (fold_right Rplus 0 ws) ws Htot Hpos 0 0)
    as (k & Hk & Hsel & Hbnd & Hnz).
  - lra.
  - unfold Rdiv. rewrite Rinv_r by lra. lra.
  - exists k. rewrite Hsel. rewrite !Rplus_0_l in Hbnd.
    split; [f_equal|]; auto.
Qed.

Lemma selectPathByWeight_inverts_cdf_witness :
  2%nat <> 1%nat /\ Forall (fun w => 0 <= w) [1; 3] /\
  0 < fold_right Rplus 0 [1; 3] /\ 0 <= 1 / 2 < 1 /\
  exists k : nat, selectPathByWeight 2 [1; 3] (1 / 2) = Z.of_nat k /\
                  (k < 2)%nat.
Proof.
  assert (Hn : 2%nat <> 1%nat) by lia.
  assert (Hpos : Forall (fun w => 0 <= w) [1; 3])
    by (repeat constructor; lra).
  assert (Htot : 0 < fold_right Rplus 0 [1; 3]) by (cbn [fold_right]; lra).
  assert (Hr : 0 <= 1 / 2 < 1) by lra.
  split; [exact Hn|]. split; [exact Hpos|]. split; [exact Htot|].
  split; [exact Hr|].
  destruct (proj2 selectPathByWeight_inverts_cdf 2%nat [1; 3] (1 / 2)
              Hn Hpos Htot Hr) as (k & Hsel & Hk & _).
  exists k. split; [exact Hsel | exact Hk].
Defined.

(** ** Pruning *)

Lemma prune_from_prefix {A : Type} (pred : A -> bool) (pre : list A) :
  forall suf : list A,
    prune_from pred (length pre) (pre ++ suf)
    = filter (fun a => negb (pred a)) pre ++ suf.
Proof.
  induction pre as [|a pre IH] using rev_ind; intros suf; [reflexivity|].
  rewrite length_app, Nat.add_comm. cbn [length Nat.add prune_from].
  rewrite <- app_assoc. cbn [app].
  rewrite nth_error_app2 by lia. rewrite Nat.sub_diag. cbn [nth_error].
  rewrite filter_app. cbn [filter]. rewrite <- app_assoc.
  destruct (pred a); cbn [negb app].
  - unfold splice1.
    rewrite firstn_app, Nat.sub_diag, firstn_all. cbn [firstn].
    rewrite app_nil_r.
    rewrite skipn_app, skipn_all2 by (cbn; lia).
    replace (S (length pre) - length pre)%nat with 1%nat by lia.
    cbn [skipn app]. apply IH.
  - apply IH.
Qed.

(** X24: [pruneDead(arr, pred)], which walks the array backwards and
    splices out every element the predicate matches, leaves exactly the
    elements that do not match, in their original order; what it returns
    contains no matching element and pruning it again changes nothing. *)
Theorem pruneDead_is_filter :
  forall (A : Type) (arr : list A) (pred : A -> bool),
    pruneDead arr pred = filter (fun a => negb (pred a)) arr /\
    Forall (fun a => pred a = false) (pruneDead arr pred) /\
    pruneDead (pruneDead arr pred) pred = pruneDead arr pred.
Proof.
  intros A arr pred.
  assert (Hf : forall l : list A,
             pruneDead l pred = filter (fun a => negb (pred a)) l).
  { intros l. unfold pruneDead.
    pose proof (prune_from_prefix pred l []) as H.
    now rewrite !app_nil_r in H. }
  split; [apply Hf|]. split.
  - rewrite Hf. apply Forall_forall. intros a Hin.
    apply filter_In in Hin. destruct Hin as [_ Hp].
    now apply negb_true_iff in Hp.
  - rewrite !Hf. induction arr as [|a rest IH]; [reflexivity|].
    cbn [filter]. destruct (pred a) eqn:Hp; cbn [negb]; [exact IH|].
    cbn [filter]. rewrite Hp. cbn [negb]. now rewrite IH.
Qed.

(** ** Placing a tower *)

(** X25: a click on the canvas either changes nothing (no preview position,
    a position within the 24-pixel buffer of a path, or less money than the
    tower costs) or appends exactly one tower of the selected type at the
    preview position and takes exactly its cost from [money].  A placed
    tower is never within 24 pixels of any point of a path segment, and
    [money] that was not negative stays so. *)
Theorem click_places_off_path_within_budget :
  forall (paths : list Path) (ty : TowerType) (previewPos : option Point)
         (money0 : Z) (towers : list PlacedTower),
    let money1 := fst (click paths ty previewPos money0 towers) in
    let towers1 := snd (click paths ty previewPos money0 towers) in
    (money1 = money0 /\ towers1 = towers \/
     exists p : Point,
       previewPos = Some p /\
       towers1 = towers ++ [mkPlaced ty (px p) (py p)] /\
       money1 = (money0 - tower_cost ty)%Z /\
       (tower_cost ty <= money0)%Z /\
       ~ within_of_paths 24 (px p) (py p) paths) /\
    ((0 <= money0)%Z -> (0 <= money1 <= money0)%Z).
Proof.
  intros paths ty previewPos money0 towers. cbn zeta. unfold click.
  assert (Hcost : (0 < tower_cost ty)%Z) by (destruct ty; cbn; lia).
  destruct previewPos as [p|]; [|split; [now left | cbn [fst]; lia]].
  destruct (isOnPath (px p) (py p) paths) eqn:Hon;
    [split; [now left | cbn [fst]; lia]|].
  destruct (money0 <? tower_cost ty)%Z eqn:Hm;
    [split; [now left | cbn [fst]; lia]|].
  apply Z.ltb_ge in Hm. cbn [fst snd]. split; [|lia].
  right. exists p. unfold placeTower. repeat split; auto.
  intros Hnear.
  apply isOnPath_true_iff in Hnear.
  congruence.
Qed.

(** ** Homing leap *)

Lemma unit_step_length (a m : R) :
  hypot (cos a * m) (sin a * m) = Rabs m.
Proof.
  unfold hypot.
  replace (cos a * m * (cos a * m) + sin a * m * (sin a * m)) with (Rsqr m).
  - apply sqrt_Rsqr_abs.
  - pose proof (sin2_cos2 a) as Hsc. unfold Rsqr in *.
    transitivity (m * m * (sin a * sin a + cos a * cos a)).
    + rewrite Hsc. ring.
    + ring.
Qed.

(** What one update of an active leap with a living target has done when it
    returns. *)
Lemma leap_update_some (atan2 : R -> R -> R) (fuel : nat) (g : Globals)
  (dt : R) (l : HomingLeap) (t : Enemy) (l' : HomingLeap) (t' : Enemy)
  (g' : Globals) :
  leap_update atan2 fuel g dt l t = Some (l', t', g') ->
  hl_alive l = true -> alive t = true ->
  exists a1 a2 : R,
    lerpAngle fuel (hl_angle l)
      (angleBetween atan2 (hl_x l) (hl_y l) (x t) (y t))
      (8 * dt * gameSpeed g) = Some a1 /\
    wrapAngle fuel a1 = Some a2 /\
    hl_angle l' = a2 /\
    hl_x l' = hl_x l + cos a2 * (hl_speed l * dt * gameSpeed g) /\
    hl_y l' = hl_y l + sin a2 * (hl_speed l * dt * gameSpeed g) /\
    hl_impact l' = hl_impact l /\ hl_bleedDps l' = hl_bleedDps l /\
    hl_bleedDur l' = hl_bleedDur l /\
    ((t' = t /\ g' = g) \/
     (hl_alive l' = false /\
      t' = applyBleed (hl_bleedDps l) (hl_bleedDur l)
             (fst (takeDamage g (hl_impact l) t)) /\
      g' = snd (takeDamage g (hl_impact l) t))).
Proof.
  intros Hu Ha Ht. unfold leap_update in Hu. rewrite Ha, Ht in Hu.
  cbn [negb] in Hu.
  destruct (lerpAngle _ _ _ _) as [a1|] eqn:Hl; [|discriminate].
  destruct (wrapAngle fuel a1) as [a2|] eqn:Hw; [|discriminate].
  exists a1, a2. split; [first [reflexivity | exact Hl]|].
  split; [first [reflexivity | exact Hw]|]. clear Hw.
  unfold leap_advance in Hu.
  cbn [hl_x hl_y hl_impact hl_bleedDps hl_bleedDur hl_alive hl_angle hl_speed] in Hu.
  destruct (Rltb _ (radius t + 8)).
  - destruct (takeDamage g (hl_impact l) t) as [t1 g1] eqn:Htd.
    cbn [hl_set_alive hl_x hl_y hl_alive] in Hu.
    injection Hu as <- <- <-.
    destruct (_ || _); cbn; repeat split; auto.
  - injection Hu as <- <- <-.
    destruct (_ || _); cbn; repeat split; auto.
Qed.

(** The first frame of [head_on_leap] strikes its target. *)
Lemma head_on_leap_hits :
  exists l' : HomingLeap,
    leap_update (fun _ _ => 0) 0 sample_globals (1 / 60) head_on_leap
      (lane_enemy 11 20)
    = Some (l', applyBleed 6 3 (set_hp (100 - 8) (lane_enemy 11 20)),
            sample_globals) /\
    hl_alive l' = false.
Proof.
  pose proof PI_RGT_0 as Hpi.
  assert (E1 : wrapAngle 0 (0 - 0) = Some (0 - 0)).
  { unfold wrapAngle, wrap_up, wrap_down. rcmp. reflexivity. }
  assert (E2 : forall t, 0 < t -> lerpAngle 0 0 0 t = Some 0).
  { intros t Ht. unfold lerpAngle. rewrite E1. unfold clamp. rcmp; f_equal; lra. }
  assert (E3 : wrapAngle 0 0 = Some 0).
  { unfold wrapAngle, wrap_up, wrap_down. rcmp. reflexivity. }
  unfold leap_update, head_on_leap, new_HomingLeap, angleBetween, lane_enemy,
    sample_globals.
  cbn [hl_x hl_y hl_speed hl_impact hl_bleedDps hl_bleedDur hl_alive hl_angle
       negb]. fields.
  rewrite E2 by lra. rewrite E3.
  unfold leap_advance.
  cbn [hl_x hl_y hl_speed hl_impact hl_bleedDps hl_bleedDur hl_alive hl_angle].
  fields. rewrite cos_0, sin_0.
  replace (15 + 1 * (450 * (1 / 60) * 1) - 20) with (5 / 2) by lra.
  replace (0 + 0 * (450 * (1 / 60) * 1) - 0) with 0 by lra.
  rewrite hypot_axis_x by lra.
  rewrite (proj2 (Rltb_true (5 / 2) (10 + 8))) by lra.
  unfold takeDamage. fields.
  rewrite (proj2 (Rleb_false (100 - 8) 0)) by lra.
  eexists. split; [reflexivity|].
  destruct (_ || _); reflexivity.
Qed.

(** X26: one [HomingLeap.update].  An inactive leap changes nothing; an
    active leap whose target is dead goes inactive without touching it.
    With a heading in [[-pi, pi]] (where the constructor and every update
    leave it), [Math.atan2] ranging over [[-pi, pi]] and
    [dt * gameSpeed >= 0], the update returns, each [wrapAngle] loop making
    at most two iterations.  When an active leap chases a living target, it
    steps along its new heading: [x] grows by
    [cos(angle) * speed * dt * gameSpeed] and [y] by
    [sin(angle) * speed * dt * gameSpeed], a step of length
    [|speed * dt * gameSpeed|]; the new heading lies in [(-pi, pi]] and is
    the old one turned by at most [8 * dt * gameSpeed], up to whole turns;
    and the target is either untouched or receives the impact damage and
    the bleed, in which case the leap is inactive. *)
Theorem leap_update_steers_and_strikes :
  forall (atan2 : R -> R -> R) (g : Globals) (dt : R) (l : HomingLeap)
         (t : Enemy),
    (hl_alive l = false ->
     forall fuel, leap_update atan2 fuel g dt l t = Some (l, t, g)) /\
    (hl_alive l = true -> alive t = false ->
     forall fuel,
       leap_update atan2 fuel g dt l t = Some (hl_set_alive false l, t, g)) /\
    (- PI <= hl_angle l <= PI ->
     (forall v u : R, - PI <= atan2 v u <= PI) ->
     0 <= dt * gameSpeed g ->
     forall m : nat, (2 <= m)%nat ->
       exists res, leap_update atan2 m g dt l t = Some res) /\
    (forall (fuel : nat) (l' : HomingLeap) (t' : Enemy) (g' : Globals),
        leap_update atan2 fuel g dt l t = Some (l', t', g') ->
        hl_alive l = true -> alive t = true -> 0 <= dt * gameSpeed g ->
        hl_x l' = hl_x l + cos (hl_angle l') * (hl_speed l * dt * gameSpeed g) /\
        hl_y l' = hl_y l + sin (hl_angle l') * (hl_speed l * dt * gameSpeed g) /\
        hypot (hl_x l' - hl_x l) (hl_y l' - hl_y l)
          = Rabs (hl_speed l * dt * gameSpeed g) /\
        - PI < hl_angle l' <= PI /\
        (exists (turned : R) (k : Z),
            Rabs turned <= 8 * dt * gameSpeed g /\
            hl_angle l' = hl_angle l + turned + IZR k * (2 * PI)) /\
        ((t' = t /\ g' = g) \/
         (hl_alive l' = false /\ hp t' = hp t - hl_impact l /\
          bleedDps t' = Rmax (bleedDps t) (hl_bleedDps l) /\
          bleedTimer t' = Rmax (bleedTimer t) (hl_bleedDur l)))).
Proof.
  intros atan2 g dt l t. split; [|split; [|split]].
  - intros Ha fuel. unfold leap_update. now rewrite Ha.
  - intros Ha Ht fuel. unfold leap_update. now rewrite Ha, Ht.
  - intros Hang Hatan Hturn m Hm. pose proof PI_RGT_0 as Hpi.
    unfold leap_update.
    destruct (hl_alive l); cbn [negb]; [|now eexists].
    destruct (alive t); cbn [negb]; [|now eexists].
    set (desired := angleBetween atan2 (hl_x l) (hl_y l) (x t) (y t)).
    assert (Hd : - PI <= desired <= PI) by apply Hatan.
    destruct (wrapAngle_near (desired - hl_angle l)) as (da & Hda).
    { apply Rabs_le. lra. }
    destruct (wrapAngle_some _ _ _ (Hda 2%nat (le_n 2))) as (Hrange & _).
    assert (Ht8 : 0 <= 8 * dt * gameSpeed g).
    { replace (8 * dt * gameSpeed g) with (8 * (dt * gameSpeed g)) by ring. lra. }
    assert (Hc : - PI <= clamp da (- (8 * dt * gameSpeed g))
                           (8 * dt * gameSpeed g) <= PI).
    { unfold clamp. generalize dependent (8 * dt * gameSpeed g). intros turn Hturn0.
      rcmp; lra. }
    set (a1 := hl_angle l + clamp da (- (8 * dt * gameSpeed g))
                              (8 * dt * gameSpeed g)).
    destruct (wrapAngle_near a1) as (a2 & Ha2).
    { apply Rabs_le. unfold a1. lra. }
    unfold lerpAngle. rewrite (Hda m Hm). fold a1.
    rewrite (Ha2 m Hm).
    destruct (Rltb _ _); [destruct (takeDamage _ _ _)|]; now eexists.
  - intros fuel l' t' g' Hu Ha Ht Hturn.
    destruct (leap_update_some _ _ _ _ _ _ _ _ _ Hu Ha Ht)
      as (a1 & a2 & Hl & Hw & Hang & Hx & Hy & Hi & Hd & Hdur & Hout).
    split; [rewrite Hang; exact Hx|]. split; [rewrite Hang; exact Hy|].
    split.
    { rewrite Hx, Hy.
      replace (hl_x l + cos a2 * (hl_speed l * dt * gameSpeed g) - hl_x l)
        with (cos a2 * (hl_speed l * dt * gameSpeed g)) by ring.
      replace (hl_y l + sin a2 * (hl_speed l * dt * gameSpeed g) - hl_y l)
        with (sin a2 * (hl_speed l * dt * gameSpeed g)) by ring.
      apply unit_step_length. }
    destruct (wrapAngle_some _ _ _ Hw) as (Hrange & k & Hk).
    split; [rewrite Hang; exact Hrange|]. split.
    { unfold lerpAngle in Hl.
      destruct (wrapAngle fuel _) as [da|]; [|discriminate].
      injection Hl as <-.
      exists (clamp da (- (8 * dt * gameSpeed g)) (8 * dt * gameSpeed g)), k.
      split; [|rewrite Hang, Hk; ring_simplify; lra].
      assert (Hb : - (8 * dt * gameSpeed g)
                   <= clamp da (- (8 * dt * gameSpeed g)) (8 * dt * gameSpeed g)
                   <= 8 * dt * gameSpeed g)
        by (unfold clamp; rcmp; lra).
      apply Rabs_le. exact Hb. }
    destruct Hout as [Hsame | (Hoff & -> & ->)]; [now left|].
    right. split; [exact Hoff|].
    pose proof (takeDamage_hp g (hl_impact l) t) as Hhp.
    unfold applyBleed, js_max. fields.
    repeat split; try assumption.
    + unfold takeDamage, die. destruct (Rleb _ 0); fields;
        [destruct (alive t)|]; reflexivity.
    + unfold takeDamage, die. destruct (Rleb _ 0); fields;
        [destruct (alive t)|]; reflexivity.
Qed.

Lemma leap_update_steers_and_strikes_witness :
  exists (l' : HomingLeap) (t' : Enemy) (g' : Globals),
    leap_update (fun _ _ => 0) 2 sample_globals (1 / 60) head_on_leap
      (lane_enemy 11 20) = Some (l', t', g') /\
    hl_x l' = hl_x head_on_leap
              + cos (hl_angle l')
                * (hl_speed head_on_leap * (1 / 60) * gameSpeed sample_globals) /\
    hypot (hl_x l' - hl_x head_on_leap) (hl_y l' - hl_y head_on_leap)
      = Rabs (hl_speed head_on_leap * (1 / 60) * gameSpeed sample_globals) /\
    - PI < hl_angle l' <= PI.
Proof.
  pose proof PI_RGT_0 as Hpi.
  assert (Hdt : 0 <= 1 / 60 * gameSpeed sample_globals) by (cbn; lra).
  assert (Hang : - PI <= hl_angle head_on_leap <= PI)
    by (unfold head_on_leap, new_HomingLeap, angleBetween; cbn [hl_angle]; lra).
  assert (Hatan : forall v u : R, - PI <= (fun _ _ : R => 0) v u <= PI)
    by (intros; cbn; lra).
  destruct (proj1 (proj2 (proj2 (leap_update_steers_and_strikes
              (fun _ _ => 0) sample_globals (1 / 60) head_on_leap
              (lane_enemy 11 20)))) Hang Hatan Hdt 2%nat (le_n 2))
    as [[[l1 t1] g1] Hu].
  exists l1, t1, g1. split; [exact Hu|].
  destruct (proj2 (proj2 (proj2 (leap_update_steers_and_strikes
              (fun _ _ => 0) sample_globals (1 / 60) head_on_leap
              (lane_enemy 11 20))))
              2%nat _ _ _ Hu eq_refl eq_refl Hdt) as (H1 & _ & H2 & H3 & _).
  split; [exact H1|]. split; [exact H2 | exact H3].
Defined.

(** X27: over any number of frames a [HomingLeap] strikes its target at
    most once: after any run of updates the target and the globals are as
    they were, or the target was alive and has received exactly one impact
    and one bleed application, the globals are those of that single
    [takeDamage], and the leap is inactive. *)
Theorem leap_strikes_at_most_once :
  forall (atan2 : R -> R -> R) (fuel : nat) (dts : list R) (g : Globals)
         (l : HomingLeap) (t : Enemy) (l' : HomingLeap) (t' : Enemy)
         (g' : Globals),
    leap_run atan2 fuel g dts l t = Some (l', t', g') ->
    (t' = t /\ g' = g) \/
    (hl_alive l' = false /\ alive t = true /\
     t' = applyBleed (hl_bleedDps l) (hl_bleedDur l)
            (fst (takeDamage g (hl_impact l) t)) /\
     g' = snd (takeDamage g (hl_impact l) t) /\
     hp t' = hp t - hl_impact l).
Proof.
  intros atan2 fuel dts.
  assert (Hoff : forall dts g l t, hl_alive l = false ->
            leap_run atan2 fuel g dts l t = Some (l, t, g)).
  { clear. induction dts as [|dt rest IH]; intros g l t Ha; [reflexivity|].
    cbn [leap_run]. unfold leap_update. rewrite Ha. cbn [negb]. now apply IH. }
  induction dts as [|dt rest IH]; intros g l t l' t' g' Hrun;
    cbn [leap_run] in Hrun.
  - injection Hrun as <- <- <-. now left.
  - destruct (leap_update atan2 fuel g dt l t) as [[[l1 t1] g1]|] eqn:Hu;
      [|discriminate].
    destruct (hl_alive l) eqn:Ha.
    + destruct (alive t) eqn:Ht.
      * destruct (leap_update_some _ _ _ _ _ _ _ _ _ Hu Ha Ht)
          as (a1 & a2 & _ & _ & _ & _ & _ & Hi & Hd & Hdur & Hout).
        destruct Hout as [[-> ->] | (Hoff1 & -> & ->)].
        -- destruct (IH _ _ _ _ _ _ Hrun) as [Hsame | (H1 & H2 & H3 & H4 & H5)];
             [now left|].
           right. rewrite Hi, Hd, Hdur in *. auto.
        -- rewrite (Hoff _ _ _ _ Hoff1) in Hrun. injection Hrun as <- <- <-.
           right. repeat split; auto.
           unfold applyBleed. fields. apply takeDamage_hp.
      * unfold leap_update in Hu. rewrite Ha, Ht in Hu. cbn [negb] in Hu.
        injection Hu as <- <- <-.
        rewrite (Hoff rest g (hl_set_alive false l) t eq_refl) in Hrun.
        injection Hrun as <- <- <-.
        now left.
    + unfold leap_update in Hu. rewrite Ha in Hu. cbn [negb] in Hu.
      injection Hu as <- <- <-.
      rewrite (Hoff _ _ _ _ Ha) in Hrun. injection Hrun as <- <- <-. now left.
Qed.

Lemma leap_strikes_at_most_once_witness :
  exists (l' : HomingLeap) (t' : Enemy) (g' : Globals),
    leap_run (fun _ _ => 0) 0 sample_globals [1 / 60; 1 / 60] head_on_leap
      (lane_enemy 11 20) = Some (l', t', g') /\
    hp t' = 100 - 8 /\
    (t' = lane_enemy 11 20 /\ g' = sample_globals \/
     hl_alive l' = false /\ alive (lane_enemy 11 20) = true /\
     t' = applyBleed (hl_bleedDps head_on_leap) (hl_bleedDur head_on_leap)
            (fst (takeDamage sample_globals (hl_impact head_on_leap)
                    (lane_enemy 11 20))) /\
     g' = snd (takeDamage sample_globals (hl_impact head_on_leap)
                 (lane_enemy 11 20)) /\
     hp t' = hp (lane_enemy 11 20) - hl_impact head_on_leap).
Proof.
  destruct head_on_leap_hits as (l1 & Hu & Hoff).
  assert (Hrun : leap_run (fun _ _ => 0) 0 sample_globals [1 / 60; 1 / 60]
                   head_on_leap (lane_enemy 11 20)
                 = Some (l1, applyBleed 6 3 (set_hp (100 - 8) (lane_enemy 11 20)),
                         sample_globals)).
  { cbn [leap_run]. rewrite Hu. unfold leap_update. rewrite Hoff. reflexivity. }
  exists l1, (applyBleed 6 3 (set_hp (100 - 8) (lane_enemy 11 20))),
    sample_globals.
  split; [exact Hrun|]. split; [reflexivity|].
  exact (leap_strikes_at_most_once _ _ _ _ _ _ _ _ _ Hrun).
Defined.

(** ** Aura towers *)

Lemma brachiosaurus_touch_pays_per_kill (dt : R) (tw : BrachiosaurusTower) :
  pays_per_kill (brachiosaurus_touch dt tw).
Proof.
  intros g e. unfold brachiosaurus_touch, aura_touch, die, applySlow, reward.
  fields.
  destruct (alive e) eqn:Ha; cbn [negb fst snd]; rewrite ?Ha;
    cbn [andb negb]; [|auto].
  destruct (Rleb _ (br_range tw));
    [|cbn [fst snd]; rewrite Ha; cbn [andb negb]; split; [discriminate | reflexivity]].
  destruct (Rleb _ 0); fields; rewrite ?Ha; cbn [negb andb fst snd]; fields;
    rewrite ?Ha; cbn [negb andb]; split; try discriminate; reflexivity.
Qed.

Lemma brachiosaurus_touch_indep (dt : R) (tw : BrachiosaurusTower)
  (g g0 : Globals) (e : Enemy) :
  fst (brachiosaurus_touch dt tw g e) = fst (brachiosaurus_touch dt tw g0 e).
Proof.
  unfold brachiosaurus_touch, aura_touch, die.
  repeat match goal with
         | |- context [if ?c then _ else _] => destruct c
         end; reflexivity.
Qed.

Lemma auras_update_pays (dt : R) (tws : list BrachiosaurusTower) :
  forall (es : list Enemy) (g : Globals),
    money (snd (auras_update g dt tws es))
    = (money g + reward g
       * (alive_count es - alive_count (fst (auras_update g dt tws es))))%Z /\
    globals_but_money g (snd (auras_update g dt tws es)).
Proof.
  induction tws as [|tw rest IH]; intros es g.
  - cbn [auras_update fold_left fst snd]. unfold globals_but_money.
    repeat split; try reflexivity; lia.
  - unfold auras_update, brachiosaurus_update. cbn [fold_left fst snd].
    pose proof (for_each_pays _ (brachiosaurus_touch_pays_per_kill dt tw) es g)
      as Hpay. cbn zeta in Hpay.
    destruct (for_each (brachiosaurus_touch dt tw) g es) as [es1 g1].
    cbn [fst snd] in *. destruct Hpay as (_ & _ & Hm & Hb).
    specialize (IH es1 g1). unfold auras_update, brachiosaurus_update in IH.
    destruct IH as [Hm2 Hb2].
    assert (Hr : reward g1 = reward g).
    { unfold reward. destruct Hb as (_ & _ & -> & _). reflexivity. }
    split.
    + rewrite Hm2, Hr, Hm. ring.
    + unfold globals_but_money in *. intuition congruence.
Qed.

Lemma auras_update_map (dt : R) (g0 : Globals)
  (tws : list BrachiosaurusTower) :
  forall (es : list Enemy) (g : Globals),
    fst (auras_update g dt tws es) = map (under_auras g0 dt tws) es.
Proof.
  induction tws as [|tw rest IH]; intros es g.
  - cbn [auras_update fold_left fst]. unfold under_auras. cbn [fold_left].
    now rewrite map_id.
  - unfold auras_update, brachiosaurus_update. cbn [fold_left fst snd].
    pose proof (for_each_map (brachiosaurus_touch dt tw) g0
                  (fun g1 e1 => brachiosaurus_touch_indep dt tw g1 g0 e1) es g)
      as Hmap.
    destruct (for_each (brachiosaurus_touch dt tw) g es) as [es1 g1].
    cbn [fst snd] in *. specialize (IH es1 g1).
    unfold auras_update, brachiosaurus_update in IH.
    rewrite IH, Hmap, map_map. reflexivity.
Qed.

Lemma under_auras_untouched (g : Globals) (dt : R) (ps : list Point)
  (e : Enemy) :
  alive e = false \/
  (forall p, In p ps -> 160 < hypot (x e - px p) (y e - py p)) ->
  under_auras g dt (brachiosaurus_at ps) e = e.
Proof.
  intros Hout. induction ps as [|p rest IH]; [reflexivity|].
  unfold under_auras, brachiosaurus_at. cbn [map fold_left].
  assert (Hone : fst (brachiosaurus_touch dt
                        (new_BrachiosaurusTower (px p) (py p)) g e) = e).
  { unfold brachiosaurus_touch, aura_touch, new_BrachiosaurusTower.
    cbn [br_x br_y br_range br_slowFactor br_dotDps].
    destruct Hout as [Hd | Hfar]; [now rewrite Hd|].
    destruct (alive e); [|reflexivity]. cbn [negb].
    rewrite (proj2 (Rleb_false _ _) (Hfar p (or_introl eq_refl))).
    reflexivity. }
  rewrite Hone. apply IH.
  destruct Hout as [Hd | Hfar]; [now left | right].
  intros q Hq. apply Hfar. now right.
Qed.

Lemma under_auras_in_range (g : Globals) (dt : R) (ps : list Point) :
  0 <= dt ->
  forall e : Enemy,
    alive e = true ->
    (forall p, In p ps -> hypot (x e - px p) (y e - py p) <= 160) ->
    3 / 2 * dt * INR (length ps) < hp e ->
    let e' := under_auras g dt (brachiosaurus_at ps) e in
    alive e' = true /\ x e' = x e /\ y e' = y e /\
    hp e' = hp e - 3 / 2 * dt * INR (length ps) /\
    (ps <> [] ->
     slowFactor e' = Rmin (slowFactor e) (6 / 10) /\
     slowTimer e' = Rmax (slowTimer e) (3 / 10)).
Proof.
  intros Hdt. induction ps as [|p rest IH]; intros e Ha Hin Hhp; cbn zeta.
  - unfold under_auras. cbn [brachiosaurus_at map fold_left length INR].
    split; [exact Ha|]. split; [reflexivity|]. split; [reflexivity|].
    split; [lra|]. intros Hne. now destruct Hne.
  - unfold under_auras, brachiosaurus_at. cbn [map fold_left].
    set (e1 := fst (brachiosaurus_touch dt
                      (new_BrachiosaurusTower (px p) (py p)) g e)).
    assert (Hlen : 0 <= INR (length rest)) by apply pos_INR.
    cbn [length] in Hhp. rewrite S_INR in Hhp.
    assert (Hstep : 0 <= 3 / 2 * dt * INR (length rest)) by nra.
    assert (Hone : alive e1 = true /\ x e1 = x e /\ y e1 = y e /\
                   hp e1 = hp e - 3 / 2 * dt /\
                   slowFactor e1 = Rmin (slowFactor e) (6 / 10) /\
                   slowTimer e1 = Rmax (slowTimer e) (3 / 10)).
    { unfold e1, brachiosaurus_touch, aura_touch, new_BrachiosaurusTower.
      cbn [br_x br_y br_range br_slowFactor br_dotDps].
      rewrite Ha. cbn [negb].
      rewrite (proj2 (Rleb_true _ _) (Hin p (or_introl eq_refl))).
      unfold applySlow, js_min, js_max. fields.
      rewrite (proj2 (Rleb_false (hp e - 3 / 2 * dt) 0)) by lra.
      fields. auto 10. }
    destruct Hone as (Ha1 & Hx1 & Hy1 & Hhp1 & Hsf1 & Hst1).
    assert (Hin1 : forall q, In q rest ->
              hypot (x e1 - px q) (y e1 - py q) <= 160).
    { intros q Hq. rewrite Hx1, Hy1. apply Hin. now right. }
    assert (Hhp2 : 3 / 2 * dt * INR (length rest) < hp e1) by (rewrite Hhp1; lra).
    specialize (IH e1 Ha1 Hin1 Hhp2). cbn zeta in IH.
    unfold under_auras, brachiosaurus_at in IH.
    destruct IH as (Ha2 & Hx2 & Hy2 & Hhp3 & Hslow).
    split; [exact Ha2|]. split; [congruence|]. split; [congruence|].
    split.
    + rewrite Hhp3, Hhp1. cbn [length]. rewrite S_INR. ring.
    + intros _. destruct rest as [|q rest'].
      * cbn [map fold_left]. auto.
      * destruct (Hslow ltac:(discriminate)) as [Hsf2 Hst2].
        rewrite Hsf2, Hst2, Hsf1, Hst1.
        now rewrite Rmin_twice, Rmax_twice.
Qed.

(** X28: Brachiosaurus auras stack their damage but not their slow.  When
    the frame's tower loop runs Brachiosaurus towers over the shared enemy
    array, every enemy is changed on its own (the array is mapped); a dead
    enemy and an enemy out of every tower's range of 160 stay exactly as
    they were; a living enemy within range of all [n >= 1] towers that
    survives loses [1.5 * dt] hit points per tower, yet is slowed as by a
    single tower: the factor is the smaller of its own and 0.6, the slow
    timer at least 0.3, its position untouched.  [money] rises by the
    death reward once per enemy killed and nothing else of the globals
    changes. *)
Theorem brachiosaurus_auras_stack_damage_not_slow :
  forall (g : Globals) (dt : R) (ps : list Point) (es : list Enemy),
    let tws := brachiosaurus_at ps in
    let es' := fst (auras_update g dt tws es) in
    let g' := snd (auras_update g dt tws es) in
    es' = map (under_auras g dt tws) es /\
    money g' = (money g + reward g * (alive_count es - alive_count es'))%Z /\
    globals_but_money g g' /\
    forall e : Enemy,
      (alive e = false \/
       (forall p, In p ps -> 160 < hypot (x e - px p) (y e - py p)) ->
       under_auras g dt tws e = e) /\
      (alive e = true -> 0 <= dt -> ps <> [] ->
       (forall p, In p ps -> hypot (x e - px p) (y e - py p) <= 160) ->
       3 / 2 * dt * INR (length ps) < hp e ->
       alive (under_auras g dt tws e) = true /\
       x (under_auras g dt tws e) = x e /\
       y (under_auras g dt tws e) = y e /\
       hp (under_auras g dt tws e) = hp e - 3 / 2 * dt * INR (length ps) /\
       slowFactor (under_auras g dt tws e) = Rmin (slowFactor e) (6 / 10) /\
       slowTimer (under_auras g dt tws e) = Rmax (slowTimer e) (3 / 10)).
Proof.
  intros g dt ps es. cbn zeta.
  split; [apply auras_update_map|].
  destruct (auras_update_pays dt (brachiosaurus_at ps) es g) as [Hm Hb].
  split; [exact Hm|]. split; [exact Hb|].
  intros e. split; [apply under_auras_untouched|].
  intros Ha Hdt Hne Hin Hhp.
  destruct (under_auras_in_range g dt ps Hdt e Ha Hin Hhp)
    as (H1 & H2 & H3 & H4 & H5).
  destruct (H5 Hne) as [H6 H7]. auto 10.
Qed.

Lemma brachiosaurus_auras_stack_damage_not_slow_witness :
  hp (under_auras sample_globals (1 / 60)
        (brachiosaurus_at [mkPoint 0 0; mkPoint 40 0]) (lane_enemy 11 20))
  = hp (lane_enemy 11 20) - 3 / 2 * (1 / 60) * INR 2 /\
  slowFactor (under_auras sample_globals (1 / 60)
        (brachiosaurus_at [mkPoint 0 0; mkPoint 40 0]) (lane_enemy 11 20))
  = Rmin (slowFactor (lane_enemy 11 20)) (6 / 10).
Proof.
  assert (Hin : forall p, In p [mkPoint 0 0; mkPoint 40 0] ->
            hypot (x (lane_enemy 11 20) - px p) (y (lane_enemy 11 20) - py p)
            <= 160).
  { intros p [<- | [<- | []]]; cbn [lane_enemy x y px py].
    - replace (0 - 0) with 0 by lra. rewrite hypot_axis_x; lra.
    - replace (0 - 0) with 0 by lra. rewrite hypot_axis_x_neg; lra. }
  assert (Hhp : 3 / 2 * (1 / 60)
                * INR (length [mkPoint 0 0; mkPoint 40 0])
                < hp (lane_enemy 11 20)).
  { cbn [length lane_enemy hp INR]. lra. }
  destruct (proj2 (proj2 (proj2 (brachiosaurus_auras_stack_damage_not_slow
              sample_globals (1 / 60) [mkPoint 0 0; mkPoint 40 0] [])))
              (lane_enemy 11 20)) as [_ Hin_range].
  destruct (Hin_range eq_refl ltac:(lra) ltac:(discriminate) Hin Hhp)
    as (_ & _ & _ & H4 & H5 & _).
  split; [exact H4 | exact H5].
Defined.
